(** * Flame-graph generator: folded stacks, call trees, colours and SVG layout

    A shallow embedding of [01-flame-graph-generator/scripts/flamegraph.py]
    and [01-flame-graph-generator/scripts/flamediff.py], and the properties
    of the parser, the tree builder, the colour models, the layout and the
    two command-line drivers.

    Modelling conventions.
    - A Python [str] is a [string] whose characters are code points below 256.
    - A Python [int] is a [Z].
    - A Python [float] is a rational ([Q]), and [int(x)] on a float is
      truncation towards zero.  The arithmetic of the layout, the widths and
      the positions of the frames, is rounded to binary64 by [Float64.fl],
      since the properties of the widths depend on it.  The colour formulas
      and the percentages of the tooltips are computed without rounding.
    - An integer converts to a float, and an [int / int] division rounds,
      without overflow: a value of [2 ** 1024] or more is outside the model.
    - An exception is a value of [exn] carried by the [result] monad.
    - [dict] is a [gmap]; iterating a [set] is iterating a duplicate-free
      list of its elements in an arbitrary order.
    - [out.write] appends to a list of strings. *)

From Stdlib Require Import ZArith QArith Qround Qabs Qminmax Qpower Lqa.
From Stdlib Require Import Ascii String.
From Stdlib Require Import Permutation.
From stdpp Require Import gmap strings list fin_maps pretty sorting.

Local Open Scope Z_scope.

(** ** Exceptions *)

Inductive exn := ValueError | OSError | SystemExit (status : Z).

Inductive result (A : Type) :=
  | Ok (a : A)
  | Raise (e : exn).
Arguments Ok {A} a.
Arguments Raise {A} e.

Global Instance result_ret : MRet result := @Ok.
Global Instance result_bind : MBind result := λ A B f m,
  match m with Ok a => f a | Raise e => Raise e end.

(** [try: m  except ValueError: h] *)
Definition except_ValueError {A} (m : result A) (h : result A) : result A :=
  match m with
  | Raise ValueError => h
  | _ => m
  end.

(** ** Python string primitives *)

Module Py.

Definition ord (c : ascii) : N := N_of_ascii c.

(** [str.isspace] on one character, which is what [str.strip()] removes. *)
Definition isspace (c : ascii) : bool :=
  let n := ord c in
  ((9 <=? n) && (n <=? 13) || (28 <=? n) && (n <=? 32)
   || (n =? 133) || (n =? 160))%N.

(** The white space [int(str)] skips at both ends of its argument. *)
Definition int_space (c : ascii) : bool :=
  let n := ord c in
  ((9 <=? n) && (n <=? 13) || (n =? 32) || (n =? 133) || (n =? 160))%N.

Fixpoint lstrip (sp : ascii → bool) (s : string) : string :=
  match s with
  | EmptyString => EmptyString
  | String c s' => if sp c then lstrip sp s' else s
  end.

Fixpoint rstrip (sp : ascii → bool) (s : string) : string :=
  match s with
  | EmptyString => EmptyString
  | String c s' =>
      match rstrip sp s' with
      | EmptyString => if sp c then EmptyString else String c EmptyString
      | r => String c r
      end
  end.

(** [s.strip()] *)
Definition strip (s : string) : string := rstrip isspace (lstrip isspace s).

(** [s.startswith(c)] for a one-character prefix. *)
Definition startswith (c : ascii) (s : string) : bool :=
  match s with
  | String a _ => Ascii.eqb a c
  | EmptyString => false
  end.

(** [s.rfind(c)]: the highest index of [c], or [-1]. *)
Fixpoint rfind (c : ascii) (s : string) : Z :=
  match s with
  | EmptyString => -1
  | String a s' =>
      let r := rfind c s' in
      if 0 <=? r then 1 + r
      else if Ascii.eqb a c then 0 else -1
  end.

Fixpoint drop (n : nat) (s : string) : string :=
  match n, s with
  | O, _ => s
  | S n', String _ s' => drop n' s'
  | S _, EmptyString => EmptyString
  end.

Fixpoint take (n : nat) (s : string) : string :=
  match n, s with
  | S n', String c s' => String c (take n' s')
  | _, _ => EmptyString
  end.

(** [s[:i]] and [s[i:]] for an index [0 <= i]. *)
Definition slice_to (i : Z) (s : string) : string := take (Z.to_nat i) s.
Definition slice_from (i : Z) (s : string) : string := drop (Z.to_nat i) s.

(** [s.split(sep)] for a one-character separator: never the empty list. *)
Fixpoint split (sep : ascii) (s : string) : list string :=
  match s with
  | EmptyString => [EmptyString]
  | String c s' =>
      if Ascii.eqb c sep then EmptyString :: split sep s'
      else match split sep s' with
           | h :: t => String c h :: t
           | [] => [String c EmptyString]
           end
  end.

(** [s.replace(c, r)] for a one-character pattern. *)
Fixpoint replace (c : ascii) (r : string) (s : string) : string :=
  match s with
  | EmptyString => EmptyString
  | String a s' =>
      if Ascii.eqb a c then r +:+ replace c r s'
      else String a (replace c r s')
  end.

Definition digit (c : ascii) : option Z :=
  let n := ord c in
  if ((48 <=? n) && (n <=? 57))%N then Some (Z.of_N n - 48) else None.

(** Decimal digits, single underscores allowed between two digits. *)
Fixpoint digits (acc : Z) (after_digit : bool) (s : string) : option Z :=
  match s with
  | EmptyString => if after_digit then Some acc else None
  | String c s' =>
      if Ascii.eqb c "_"%char then
        if after_digit then digits acc false s' else None
      else match digit c with
           | Some d => digits (10 * acc + d) true s'
           | None => None
           end
  end.

(** The number of digit characters of a string. *)
Fixpoint count_digits (s : string) : Z :=
  match s with
  | EmptyString => 0
  | String c s' =>
      (if digit c is Some _ then 1 else 0) + count_digits s'
  end.

(** [sys.get_int_max_str_digits()], at its default. *)
Definition int_max_str_digits : Z := 4300.

(** The digits of [int(s)]: more than [int_max_str_digits] of them are
    refused, the sign and the underscores not counted. *)
Definition limited_digits (s : string) : option Z :=
  if count_digits s >? int_max_str_digits then None else digits 0 false s.

(** [int(s)] for a string: optional white space, an optional sign, digits;
    anything else raises [ValueError], and so do more than 4300 digits. *)
Definition int (s : string) : result Z :=
  let body := rstrip int_space (lstrip int_space s) in
  let parsed :=
    match body with
    | String "+"%char r => limited_digits r
    | String "-"%char r => Z.opp <$> limited_digits r
    | _ => limited_digits body
    end in
  match parsed with
  | Some n => Ok n
  | None => Raise ValueError
  end.

(** [len(s)] *)
Definition len (s : string) : Z := Z.of_nat (String.length s).

(** [int(x)] for a float: truncation towards zero. *)
Definition trunc (x : Q) : Z := Z.quot (Qnum x) (Z.pos (Qden x)).

(** [x < y] on floats. *)
Definition ltb (x y : Q) : bool := negb (Qle_bool y x).

(** Truth value of an optional string: [None] and the empty string are
    false. *)
Definition truthy (o : option string) : bool :=
  match o with
  | Some (String _ _) => true
  | _ => false
  end.

(** [a or b] on optional strings. *)
Definition or_else (a b : option string) : option string :=
  if truthy a then a else b.

(** The double quote and the line feed. *)
Definition dq : string := String "034"%char EmptyString.
Definition nl : string := String "010"%char EmptyString.

(** Markup literals are written with an apostrophe where the source has a
    double quote (no literal of the source contains an apostrophe). *)
Definition markup (s : string) : string := replace "'"%char dq s.

(** [for x in xs: body], with the loop state threaded through. *)
Fixpoint for_each {A S : Type} (body : S → A → result S) (xs : list A) (s : S)
    : result S :=
  match xs with
  | [] => Ok s
  | x :: xs' => s' ← body s x; for_each body xs' s'
  end.

End Py.

(** ** Binary64 rounding

    The arithmetic of the layout is done in binary64: the result of an
    operation is the exact result rounded to the nearest value of the
    format, the one with an even significand at a tie.  [fl] is that
    rounding on the rationals. *)

Module Float64.

(** [2 ** e] *)
Definition pow2 (e : Z) : Q := (2 ^ e)%Q.

(** [floor(log2(x))] for a positive [x]. *)
Definition ilog2 (x : Q) : Z :=
  let k := Z.log2 (Qnum x) - Z.log2 (Z.pos (Qden x)) in
  if Qle_bool (pow2 k) x then k else k - 1.

(** The nearest integer, the even one at a tie. *)
Definition rne (x : Q) : Z :=
  let f := Qfloor x in
  match (x - inject_Z f ?= 1 # 2)%Q with
  | Lt => f
  | Gt => f + 1
  | Eq => if Z.even f then f else f + 1
  end.

(** The exponent of the last bit of the significand of a positive [a]:
    53 bits of precision, and the fixed exponent of the subnormal range. *)
Definition exponent (a : Q) : Z := Z.max (ilog2 a - 52) (-1074).

(** The binary64 value nearest to a positive [a]. *)
Definition fl_pos (a : Q) : Q :=
  let e := exponent a in
  (inject_Z (rne (a / pow2 e)) * pow2 e)%Q.

(** The binary64 value nearest to [x], ties to even.  The exponent has no
    upper bound here: a result of [2 ** 1024] or more, where the interpreter
    gives [inf] or raises [OverflowError], is outside this function. *)
Definition fl (x : Q) : Q :=
  match Qnum x with
  | Z0 => 0%Q
  | Z.pos _ => fl_pos x
  | Z.neg _ => (- fl_pos (- x))%Q
  end.

(** The unit roundoff and half the smallest subnormal. *)
Definition u : Q := pow2 (-53).
Definition eta : Q := pow2 (-1075).

End Float64.

(** ** Call trees

    [Frame] and [DiffFrame] are the same class up to the counters a node
    carries: a name, the counters, and the children in insertion order.  The
    [child_map] dictionary of the source maps each child's name to that same
    child object; it is kept in step with [children] by [add_child], the only
    place where either is extended, so a lookup in [child_map] is a search for
    the first child of that name in [children]. *)

Module Tree.
Section Tree.
Variable D : Type.

Local Unset Elimination Schemes.
Inductive t : Type := Node (name : string) (data : D) (children : list t).
Local Set Elimination Schemes.

Definition name (n : t) : string := let 'Node nm _ _ := n in nm.
Definition data (n : t) : D := let 'Node _ d _ := n in d.
Definition children (n : t) : list t := let 'Node _ _ ks := n in ks.

Section Induction.
Variable P : t → Prop.
Hypothesis step : ∀ nm d ks, Forall P ks → P (Node nm d ks).

Fixpoint t_ind (n : t) : P n :=
  match n with
  | Node nm d ks =>
      step nm d ks
        ((fix all (l : list t) : Forall P l :=
            match l with
            | [] => List.Forall_nil P
            | k :: l' => List.Forall_cons P k l' (t_ind k) (all l')
            end) ks)
  end.
End Induction.

(** The counters of a freshly constructed node. *)
Variable zero : D.

(** [Frame(name)] *)
Definition new (nm : string) : t := Node nm zero [].

(** A counter update on one node, such as [node.count += count]. *)
Definition upd (f : D → D) (n : t) : t :=
  Node (name n) (f (data n)) (children n).

(** [child = self.add_child(nm)] followed by the caller's updates [g] of
    that child: the existing child of that name is updated in place, a new
    one is appended. *)
Fixpoint with_child (nm : string) (g : t → t) (ks : list t) : list t :=
  match ks with
  | [] => [g (new nm)]
  | k :: ks' =>
      if String.eqb (name k) nm then g k :: ks'
      else k :: with_child nm g ks'
  end.

(** The walk of one call path below a node whose inclusive counters have
    already been incremented:
    [for func in funcs: node = node.add_child(func); inc(node)]
    and then [fin(node)] on the last node reached. *)
Fixpoint descend (inc fin : D → D) (funcs : list string) (node : t) : t :=
  match funcs with
  | [] => upd fin node
  | func :: rest =>
      Node (name node) (data node)
        (with_child func (λ child, descend inc fin rest (upd inc child))
           (children node))
  end.

(** [node = root; inc(node); for func in funcs: ...; fin(node)] *)
Definition add_stack (inc fin : D → D) (funcs : list string) (root : t) : t :=
  descend inc fin funcs (upd inc root).

(** [children.sort(key=lambda f: f.name)]: a stable sort, as an insertion
    sort that puts an element in front of the first one whose name is not
    smaller. *)
Fixpoint insert_by_name (x : t) (l : list t) : list t :=
  match l with
  | [] => [x]
  | y :: l' =>
      match String.compare (name x) (name y) with
      | Gt => y :: insert_by_name x l'
      | _ => x :: l
      end
  end.

Definition sort_by_name (l : list t) : list t := foldr insert_by_name [] l.

(** [sort_children]: sort the children, then sort below each of them.  The
    recursion is written on the unsorted list; [sort_children_unfold] shows
    it is the order of the source. *)
Fixpoint sort_children (n : t) : t :=
  match n with
  | Node nm d ks => Node nm d (sort_by_name (map sort_children ks))
  end.

(** [max_depth(depth)] *)
Fixpoint max_depth (depth : Z) (n : t) : Z :=
  match n with
  | Node _ _ ks =>
      fold_left (λ m c, let d := max_depth (depth + 1) c in
                        if m <? d then d else m) ks depth
  end.

(** Every node of a tree, parents first. *)
Fixpoint nodes (n : t) : list t :=
  match n with
  | Node _ _ ks => n :: flat_map nodes ks
  end.

(** What [with_child] and [descend] do to a tree whose children are kept
    sorted: the child of that name is updated where it stands, a new one is
    put at its place in the order.  These two are not in the source; they
    state how the walk and the sort commute. *)
Fixpoint sorted_with_child (nm : string) (g : t → t) (l : list t) : list t :=
  match l with
  | [] => [g (new nm)]
  | y :: l' =>
      match String.compare nm (name y) with
      | Eq => g y :: l'
      | Lt => g (new nm) :: l
      | Gt => y :: sorted_with_child nm g l'
      end
  end.

Fixpoint sorted_descend (inc fin : D → D) (funcs : list string) (node : t) : t :=
  match funcs with
  | [] => upd fin node
  | func :: rest =>
      Node (name node) (data node)
        (sorted_with_child func
           (λ child, sorted_descend inc fin rest (upd inc child))
           (children node))
  end.

End Tree.

Arguments Node {D} name data children.
Arguments name {D} n.
Arguments data {D} n.
Arguments children {D} n.
Arguments new {D} zero nm.
Arguments upd {D} f n.
Arguments with_child {D} zero nm g ks.
Arguments descend {D} zero inc fin funcs node.
Arguments add_stack {D} zero inc fin funcs root.
Arguments insert_by_name {D} x l.
Arguments sort_by_name {D} l.
Arguments sort_children {D} n.
Arguments max_depth {D} depth n.
Arguments nodes {D} n.
Arguments sorted_with_child {D} zero nm g l.
Arguments sorted_descend {D} zero inc fin funcs node.

End Tree.

(** ** The line grammar shared by both parsers

    The body of the loop of [parse_folded] up to the computation of [count]
    is the same text in [flamegraph.py] (lines 61-76) and [flamediff.py]
    (lines 70-82).  [None] stands for [continue]. *)

Definition parse_line (line : string) : result (option (string * Z)) :=
  let line := Py.strip line in
  if String.eqb line "" || Py.startswith "#" line then Ok None else
  let idx := Py.rfind " " line in
  if idx <? 0 then Ok None else
  let stack_str := Py.slice_to idx line in
  count ← except_ValueError (Py.int (Py.slice_from (idx + 1) line)) (Ok 1);
  let count := if count <=? 0 then 1 else count in
  Ok (Some (stack_str, count)).

(** Shared rendering constants. *)
Definition FRAME_HEIGHT : Z := 16.
Definition FONT_SIZE : Z := 11.
Definition MIN_WIDTH_PX : Q := 1 # 10.
Definition CHAR_WIDTH : Q := 13 # 2.
Definition MARGIN : Z := 10.

(** The state of the process: what was printed on the error stream, what was
    written to the standard output, and the files written. *)
Record io := IO {
  stderr : list string;
  stdout : list string;
  written : list (string * list string)
}.

Definition io0 : io := IO [] [] [].

(** [print(msg, file=sys.stderr)] *)
Definition eprint (msg : string) (w : io) : io :=
  IO (stderr w ++ [msg]) (stdout w) (written w).

(** The exit status of the interpreter: [sys.exit(n)] gives [n], any other
    uncaught exception gives 1. *)
Definition exit_status {A} (r : result A) : Z :=
  match r with
  | Ok _ => 0
  | Raise (SystemExit n) => n
  | Raise _ => 1
  end.

(** ** flamegraph.py *)

Module Flamegraph.

Record counters := Counters { c_count : Z; c_self_count : Z }.

Definition Frame : Type := Tree.t counters.

Definition count (f : Frame) : Z := c_count (Tree.data f).
Definition self_count (f : Frame) : Z := c_self_count (Tree.data f).

(** [Frame(name)] *)
Definition new_Frame (name : string) : Frame := Tree.new (Counters 0 0) name.

(** [node.count += count] and [node.self_count += count] *)
Definition add_count (n : Z) (d : counters) : counters :=
  Counters (c_count d + n) (c_self_count d).
Definition add_self_count (n : Z) (d : counters) : counters :=
  Counters (c_count d) (c_self_count d + n).

Definition sort_children : Frame → Frame := Tree.sort_children.
Definition max_depth (f : Frame) : Z := Tree.max_depth 0 f.

(** One turn of the loop of [parse_folded]. *)
Definition parse_folded_step (st : Frame * Z) (line : string)
    : result (Frame * Z) :=
  let '(root, total) := st in
  parsed ← parse_line line;
  match parsed with
  | None => Ok (root, total)
  | Some (stack_str, count) =>
      let total := total + count in
      let funcs := Py.split ";" stack_str in
      Ok (Tree.add_stack (Counters 0 0) (add_count count)
            (add_self_count count) funcs root, total)
  end.

Definition parse_folded (lines : list string) : result (Frame * Z) :=
  Py.for_each parse_folded_step lines (new_Frame "root", 0).

Definition xml_escape (s : string) : string :=
  Py.replace "034" "&quot;"
    (Py.replace ">" "&gt;" (Py.replace "<" "&lt;" (Py.replace "&" "&amp;" s))).

Section Render.

(** [int(hashlib.md5(name.encode()).hexdigest()[:8], 16)] *)
Variable md5_hex8 : string → Z.
(** The format specification [.1f]. *)
Variable fmt1 : Q → string.
(** The interaction script, an opaque constant of the source. *)
Variable SVG_JAVASCRIPT : string.

Definition name_to_color (name : string) : Z * Z * Z :=
  let h := md5_hex8 name in
  let hue := h mod 60 in
  let sat := 160 + (h ≫ 8) mod 55 in
  let val := 200 + (h ≫ 16) mod 56 in
  let hf := (inject_Z hue / 60)%Q in
  let s := (inject_Z sat / 255)%Q in
  let v := (inject_Z val / 255)%Q in
  let c := (v * s)%Q in
  let x := (c * (1 - Qabs (if Qle_bool hf 1 then hf else hf - 1)))%Q in
  let m := (v - c)%Q in
  let '(rf, gf, bf) := if Py.ltb hf 1 then (c, x, 0%Q) else (x, c, 0%Q) in
  (Py.trunc ((rf + m) * 255), Py.trunc ((gf + m) * 255),
   Py.trunc ((bf + m) * 55 + 30)).

(** The colour of [render_frame], lines 144-147. *)
Definition frame_color (depth : Z) (frame : Frame) : Z * Z * Z :=
  if depth =? 0 then (200, 200, 200) else name_to_color (Tree.name frame).

(** [fill="rgb({r},{g},{b})"] *)
Definition rgb (c : Z * Z * Z) : string :=
  let '(r, g, b) := c in
  "rgb(" +:+ pretty r +:+ "," +:+ pretty g +:+ "," +:+ pretty b +:+ ")".

(** The width [render_frame] gives to a child, line 184:
    [x_width * (child.count / frame.count)].  The quotient of the two
    integers is rounded once, the product once more; [x_width] is a float,
    or the integer width of the root, which is converted first. *)
Definition child_w (x_width : Q) (frame child : Frame) : Q :=
  if count frame >? 0
  then Float64.fl
         (Float64.fl x_width
          * Float64.fl (inject_Z (count child) / inject_Z (count frame)))
  else 0%Q.

(** The [<text>] element of a label, lines 168-170 and 175-177. *)
Definition text_label (x_left : Q) (y : Z) (label : string) : string :=
  Py.markup "<text x='" +:+ fmt1 (x_left + 3) +:+
  Py.markup "' y='" +:+ fmt1 (inject_Z (y + FRAME_HEIGHT - 4)) +:+
  Py.markup "' font-size='" +:+ pretty FONT_SIZE +:+
  Py.markup "' font-family='monospace' fill='#000'>" +:+
  label +:+ "</text>" +:+ Py.nl.

(** What one frame writes before its children are rendered,
    lines 157-179. *)
Definition frame_markup (frame : Frame) (depth : Z) (x_left x_width : Q)
    (svg_height total frame_id_counter : Z) : list string :=
  let name := Tree.name frame in
  let y := svg_height - 30 - (depth + 1) * FRAME_HEIGHT in
  let color := frame_color depth frame in
  let pct :=
    if total >? 0 then (100 * inject_Z (count frame) / inject_Z total)%Q
    else 0%Q in
  let self_pct :=
    if total >? 0 then (100 * inject_Z (self_count frame) / inject_Z total)%Q
    else 0%Q in
  let escaped_name := xml_escape name in
  let fid := "f" +:+ pretty frame_id_counter in
  let text_width := (inject_Z (Py.len name) * CHAR_WIDTH)%Q in
  [ Py.markup "<g id='" +:+ fid +:+ Py.markup "' class='fg'>" +:+ Py.nl;
    "<title>" +:+ escaped_name +:+ " (" +:+ pretty (count frame) +:+
      " samples, " +:+ fmt1 pct +:+ "%" +:+
      (if self_count frame >? 0 then ", self: " +:+ fmt1 self_pct +:+ "%"
       else "") +:+ ")</title>" +:+ Py.nl;
    Py.markup "<rect x='" +:+ fmt1 x_left +:+
      Py.markup "' y='" +:+ fmt1 (inject_Z y) +:+
      Py.markup "' width='" +:+ fmt1 x_width +:+
      Py.markup "' height='" +:+ pretty (FRAME_HEIGHT - 1) +:+
      Py.markup "' fill='" +:+ rgb color +:+
      Py.markup "' rx='1' ry='1' class='frame' data-name='" +:+
      escaped_name +:+ Py.markup "' />" +:+ Py.nl ]
  ++ (if Py.ltb (text_width + 6) x_width then
        [text_label x_left y escaped_name]
      else if Py.ltb 20 x_width then
        let max_chars := Py.trunc ((x_width - 6) / CHAR_WIDTH) in
        if max_chars >? 0 then
          let trunc := xml_escape (Py.slice_to max_chars name) in
          [text_label x_left y (trunc +:+ "..")]
        else []
      else [])
  ++ ["</g>" +:+ Py.nl].

(** [render_frame]: the writes are appended to [out], the result is the
    output and the next frame id. *)
Fixpoint render_frame (out : list string) (frame : Frame) (depth : Z)
    (x_left x_width : Q) (svg_height total frame_id_counter : Z)
    : list string * Z :=
  if Py.ltb x_width MIN_WIDTH_PX then (out, frame_id_counter) else
  let out :=
    out ++ frame_markup frame depth x_left x_width svg_height total
             frame_id_counter in
  let frame_id_counter := frame_id_counter + 1 in
  match frame with
  | Tree.Node _ _ children =>
      let '(out, _, frame_id_counter) :=
        fold_left
          (λ '(out, child_x, frame_id_counter) child,
             let w := child_w x_width frame child in
             let '(out, frame_id_counter) :=
               render_frame out child (depth + 1) child_x w svg_height total
                 frame_id_counter in
             (out, Float64.fl (child_x + w), frame_id_counter))
          children (out, x_left, frame_id_counter) in
      (out, frame_id_counter)
  end.


(** The frames [render_frame] writes, in the order it writes them, each with
    the depth, the left edge and the width it is rendered with.  This is the
    geometry of the recursion of [render_frame] (the threshold test and
    lines 182-187) without the output; [render_frame_layout] relates the
    two. *)
Fixpoint layout (frame : Frame) (depth : Z) (x_left x_width : Q)
    : list (Frame * Z * Q * Q) :=
  if Py.ltb x_width MIN_WIDTH_PX then [] else
  match frame with
  | Tree.Node _ _ children =>
      (frame, depth, x_left, x_width) ::
      (fix below (ks : list Frame) (child_x : Q) : list (Frame * Z * Q * Q) :=
         match ks with
         | [] => []
         | child :: ks' =>
             let w := child_w x_width frame child in
             layout child (depth + 1) child_x w ++ below ks'
               (Float64.fl (child_x + w))
         end) children x_left
  end.

(** The writes of a list of rendered frames, numbered from [fid]. *)
Fixpoint markups (l : list (Frame * Z * Q * Q)) (svg_height total fid : Z)
    : list string :=
  match l with
  | [] => []
  | (frame, depth, x_left, x_width) :: l' =>
      frame_markup frame depth x_left x_width svg_height total fid
      ++ markups l' svg_height total (fid + 1)
  end.

(** The sum of the widths [render_frame] gives to the children of a frame
    rendered with width [x_width]. *)
Definition sum_child_w (x_width : Q) (frame : Frame) : Q :=
  foldr (λ child acc, (child_w x_width frame child + acc)%Q) 0%Q
    (Tree.children frame).

Definition render_svg (out : list string) (root : Frame) (total : Z)
    (title : string) (width : Z) : list string :=
  let root := sort_children root in
  let depth := max_depth root in
  let height := (depth + 2) * FRAME_HEIGHT + 80 in
  let out := out ++
    [ Py.markup "<?xml version='1.0' standalone='no'?>" +:+ Py.nl;
      Py.markup "<svg xmlns='http://www.w3.org/2000/svg' width='" +:+
        pretty width +:+ Py.markup "' height='" +:+ pretty height +:+
        Py.markup "' viewBox='0 0 " +:+ pretty width +:+ " " +:+
        pretty height +:+ Py.markup "'>" +:+ Py.nl;
      Py.markup "<rect width='100%' height='100%' fill='#f8f8f8' />" +:+
        Py.nl;
      Py.markup "<text x='" +:+ pretty (width `div` 2) +:+
        Py.markup "' y='20' font-size='16' font-family='sans-serif' " +:+
        Py.markup "text-anchor='middle' fill='#333'>" +:+
        xml_escape title +:+ "</text>" +:+ Py.nl;
      Py.markup "<text x='" +:+ pretty (width `div` 2) +:+
        Py.markup "' y='36' font-size='11' font-family='sans-serif' " +:+
        Py.markup "text-anchor='middle' fill='#888'>" +:+ pretty total +:+
        " samples. Click to focus, Ctrl+F to search, Esc to reset.</text>" +:+
        Py.nl;
      Py.markup "<text id='reset-btn' x='" +:+ pretty (width - 60) +:+
        Py.markup "' y='20' font-size='11' " +:+
        Py.markup "font-family='sans-serif' fill='#4477cc'>[Reset]</text>" +:+
        Py.nl;
      Py.markup "<text id='search-match' x='4' y='" +:+
        pretty (height - 22) +:+ Py.markup "' font-size='11' " +:+
        Py.markup "font-family='monospace' fill='#cc4444'></text>" +:+ Py.nl;
      Py.markup "<text id='details' x='4' y='" +:+ pretty (height - 6) +:+
        Py.markup "' font-size='11' " +:+
        Py.markup "font-family='monospace' fill='#333'></text>" +:+ Py.nl ] in
  let '(out, _) :=
    render_frame out root 0 (inject_Z MARGIN) (inject_Z (width - 2 * MARGIN))
      height total 0 in
  out ++ [SVG_JAVASCRIPT; "</svg>" +:+ Py.nl].

(** The parsed command line and the files the process can read:
    [readlines()] of a path, [None] when it cannot be opened. *)
Record args := Args {
  input : option string;
  output : option string;
  title : string;
  width : Z
}.

Record world := World {
  stdin : list string;
  files : string → option (list string)
}.

(** [main]: the final state of the streams and how the process ended.
    The runs modelled are those in which the output file can be opened and
    the rendering runs to its end: an output path that cannot be written, a
    count too large for a float ([OverflowError]) and a call path deeper
    than the recursion limit end the source with a traceback instead. *)
Definition main (a : args) (w : world) : io * result unit :=
  let read :=
    if Py.truthy (input a) then
      match files w (default "" (input a)) with
      | Some lines => Ok lines
      | None => Raise OSError
      end
    else Ok (stdin w) in
  match read with
  | Raise e => (io0, Raise e)
  | Ok lines =>
      if bool_decide (lines = []) then
        (eprint "flamegraph.py: no input" io0, Raise (SystemExit 1))
      else
        match parse_folded lines with
        | Raise e => (io0, Raise e)
        | Ok (root, total) =>
            if total =? 0 then
              (eprint "flamegraph.py: no samples found in input" io0,
               Raise (SystemExit 1))
            else
              let p := eprint ("flamegraph.py: " +:+ pretty total +:+
                               " samples, generating SVG...") io0 in
              let svg := render_svg [] root total (title a) (width a) in
              let p :=
                if Py.truthy (output a) then
                  IO (stderr p) (stdout p)
                     (written p ++ [(default "" (output a), svg)])
                else IO (stderr p) (stdout p ++ svg) (written p) in
              (eprint "flamegraph.py: done" p, Ok ())
        end
  end.

End Render.
End Flamegraph.

(** ** flamediff.py *)

Module Flamediff.

Record counters := Counters {
  c_count_a : Z;
  c_count_b : Z;
  c_self_a : Z;
  c_self_b : Z
}.

Definition DiffFrame : Type := Tree.t counters.

Definition count_a (f : DiffFrame) : Z := c_count_a (Tree.data f).
Definition count_b (f : DiffFrame) : Z := c_count_b (Tree.data f).
Definition self_a (f : DiffFrame) : Z := c_self_a (Tree.data f).
Definition self_b (f : DiffFrame) : Z := c_self_b (Tree.data f).

(** The properties [count] and [delta]. *)
Definition count (f : DiffFrame) : Z := Z.max (count_a f) (count_b f).
Definition delta (f : DiffFrame) : Z := count_b f - count_a f.

Definition zero : counters := Counters 0 0 0 0.

(** [DiffFrame(name)] *)
Definition new_DiffFrame (name : string) : DiffFrame := Tree.new zero name.

(** [node.count_a += count_a; node.count_b += count_b] and
    [node.self_a += count_a; node.self_b += count_b] *)
Definition add_counts (a b : Z) (d : counters) : counters :=
  Counters (c_count_a d + a) (c_count_b d + b) (c_self_a d) (c_self_b d).
Definition add_selfs (a b : Z) (d : counters) : counters :=
  Counters (c_count_a d) (c_count_b d) (c_self_a d + a) (c_self_b d + b).

Definition sort_children : DiffFrame → DiffFrame := Tree.sort_children.
Definition max_depth (f : DiffFrame) : Z := Tree.max_depth 0 f.

(** [stacks.get(stack_str, 0)], also the read of a [defaultdict(int)]. *)
Definition get (stacks : gmap string Z) (stack_str : string) : Z :=
  default 0 (stacks !! stack_str).

(** One turn of the loop of [parse_folded]. *)
Definition parse_folded_step (st : gmap string Z * Z) (line : string)
    : result (gmap string Z * Z) :=
  let '(stacks, total) := st in
  parsed ← parse_line line;
  match parsed with
  | None => Ok (stacks, total)
  | Some (stack_str, count) =>
      Ok (<[stack_str := get stacks stack_str + count]> stacks, total + count)
  end.

Definition parse_folded (lines : list string) : result (gmap string Z * Z) :=
  Py.for_each parse_folded_step lines (∅, 0).

(** [all_stacks = set(stacks_a.keys()) | set(stacks_b.keys())] is iterated in
    an order the language does not fix: [all_stacks] is any duplicate-free
    enumeration of that set. *)
Definition set_order (all_stacks : list string) (stacks_a stacks_b : gmap string Z)
    : Prop :=
  NoDup all_stacks ∧
  ∀ k, k ∈ all_stacks ↔ k ∈ dom stacks_a ∪ dom stacks_b.

Definition build_diff_tree (all_stacks : list string)
    (stacks_a : gmap string Z) (total_a : Z)
    (stacks_b : gmap string Z) (total_b : Z) : DiffFrame :=
  fold_left
    (λ root stack_str,
       let count_a := get stacks_a stack_str in
       let count_b := get stacks_b stack_str in
       let funcs := Py.split ";" stack_str in
       Tree.add_stack zero (add_counts count_a count_b)
         (add_selfs count_a count_b) funcs root)
    all_stacks (new_DiffFrame "root").

Definition delta_color (count_a count_b total_a total_b : Z) : Z * Z * Z :=
  if (total_a =? 0) && (total_b =? 0) then (200, 200, 200) else
  let rate_a :=
    if total_a >? 0 then (inject_Z count_a / inject_Z total_a)%Q else 0%Q in
  let rate_b :=
    if total_b >? 0 then (inject_Z count_b / inject_Z total_b)%Q else 0%Q in
  let diff := (rate_b - rate_a)%Q in
  if Py.ltb (Qabs diff) (1 # 1000) then (200, 200, 200) else
  let intensity := Qmin (Qabs diff / (3 # 10)) 1 in
  let '(r, g, b) :=
    if Py.ltb 0 diff then
      (200 + Py.trunc (55 * intensity),
       200 - Py.trunc (140 * intensity),
       200 - Py.trunc (140 * intensity))
    else
      (200 - Py.trunc (140 * intensity),
       200 - Py.trunc (80 * intensity),
       200 + Py.trunc (55 * intensity)) in
  (Z.max 0 (Z.min 255 r), Z.max 0 (Z.min 255 g), Z.max 0 (Z.min 255 b)).

Definition xml_escape (s : string) : string :=
  Py.replace "034" "&quot;"
    (Py.replace ">" "&gt;" (Py.replace "<" "&lt;" (Py.replace "&" "&amp;" s))).

Section Render.

(** The format specification [.1f]. *)
Variable fmt1 : Q → string.
(** The interaction script, an opaque constant of the source. *)
Variable DIFF_JAVASCRIPT : string.
(** The usage line [argparse] prints before an error. *)
Variable usage : string.

(** The colour of [render_diff_frame], lines 183-186. *)
Definition frame_color (depth : Z) (frame : DiffFrame) (total_a total_b : Z)
    : Z * Z * Z :=
  if depth =? 0 then (200, 200, 200)
  else delta_color (count_a frame) (count_b frame) total_a total_b.

Definition rgb (c : Z * Z * Z) : string :=
  let '(r, g, b) := c in
  "rgb(" +:+ pretty r +:+ "," +:+ pretty g +:+ "," +:+ pretty b +:+ ")".

(** The width [render_diff_frame] gives to a child, lines 226-228, with
    the two roundings of [x_width * (child.count / parent_count)]. *)
Definition child_w (x_width : Q) (frame child : DiffFrame) : Q :=
  let parent_count := if count frame >? 0 then count frame else 1 in
  Float64.fl
    (Float64.fl x_width
     * Float64.fl (inject_Z (count child) / inject_Z parent_count)).

Definition text_label (x_left : Q) (y : Z) (label : string) : string :=
  Py.markup "<text x='" +:+ fmt1 (x_left + 3) +:+
  Py.markup "' y='" +:+ fmt1 (inject_Z (y + FRAME_HEIGHT - 4)) +:+
  Py.markup "' font-size='" +:+ pretty FONT_SIZE +:+
  Py.markup "' font-family='monospace' fill='#000'>" +:+
  label +:+ "</text>" +:+ Py.nl.

(** What one frame writes before its children are rendered,
    lines 199-222. *)
Definition frame_markup (frame : DiffFrame) (depth : Z) (x_left x_width : Q)
    (svg_height total_a total_b fid_counter : Z) : list string :=
  let name := Tree.name frame in
  let y := svg_height - 30 - (depth + 1) * FRAME_HEIGHT in
  let color := frame_color depth frame total_a total_b in
  let escaped_name := xml_escape name in
  let rate_a :=
    if total_a >? 0 then (100 * inject_Z (count_a frame) / inject_Z total_a)%Q
    else 0%Q in
  let rate_b :=
    if total_b >? 0 then (100 * inject_Z (count_b frame) / inject_Z total_b)%Q
    else 0%Q in
  let diff_pct := (rate_b - rate_a)%Q in
  let fid := "d" +:+ pretty fid_counter in
  let sign := if Qle_bool 0 diff_pct then "+" else "" in
  let text_width := (inject_Z (Py.len name) * CHAR_WIDTH)%Q in
  [ Py.markup "<g id='" +:+ fid +:+ Py.markup "' class='fg'>" +:+ Py.nl;
    "<title>" +:+ escaped_name +:+ " (before: " +:+ pretty (count_a frame) +:+
      " [" +:+ fmt1 rate_a +:+ "%], after: " +:+ pretty (count_b frame) +:+
      " [" +:+ fmt1 rate_b +:+ "%], delta: " +:+ sign +:+ fmt1 diff_pct +:+
      "%)</title>" +:+ Py.nl;
    Py.markup "<rect x='" +:+ fmt1 x_left +:+
      Py.markup "' y='" +:+ fmt1 (inject_Z y) +:+
      Py.markup "' width='" +:+ fmt1 x_width +:+
      Py.markup "' height='" +:+ pretty (FRAME_HEIGHT - 1) +:+
      Py.markup "' fill='" +:+ rgb color +:+
      Py.markup "' rx='1' ry='1' class='frame' data-name='" +:+
      escaped_name +:+ Py.markup "' />" +:+ Py.nl ]
  ++ (if Py.ltb (text_width + 6) x_width then
        [text_label x_left y escaped_name]
      else if Py.ltb 20 x_width then
        let max_chars := Py.trunc ((x_width - 6) / CHAR_WIDTH) in
        if max_chars >? 0 then
          let trunc := xml_escape (Py.slice_to max_chars name) in
          [text_label x_left y (trunc +:+ "..")]
        else []
      else [])
  ++ ["</g>" +:+ Py.nl].

Fixpoint render_diff_frame (out : list string) (frame : DiffFrame) (depth : Z)
    (x_left x_width : Q) (svg_height total_a total_b max_count fid_counter : Z)
    : list string * Z :=
  if Py.ltb x_width MIN_WIDTH_PX then (out, fid_counter) else
  let out :=
    out ++ frame_markup frame depth x_left x_width svg_height total_a total_b
             fid_counter in
  let fid_counter := fid_counter + 1 in
  match frame with
  | Tree.Node _ _ children =>
      let '(out, _, fid_counter) :=
        fold_left
          (λ '(out, child_x, fid_counter) child,
             let w := child_w x_width frame child in
             let '(out, fid_counter) :=
               render_diff_frame out child (depth + 1) child_x w svg_height
                 total_a total_b max_count fid_counter in
             (out, Float64.fl (child_x + w), fid_counter))
          children (out, x_left, fid_counter) in
      (out, fid_counter)
  end.

Definition render_diff_svg (out : list string) (root : DiffFrame)
    (total_a total_b : Z) (title : string) (width : Z) : list string :=
  let root := sort_children root in
  let depth := max_depth root in
  let height := (depth + 2) * FRAME_HEIGHT + 100 in
  let max_count := Z.max (Z.max (count_a root) (count_b root)) 1 in
  let legend_y := 52 in
  let out := out ++
    [ Py.markup "<?xml version='1.0' standalone='no'?>" +:+ Py.nl;
      Py.markup "<svg xmlns='http://www.w3.org/2000/svg' width='" +:+
        pretty width +:+ Py.markup "' height='" +:+ pretty height +:+
        Py.markup "' viewBox='0 0 " +:+ pretty width +:+ " " +:+
        pretty height +:+ Py.markup "'>" +:+ Py.nl;
      Py.markup "<rect width='100%' height='100%' fill='#f8f8f8' />" +:+
        Py.nl;
      Py.markup "<text x='" +:+ pretty (width `div` 2) +:+
        Py.markup "' y='20' font-size='16' font-family='sans-serif' " +:+
        Py.markup "text-anchor='middle' fill='#333'>" +:+
        xml_escape title +:+ "</text>" +:+ Py.nl;
      Py.markup "<text x='" +:+ pretty (width `div` 2) +:+
        Py.markup "' y='36' font-size='11' font-family='sans-serif' " +:+
        Py.markup "text-anchor='middle' fill='#888'>Before: " +:+
        pretty total_a +:+ " samples, After: " +:+ pretty total_b +:+
        " samples. Ctrl+F to search.</text>" +:+ Py.nl;
      Py.markup "<rect x='" +:+ pretty (width `div` 2 - 160) +:+
        Py.markup "' y='" +:+ pretty (legend_y - 10) +:+
        Py.markup "' width='16' height='12' " +:+
        Py.markup "fill='rgb(100,120,255)' rx='2' />" +:+ Py.nl;
      Py.markup "<text x='" +:+ pretty (width `div` 2 - 140) +:+
        Py.markup "' y='" +:+ pretty legend_y +:+
        Py.markup "' font-size='11' " +:+
        Py.markup "font-family='sans-serif' fill='#333'>" +:+
        "Improvement (less CPU)</text>" +:+ Py.nl;
      Py.markup "<rect x='" +:+ pretty (width `div` 2 + 40) +:+
        Py.markup "' y='" +:+ pretty (legend_y - 10) +:+
        Py.markup "' width='16' height='12' " +:+
        Py.markup "fill='rgb(255,80,80)' rx='2' />" +:+ Py.nl;
      Py.markup "<text x='" +:+ pretty (width `div` 2 + 60) +:+
        Py.markup "' y='" +:+ pretty legend_y +:+
        Py.markup "' font-size='11' " +:+
        Py.markup "font-family='sans-serif' fill='#333'>" +:+
        "Regression (more CPU)</text>" +:+ Py.nl;
      Py.markup "<text id='details' x='4' y='" +:+ pretty (height - 6) +:+
        Py.markup "' font-size='11' " +:+
        Py.markup "font-family='monospace' fill='#333'></text>" +:+ Py.nl ] in
  let '(out, _) :=
    render_diff_frame out root 0 (inject_Z MARGIN)
      (inject_Z (width - 2 * MARGIN)) height total_a total_b max_count 0 in
  out ++ [DIFF_JAVASCRIPT; "</svg>" +:+ Py.nl].

Record args := Args {
  a_files : list string;
  before : option string;
  after : option string;
  output : option string;
  title : string;
  width : Z
}.

(** [readlines()] of a path, [None] when it cannot be opened. *)
Definition world : Type := string → option (list string).

(** [parser.error(message)] of [argparse]: the usage line and the message go
    to the error stream and the process exits with status 2. *)
Definition parser_error (message : string) (p : io) : io * result unit :=
  (eprint ("flamediff.py: error: " +:+ message) (eprint usage p),
   Raise (SystemExit 2)).

(** The resolution of the two input files, lines 343-350. *)
Definition resolve (a : args) : option string * option string :=
  let before_file := before a in
  let after_file := after a in
  match a_files a with
  | f0 :: f1 :: _ =>
      (Py.or_else before_file (Some f0), Py.or_else after_file (Some f1))
  | [f0] => (Py.or_else before_file (Some f0), after_file)
  | [] => (before_file, after_file)
  end.

(** [with open(path) as f: parse_folded(f.readlines())] *)
Definition read_profile (w : world) (path : string)
    : result (gmap string Z * Z) :=
  match w path with
  | Some lines => parse_folded lines
  | None => Raise OSError
  end.

(** [main]: the final state of the streams and how the process ended.
    [all_stacks] is the order in which [build_diff_tree] iterates its set.
    As for the single-profile tool, the runs modelled are those in which the
    output file can be opened and the rendering runs to its end. *)
Definition main (all_stacks : list string) (a : args) (w : world)
    : io * result unit :=
  let '(before_file, after_file) := resolve a in
  if negb (Py.truthy before_file) || negb (Py.truthy after_file) then
    parser_error "Need two input files: before.folded after.folded" io0
  else
    let before_file := default "" before_file in
    let after_file := default "" after_file in
    match read_profile w before_file with
    | Raise e => (io0, Raise e)
    | Ok (stacks_a, total_a) =>
        match read_profile w after_file with
        | Raise e => (io0, Raise e)
        | Ok (stacks_b, total_b) =>
            if total_a =? 0 then
              (eprint ("flamediff.py: no samples in " +:+ before_file) io0,
               Raise (SystemExit 1))
            else if total_b =? 0 then
              (eprint ("flamediff.py: no samples in " +:+ after_file) io0,
               Raise (SystemExit 1))
            else
              let p := eprint ("flamediff.py: before=" +:+ pretty total_a +:+
                               " samples, after=" +:+ pretty total_b +:+
                               " samples") io0 in
              let root :=
                build_diff_tree all_stacks stacks_a total_a stacks_b total_b in
              let svg :=
                render_diff_svg [] root total_a total_b (title a) (width a) in
              let p :=
                if Py.truthy (output a) then
                  IO (stderr p) (stdout p)
                     (written p ++ [(default "" (output a), svg)])
                else IO (stderr p) (stdout p ++ svg) (written p) in
              (eprint "flamediff.py: done" p, Ok ())
        end
    end.

End Render.
End Flamediff.

(** * Properties *)

(** ** Python primitives on examples *)

Example int_examples :
  Py.int "42" = Ok 42 ∧ Py.int "-7" = Ok (-7) ∧ Py.int "1_0" = Ok 10 ∧
  Py.int "007" = Ok 7 ∧ Py.int "1__0" = Raise ValueError ∧
  Py.int "abc" = Raise ValueError ∧ Py.int "" = Raise ValueError.
Proof. repeat split; reflexivity. Qed.

Example split_examples :
  Py.split ";" "a;b;c" = ["a"; "b"; "c"] ∧ Py.split ";" "" = [""] ∧
  Py.split ";" "a;;b" = ["a"; ""; "b"] ∧ Py.rfind " " "a b 3" = 3 ∧
  Py.rfind " " "ab" = -1.
Proof. repeat split; reflexivity. Qed.

(** ** Order on names: the order of [list.sort(key=lambda f: f.name)] *)

Lemma compare_refl (s : string) : String.compare s s = Eq.
Proof.
  induction s as [|a s IH]; simpl; [done|].
  unfold Ascii.compare. by rewrite N.compare_refl.
Qed.

Lemma compare_lt_trans (a b c : string) :
  String.compare a b = Lt → String.compare b c = Lt → String.compare a c = Lt.
Proof.
  revert b c. induction a as [|x a IH]; intros [|y b] [|z c]; simpl; try done.
  destruct (Ascii.compare x y) eqn:Hxy; try done.
  - apply Ascii.compare_eq_iff in Hxy as ->.
    destruct (Ascii.compare y z); try done. apply IH.
  - destruct (Ascii.compare y z) eqn:Hyz; try done.
    + apply Ascii.compare_eq_iff in Hyz as <-. by rewrite Hxy.
    + intros _ _. unfold Ascii.compare in *.
      by rewrite (N.lt_trans _ _ _ Hxy Hyz : (_ ?= _)%N = Lt).
Qed.

Lemma compare_gt_lt (a b : string) :
  String.compare a b = Gt ↔ String.compare b a = Lt.
Proof.
  rewrite (String.compare_antisym a b).
  destruct (String.compare b a); simpl; split; congruence.
Qed.

Lemma compare_gt_trans (a b c : string) :
  String.compare a b = Gt → String.compare b c = Gt → String.compare a c = Gt.
Proof.
  rewrite !compare_gt_lt. intros Hba Hcb. by apply (compare_lt_trans c b a).
Qed.

Lemma compare_eq (a b : string) : String.compare a b = Eq ↔ a = b.
Proof.
  split; [apply String.compare_eq_iff|]. intros ->. apply compare_refl.
Qed.

Lemma compare_lt_irrefl (a : string) : String.compare a a ≠ Lt.
Proof. by rewrite compare_refl. Qed.

(** Closes a goal whose hypotheses about [String.compare] are contradictory,
    or decide the comparison in the goal. *)
Ltac cmp_norm :=
  repeat match goal with
    | H : String.compare _ _ = Gt |- _ => apply compare_gt_lt in H
    | H : String.compare _ _ = Eq |- _ => apply String.compare_eq_iff in H
    end.

Ltac cmp_subst :=
  repeat match goal with
    | H : @eq string ?a ?b |- _ =>
        first [ subst a | subst b | rewrite H in *; clear H | clear H ]
    end.

Ltac cmp_absurd :=
  cmp_norm; exfalso; cmp_subst;
  match goal with
  | H : ?a ≠ ?a |- _ => exact (H eq_refl)
  | H : String.compare ?a ?a = Lt |- _ => exact (compare_lt_irrefl a H)
  | H1 : String.compare ?a ?b = Lt, H2 : String.compare ?b ?a = Lt |- _ =>
      exact (compare_lt_irrefl a (compare_lt_trans a b a H1 H2))
  | H1 : String.compare ?a ?b = Lt, H2 : String.compare ?b ?c = Lt,
    H3 : String.compare ?c ?a = Lt |- _ =>
      exact (compare_lt_irrefl a
               (compare_lt_trans a c a (compare_lt_trans a b c H1 H2) H3))
  end.

Lemma split_nonempty (sep : ascii) (s : string) : Py.split sep s ≠ [].
Proof.
  destruct s as [|c s]; simpl; [done|].
  destruct (Ascii.eqb c sep); [done|]. by destruct (Py.split sep s).
Qed.

(** A loop whose turns commute does not depend on the order of its input. *)
Lemma fold_left_comm_perm {A S : Type} (f : S → A → S) (l l' : list A) (s : S) :
  (∀ s x y, f (f s x) y = f (f s y) x) →
  l ≡ₚ l' → fold_left f l s = fold_left f l' s.
Proof.
  intros Hf Hp. revert s.
  induction Hp as [|x l l' _ IH|x y l|l1 l2 l3 _ IH1 _ IH2]; intros s; simpl.
  - done.
  - apply IH.
  - by rewrite Hf.
  - by rewrite IH1, IH2.
Qed.

(** ** Call trees: walking and sorting *)

Section TreeFacts.
Context {D : Type} (zero : D).
Implicit Types (n : Tree.t D) (l ks : list (Tree.t D)) (g h : Tree.t D → Tree.t D).
Implicit Types (inc fin f : D → D) (funcs : list string) (nm : string).

Lemma name_descend inc fin funcs n :
  Tree.name (Tree.descend zero inc fin funcs n) = Tree.name n.
Proof. by destruct funcs, n. Qed.

Lemma name_sorted_descend inc fin funcs n :
  Tree.name (Tree.sorted_descend zero inc fin funcs n) = Tree.name n.
Proof. by destruct funcs, n. Qed.

Lemma data_descend_cons inc fin func rest n :
  Tree.data (Tree.descend zero inc fin (func :: rest) n) = Tree.data n.
Proof. done. Qed.

Lemma data_add_stack inc fin funcs root :
  funcs ≠ [] →
  Tree.data (Tree.add_stack zero inc fin funcs root) = inc (Tree.data root).
Proof. by destruct funcs. Qed.

Lemma name_sort_children n : Tree.name (Tree.sort_children n) = Tree.name n.
Proof. by destruct n. Qed.

Lemma sort_children_upd f n :
  Tree.sort_children (Tree.upd f n) = Tree.upd f (Tree.sort_children n).
Proof. by destruct n. Qed.

(** *** Insertion into the sorted list against the update of a child *)

Lemma insert_with_same g k l :
  Tree.name (g k) = Tree.name k →
  Tree.sorted_with_child zero (Tree.name k) g (Tree.insert_by_name k l)
  = Tree.insert_by_name (g k) l.
Proof.
  intros Hg. induction l as [|y l IH]; simpl.
  - by rewrite compare_refl.
  - rewrite Hg. destruct (String.compare (Tree.name k) (Tree.name y)) eqn:E;
      simpl; rewrite ?compare_refl, ?E; [done..|]. by rewrite IH.
Qed.

Lemma insert_with_other nm g k l :
  Tree.name k ≠ nm → (∀ x, Tree.name (g x) = Tree.name x) →
  Tree.insert_by_name k (Tree.sorted_with_child zero nm g l)
  = Tree.sorted_with_child zero nm g (Tree.insert_by_name k l).
Proof.
  intros Hne Hg. induction l as [|y l IH]; cbn [Tree.insert_by_name Tree.sorted_with_child].
  - rewrite Hg. cbn [Tree.name Tree.new Tree.insert_by_name].
    destruct (String.compare (Tree.name k) nm) eqn:E1;
      destruct (String.compare nm (Tree.name k)) eqn:E2;
      first [reflexivity | cmp_absurd].
  - destruct (String.compare nm (Tree.name y)) eqn:E1;
      destruct (String.compare (Tree.name k) (Tree.name y)) eqn:E2;
      cbn [Tree.insert_by_name Tree.sorted_with_child];
      rewrite ?Hg; cbn [Tree.name Tree.new]; rewrite ?E1, ?E2, ?IH;
      try reflexivity;
      destruct (String.compare (Tree.name k) nm) eqn:E3;
      try reflexivity;
      try (destruct (String.compare nm (Tree.name k)) eqn:E4; try reflexivity);
      rewrite ?E1; first [reflexivity | cmp_absurd].
Qed.

Lemma sort_with_child nm g ks :
  (∀ x, Tree.name (g x) = Tree.name x) →
  Tree.sort_by_name (Tree.with_child zero nm g ks)
  = Tree.sorted_with_child zero nm g (Tree.sort_by_name ks).
Proof.
  intros Hg. induction ks as [|k ks IH]; simpl; [done|].
  destruct (String.eqb_spec (Tree.name k) nm) as [<-|Hne]; simpl.
  - by rewrite insert_with_same.
  - by rewrite IH, insert_with_other.
Qed.

Lemma map_with_child h g g' nm ks :
  (∀ x, Tree.name (h x) = Tree.name x) → (∀ x, h (g x) = g' (h x)) →
  h (Tree.new zero nm) = Tree.new zero nm →
  map h (Tree.with_child zero nm g ks) = Tree.with_child zero nm g' (map h ks).
Proof.
  intros Hh Hg Hnew. induction ks as [|k ks IH]; simpl.
  - by rewrite Hg, Hnew.
  - rewrite Hh. destruct (String.eqb (Tree.name k) nm); simpl;
      by rewrite ?Hg, ?IH.
Qed.

Lemma insert_map h x l :
  (∀ y, Tree.name (h y) = Tree.name y) →
  Tree.insert_by_name (h x) (map h l) = map h (Tree.insert_by_name x l).
Proof.
  intros Hh. induction l as [|y l IH]; simpl; [done|]. rewrite !Hh.
  destruct (String.compare (Tree.name x) (Tree.name y)); simpl;
    by rewrite ?IH.
Qed.

Lemma sort_map h l :
  (∀ y, Tree.name (h y) = Tree.name y) →
  Tree.sort_by_name (map h l) = map h (Tree.sort_by_name l).
Proof.
  intros Hh. induction l as [|y l IH]; simpl; [done|].
  by rewrite IH, insert_map.
Qed.

(** The source sorts the children and then sorts below each of them. *)
Lemma sort_children_unfold nm (d : D) ks :
  Tree.sort_children (Tree.Node nm d ks)
  = Tree.Node nm d (map Tree.sort_children (Tree.sort_by_name ks)).
Proof. simpl. f_equal. apply sort_map, name_sort_children. Qed.

(** Sorting after a walk is the sorted walk after sorting. *)
Lemma sort_children_descend inc fin funcs n :
  Tree.sort_children (Tree.descend zero inc fin funcs n)
  = Tree.sorted_descend zero inc fin funcs (Tree.sort_children n).
Proof.
  revert n. induction funcs as [|func rest IH]; intros [nm d ks]; [done|].
  simpl. f_equal.
  rewrite (map_with_child Tree.sort_children _
             (λ child, Tree.sorted_descend zero inc fin rest (Tree.upd inc child))).
  - apply sort_with_child. intros x.
    by rewrite name_sorted_descend.
  - apply name_sort_children.
  - intros x. by rewrite IH, sort_children_upd.
  - done.
Qed.

(** *** Two walks commute on sorted children *)

Lemma sorted_with_child_comm_ne nm1 nm2 g1 g2 l :
  nm1 ≠ nm2 →
  (∀ x, Tree.name (g1 x) = Tree.name x) →
  (∀ x, Tree.name (g2 x) = Tree.name x) →
  Tree.sorted_with_child zero nm1 g1 (Tree.sorted_with_child zero nm2 g2 l)
  = Tree.sorted_with_child zero nm2 g2 (Tree.sorted_with_child zero nm1 g1 l).
Proof.
  intros Hne H1 H2. induction l as [|y l IH]; simpl.
  - rewrite H1, H2; simpl.
    destruct (String.compare nm1 nm2) eqn:E1,
      (String.compare nm2 nm1) eqn:E2; try done; cmp_absurd.
  - destruct (String.compare nm1 (Tree.name y)) eqn:E1,
      (String.compare nm2 (Tree.name y)) eqn:E2; simpl;
      rewrite ?H1, ?H2; simpl; rewrite ?E1, ?E2; simpl; rewrite ?IH;
      try done;
      try (destruct (String.compare nm1 nm2) eqn:E3; try done);
      try (destruct (String.compare nm2 nm1) eqn:E4; try done);
      rewrite ?E1, ?E2; try done; cmp_absurd.
Qed.

Lemma sorted_with_child_comm_eq nm g1 g2 l :
  (∀ x, g1 (g2 x) = g2 (g1 x)) →
  (∀ x, Tree.name (g1 x) = Tree.name x) →
  (∀ x, Tree.name (g2 x) = Tree.name x) →
  Tree.sorted_with_child zero nm g1 (Tree.sorted_with_child zero nm g2 l)
  = Tree.sorted_with_child zero nm g2 (Tree.sorted_with_child zero nm g1 l).
Proof.
  intros Hc H1 H2. induction l as [|y l IH]; simpl.
  - by rewrite H1, H2, compare_refl, Hc.
  - destruct (String.compare nm (Tree.name y)) eqn:E; simpl;
      rewrite ?H1, ?H2; simpl; rewrite ?E, ?compare_refl, ?Hc, ?IH; done.
Qed.

Lemma upd_sorted_descend f inc fin funcs n :
  (∀ d, f (fin d) = fin (f d)) →
  Tree.upd f (Tree.sorted_descend zero inc fin funcs n)
  = Tree.sorted_descend zero inc fin funcs (Tree.upd f n).
Proof. intros Hf. destruct funcs, n; unfold Tree.upd; simpl; by rewrite ?Hf. Qed.

Lemma sorted_descend_comm inc1 fin1 inc2 fin2 p q n :
  (∀ d, inc1 (inc2 d) = inc2 (inc1 d)) → (∀ d, inc1 (fin2 d) = fin2 (inc1 d)) →
  (∀ d, inc2 (fin1 d) = fin1 (inc2 d)) → (∀ d, fin1 (fin2 d) = fin2 (fin1 d)) →
  Tree.sorted_descend zero inc1 fin1 p (Tree.sorted_descend zero inc2 fin2 q n)
  = Tree.sorted_descend zero inc2 fin2 q (Tree.sorted_descend zero inc1 fin1 p n).
Proof.
  intros Hii Hif Hfi Hff. revert q n.
  induction p as [|f p IH]; intros [|h q] [nm d ks]; simpl.
  - unfold Tree.upd; simpl. by rewrite Hff.
  - done.
  - done.
  - f_equal. destruct (decide (f = h)) as [->|Hne].
    + apply sorted_with_child_comm_eq.
      * intros x. rewrite !upd_sorted_descend by done. rewrite IH.
        do 2 f_equal. unfold Tree.upd; simpl. by rewrite Hii.
      * intros x. by rewrite name_sorted_descend.
      * intros x. by rewrite name_sorted_descend.
    + apply sorted_with_child_comm_ne; [done|..];
        intros x; by rewrite name_sorted_descend.
Qed.

(** *** Building a tree from a list of call paths *)

Section Build.
Context {I : Type} (path : I → list string) (inc fin : I → D → D).
Hypothesis inc_inc : ∀ i j d, inc i (inc j d) = inc j (inc i d).
Hypothesis inc_fin : ∀ i j d, inc i (fin j d) = fin j (inc i d).
Hypothesis fin_fin : ∀ i j d, fin i (fin j d) = fin j (fin i d).

Let step (root : Tree.t D) (i : I) : Tree.t D :=
  Tree.add_stack zero (inc i) (fin i) (path i) root.
Let sorted_step (root : Tree.t D) (i : I) : Tree.t D :=
  Tree.sorted_descend zero (inc i) (fin i) (path i) (Tree.upd (inc i) root).

Lemma sort_children_step root i :
  Tree.sort_children (step root i) = sorted_step (Tree.sort_children root) i.
Proof.
  unfold step, sorted_step, Tree.add_stack.
  by rewrite sort_children_descend, sort_children_upd.
Qed.

Lemma sorted_step_comm root i j :
  sorted_step (sorted_step root i) j = sorted_step (sorted_step root j) i.
Proof.
  unfold sorted_step.
  rewrite <- !upd_sorted_descend by (intros; apply inc_fin).
  rewrite (sorted_descend_comm (inc j) (fin j) (inc i) (fin i))
    by (intros; auto).
  match goal with |- Tree.upd _ (Tree.upd _ ?t) = _ => destruct t end.
  unfold Tree.upd; simpl. by rewrite inc_inc.
Qed.

Lemma sort_children_fold items root :
  Tree.sort_children (fold_left step items root)
  = fold_left sorted_step items (Tree.sort_children root).
Proof.
  revert root. induction items as [|i items IH]; intros root; simpl; [done|].
  by rewrite IH, sort_children_step.
Qed.

Lemma fold_sorted_step_perm items items' root :
  items ≡ₚ items' →
  fold_left sorted_step items root = fold_left sorted_step items' root.
Proof. apply fold_left_comm_perm, sorted_step_comm. Qed.

(** The sorted tree does not depend on the order of the call paths. *)
Lemma sort_children_build_perm items items' root :
  items ≡ₚ items' →
  Tree.sort_children
    (fold_left (λ r i, Tree.add_stack zero (inc i) (fin i) (path i) r) items root)
  = Tree.sort_children
    (fold_left (λ r i, Tree.add_stack zero (inc i) (fin i) (path i) r) items' root).
Proof.
  intros Hp. fold step. rewrite !sort_children_fold.
  by apply fold_sorted_step_perm.
Qed.

End Build.
End TreeFacts.

(** ** The parsers *)

Lemma int_raises_ValueError (s : string) (e : exn) :
  Py.int s = Raise e → e = ValueError.
Proof.
  unfold Py.int.
  destruct (match Py.rstrip _ _ with EmptyString => _ | _ => _ end);
    by intros [= <-].
Qed.

Lemma except_int (s : string) :
  except_ValueError (Py.int s) (Ok 1)
  = Ok (match Py.int s with Ok n => n | Raise _ => 1 end).
Proof.
  destruct (Py.int s) as [n|e] eqn:E; [done|].
  by rewrite (int_raises_ValueError s e E).
Qed.

(** The line as the loop sees it: [None] for a skipped line, else the call
    path and the count. *)
Definition entry (line : string) : option (string * Z) :=
  match parse_line line with
  | Ok r => r
  | Raise _ => None
  end.

Lemma parse_line_entry (line : string) : parse_line line = Ok (entry line).
Proof.
  unfold entry, parse_line.
  destruct (_ || _); [done|]. destruct (_ <? 0); [done|].
  by rewrite except_int.
Qed.

Lemma entry_count_positive (line stack_str : string) (count : Z) :
  entry line = Some (stack_str, count) → 0 < count.
Proof.
  unfold entry, parse_line.
  destruct (_ || _); [done|]. destruct (_ <? 0); [done|].
  rewrite except_int; simpl. intros [= _ <-]. case_match; lia.
Qed.

Lemma for_each_fold {A S : Type} (body : S → A → result S) (f : S → A → S)
    (xs : list A) (s : S) :
  (∀ s x, body s x = Ok (f s x)) →
  Py.for_each body xs s = Ok (fold_left f xs s).
Proof.
  intros Hb. revert s. induction xs as [|x xs IH]; intros s; simpl; [done|].
  rewrite Hb; simpl. apply IH.
Qed.

Lemma fold_left_omap {A B S : Type} (e : A → option B) (f : S → B → S)
    (xs : list A) (s : S) :
  fold_left (λ s x, match e x with Some b => f s b | None => s end) xs s
  = fold_left f (omap e xs) s.
Proof.
  revert s. induction xs as [|x xs IH]; intros s; simpl; [done|].
  destruct (e x); simpl; apply IH.
Qed.

Module FlamegraphFacts.
Import Flamegraph.

(** One call path added to the tree and to the total. *)
Definition add_entry (st : Frame * Z) (e : string * Z) : Frame * Z :=
  (Tree.add_stack (Counters 0 0) (add_count e.2) (add_self_count e.2)
     (Py.split ";" e.1) st.1, st.2 + e.2).

Lemma parse_folded_fold (lines : list string) :
  parse_folded lines
  = Ok (fold_left add_entry (omap entry lines) (new_Frame "root", 0)).
Proof.
  unfold parse_folded. rewrite <- fold_left_omap. apply for_each_fold.
  intros [root total] line. unfold parse_folded_step.
  rewrite parse_line_entry; simpl. by destruct (entry line) as [[??]|].
Qed.

(** The sum of the inclusive counts of a list of frames. *)
Definition sum_count (ks : list Frame) : Z := foldr (λ k acc, count k + acc) 0 ks.

(** A node is consistent when its inclusive count is its self count plus the
    inclusive counts of its children. *)
Definition consistent (n : Frame) : Prop :=
  count n = self_count n + sum_count (Tree.children n).

Definition all_consistent (root : Frame) : Prop :=
  ∀ n, n ∈ Tree.nodes root → consistent n.

Lemma all_consistent_node nm d ks :
  all_consistent (Tree.Node nm d ks)
  ↔ consistent (Tree.Node nm d ks) ∧ Forall all_consistent ks.
Proof.
  unfold all_consistent; simpl. rewrite Forall_forall. split.
  - intros H. split; [apply H; left|].
    intros k Hk n Hn. apply H. right. apply list_elem_of_In, in_flat_map.
    exists k. by rewrite <- !list_elem_of_In.
  - intros [H0 Hks] n [->|Hn]%elem_of_cons; [done|].
    apply list_elem_of_In, in_flat_map in Hn as (k & Hk & Hn).
    apply (Hks k); by apply list_elem_of_In.
Qed.

Lemma count_descend c funcs (n : Frame) :
  count (Tree.descend (Counters 0 0) (add_count c) (add_self_count c) funcs n)
  = count n.
Proof. by destruct funcs, n. Qed.

Lemma sum_count_with_child nm g (ks : list Frame) c :
  (∀ x, count (g x) = count x + c) →
  sum_count (Tree.with_child (Counters 0 0) nm g ks) = sum_count ks + c.
Proof.
  intros Hg. induction ks as [|k ks IH]; simpl.
  - rewrite Hg. unfold count; simpl. lia.
  - destruct (String.eqb (Tree.name k) nm); simpl; rewrite ?Hg, ?IH; lia.
Qed.

Lemma Forall_with_child_new (P : Frame → Prop) nm g (ks : list Frame) :
  (∀ x, P x → P (g x)) → P (Tree.new (Counters 0 0) nm) →
  Forall P ks → Forall P (Tree.with_child (Counters 0 0) nm g ks).
Proof.
  intros Hg Hnew. induction 1 as [|k ks Hk Hks IH]; simpl.
  - by repeat constructor; apply Hg.
  - destruct (String.eqb (Tree.name k) nm); constructor; auto.
Qed.

(** A walk repairs a node whose inclusive count is ahead by [c]. *)
Lemma descend_consistent c funcs (n : Frame) :
  Forall all_consistent (Tree.children n) →
  count n = self_count n + sum_count (Tree.children n) + c →
  all_consistent
    (Tree.descend (Counters 0 0) (add_count c) (add_self_count c) funcs n).
Proof.
  revert n. induction funcs as [|func rest IH]; intros [nm [cnt slf] ks];
    unfold count, self_count; simpl; intros Hks Hn.
  - apply all_consistent_node. split; [|done].
    unfold consistent, count, self_count; simpl. lia.
  - apply all_consistent_node. split.
    + unfold consistent. unfold count at 1, self_count; simpl.
      rewrite (sum_count_with_child _ _ _ c); [lia|].
      intros [xn [xc xs] xks]. by rewrite count_descend.
    + apply Forall_with_child_new; [| |done].
      * intros [xn [xc xs] xks] [Hx Hxks]%all_consistent_node.
        apply IH; [done|]. revert Hx.
        unfold consistent, count, self_count; simpl. lia.
      * apply all_consistent_node. by split; [|constructor].
Qed.

Lemma add_stack_consistent c funcs (root : Frame) :
  all_consistent root →
  all_consistent
    (Tree.add_stack (Counters 0 0) (add_count c) (add_self_count c) funcs root).
Proof.
  destruct root as [nm [cnt slf] ks]. intros [H0 Hks]%all_consistent_node.
  apply descend_consistent; [done|]. revert H0.
  unfold consistent, count, self_count; simpl. lia.
Qed.

Lemma fold_add_entry_invariant (P : Frame * Z → Prop) es st :
  P st → (∀ st e, P st → P (add_entry st e)) → P (fold_left add_entry es st).
Proof.
  intros H0 Hstep. revert st H0.
  induction es as [|e es IH]; intros st H0; simpl; auto.
Qed.

Lemma parse_folded_inclusive_nodes (lines : list string) :
  ∃ root total, parse_folded lines = Ok (root, total) ∧ all_consistent root.
Proof.
  rewrite parse_folded_fold.
  destruct (fold_left add_entry _ _) as [root total] eqn:E.
  exists root, total. split; [done|].
  change (all_consistent (root, total).1). rewrite <- E.
  apply (fold_add_entry_invariant (λ st, all_consistent st.1)).
  - intros n [->|Hn]%elem_of_cons; [done|]. by apply elem_of_nil in Hn.
  - intros [r t] [s c] H; simpl. by apply add_stack_consistent.
Qed.

(** C1: in single-profile mode, every node of the tree that [parse_folded]
    builds from any list of lines has an inclusive count equal to its self
    count plus the sum of the inclusive counts of its immediate children:
    the parser returns, and the tree it returns has the property. *)
Theorem parse_folded_inclusive_self (lines : list string) :
  ∃ root total,
    parse_folded lines = Ok (root, total) ∧
    ∀ n, n ∈ Tree.nodes root →
      count n = self_count n + sum_count (Tree.children n).
Proof. apply parse_folded_inclusive_nodes. Qed.

Lemma count_add_entry st e : count (add_entry st e).1 = count st.1 + e.2.
Proof.
  destruct st as [[nm [cnt slf] ks] total], e as [s c]; unfold add_entry; simpl.
  unfold Tree.add_stack. by rewrite count_descend.
Qed.

Lemma parse_folded_root_total (lines : list string) :
  ∃ root total, parse_folded lines = Ok (root, total) ∧ count root = total.
Proof.
  rewrite parse_folded_fold.
  destruct (fold_left add_entry _ _) as [root total] eqn:E.
  exists root, total. split; [done|].
  change (count (root, total).1 = (root, total).2). rewrite <- E.
  apply (fold_add_entry_invariant (λ st, count st.1 = st.2)); [done|].
  intros st e H. rewrite count_add_entry, H. by destruct st, e.
Qed.

End FlamegraphFacts.

Module FlamediffFacts.
Import Flamediff.

(** One parsed line added to the dictionary and to the total. *)
Definition add_entry (st : gmap string Z * Z) (e : string * Z)
    : gmap string Z * Z :=
  (<[e.1 := get st.1 e.1 + e.2]> st.1, st.2 + e.2).

Lemma parse_folded_diff_fold (lines : list string) :
  parse_folded lines = Ok (fold_left add_entry (omap entry lines) (∅, 0)).
Proof.
  unfold parse_folded. rewrite <- fold_left_omap. apply for_each_fold.
  intros [stacks total] line. unfold parse_folded_step.
  rewrite parse_line_entry; simpl. by destruct (entry line) as [[??]|].
Qed.

(** The sum of the counts of a dictionary. *)
Definition sum_values (m : gmap string Z) : Z :=
  map_fold (λ _ v acc, v + acc) 0 m.

(** The sum of the counts of the parsed lines that carry the path [s]. *)
Definition count_for (s : string) (es : list (string * Z)) : Z :=
  foldr (λ e acc, if decide (e.1 = s) then e.2 + acc else acc) 0 es.

Lemma sum_values_insert (m : gmap string Z) i x :
  m !! i = None → sum_values (<[i:=x]> m) = x + sum_values m.
Proof.
  intros Hi. unfold sum_values. rewrite map_fold_insert_L; [done| |done].
  intros; lia.
Qed.

Lemma sum_values_bump (m : gmap string Z) s c :
  sum_values (<[s := get m s + c]> m) = sum_values m + c.
Proof.
  unfold get. destruct (m !! s) as [z|] eqn:E; simpl.
  - rewrite <- (insert_delete_eq m s (z + c)).
    rewrite <- (insert_delete_id m s z E) at 2.
    rewrite !sum_values_insert by apply lookup_delete_eq. lia.
  - rewrite sum_values_insert by done. lia.
Qed.

Lemma total_is_sum es st :
  st.2 = sum_values st.1 →
  (fold_left add_entry es st).2 = sum_values (fold_left add_entry es st).1.
Proof.
  revert st. induction es as [|e es IH]; intros st Hst; simpl; [done|].
  apply IH. simpl. rewrite sum_values_bump. lia.
Qed.

Lemma count_for_cons s e es :
  count_for s (e :: es)
  = if decide (e.1 = s) then e.2 + count_for s es else count_for s es.
Proof. done. Qed.

Lemma count_for_absent s es : s ∉ es.*1 → count_for s es = 0.
Proof.
  induction es as [|e es IH]; [done|].
  rewrite fmap_cons, not_elem_of_cons, count_for_cons. intros [Hne Hs].
  rewrite decide_False by done. by apply IH.
Qed.

Lemma count_for_app s es es' :
  count_for s (es ++ es') = count_for s es + count_for s es'.
Proof.
  induction es as [|e es IH]; [done|].
  rewrite <- app_comm_cons, !count_for_cons, IH. case_decide; lia.
Qed.

Lemma lookup_fold es (m : gmap string Z) t s :
  (fold_left add_entry es (m, t)).1 !! s
  = if decide (s ∈ es.*1) then Some (get m s + count_for s es) else m !! s.
Proof.
  revert m t. induction es as [|e es IH]; intros m t.
  - rewrite decide_False; [done|]. apply not_elem_of_nil.
  - change (fold_left add_entry (e :: es) (m, t))
      with (fold_left add_entry es
              (<[e.1 := get m e.1 + e.2]> m, t + e.2)).
    rewrite IH, count_for_cons, fmap_cons.
    destruct (decide (s ∈ es.*1)) as [Hin|Hout].
    + rewrite decide_True by (by right). f_equal. unfold get at 1.
      destruct (decide (e.1 = s)) as [->|Hne].
      * rewrite lookup_insert_eq; simpl. lia.
      * by rewrite lookup_insert_ne.
    + destruct (decide (e.1 = s)) as [<-|Hne].
      * rewrite decide_True by (by left).
        rewrite lookup_insert_eq, count_for_absent by done. f_equal; lia.
      * rewrite lookup_insert_ne by done. rewrite decide_False; [done|].
        rewrite not_elem_of_cons. by split.
Qed.

Lemma add_entry_comm st e1 e2 :
  add_entry (add_entry st e1) e2 = add_entry (add_entry st e2) e1.
Proof.
  destruct st as [m t], e1 as [s1 c1], e2 as [s2 c2].
  unfold add_entry; simpl. f_equal; [|lia].
  apply map_eq. intros k. unfold get.
  destruct (decide (s1 = s2)) as [->|Hne].
  - rewrite !insert_insert_eq, !lookup_insert_eq; simpl.
    destruct (decide (s2 = k)) as [->|Hk].
    + rewrite !lookup_insert_eq. f_equal; lia.
    + by rewrite !lookup_insert_ne.
  - rewrite !(lookup_insert_ne _ s1 s2), !(lookup_insert_ne _ s2 s1) by done.
    by rewrite insert_insert_ne.
Qed.

(** [parse_folded] does not depend on the order of the lines. *)
Lemma parse_folded_perm (lines lines' : list string) :
  lines ≡ₚ lines' → parse_folded lines = parse_folded lines'.
Proof.
  intros Hp. rewrite !parse_folded_diff_fold. f_equal.
  apply fold_left_comm_perm; [apply add_entry_comm|]. by rewrite Hp.
Qed.

Lemma parse_folded_total_sum (lines : list string) :
  ∃ stacks total,
    parse_folded lines = Ok (stacks, total) ∧ total = sum_values stacks.
Proof.
  rewrite parse_folded_diff_fold.
  destruct (fold_left add_entry _ _) as [stacks total] eqn:E.
  exists stacks, total. split; [done|].
  change ((stacks, total).2 = sum_values (stacks, total).1). rewrite <- E.
  by apply total_is_sum.
Qed.

(** C4: two lines that carry the same call path [s] with counts [a] and [b],
    among lines none of which carries [s], give one entry [s] with count
    [a + b]; and for every input the total returned is the sum of the
    aggregated counts over the distinct call paths. *)
Theorem parse_folded_aggregates :
  (∀ (pre mid post : list string) (l1 l2 s : string) (a b : Z),
     parse_line l1 = Ok (Some (s, a)) →
     parse_line l2 = Ok (Some (s, b)) →
     (∀ l c, l ∈ pre ++ mid ++ post → parse_line l ≠ Ok (Some (s, c))) →
     ∃ stacks total,
       parse_folded (pre ++ l1 :: mid ++ l2 :: post) = Ok (stacks, total) ∧
       stacks !! s = Some (a + b) ∧ total = sum_values stacks) ∧
  (∀ lines : list string,
     ∃ stacks total,
       parse_folded lines = Ok (stacks, total) ∧ total = sum_values stacks).
Proof.
  pose proof parse_folded_total_sum as Htotal.
  split; [|done].
  intros pre mid post l1 l2 s a b H1 H2 Hother.
  destruct (Htotal (pre ++ l1 :: mid ++ l2 :: post))
    as (stacks & total & Hparse & Hsum).
  exists stacks, total. split; [done|]. split; [|done].
  rewrite parse_folded_diff_fold in Hparse. injection Hparse as Hfold.
  assert (E1 : entry l1 = Some (s, a)) by (unfold entry; by rewrite H1).
  assert (E2 : entry l2 = Some (s, b)) by (unfold entry; by rewrite H2).
  assert (Habsent : ∀ ls, (∀ l, l ∈ ls → l ∈ pre ++ mid ++ post) →
            s ∉ (omap entry ls).*1).
  { intros ls Hls [[s' c] [-> Hin]]%list_elem_of_fmap.
    apply list_elem_of_omap in Hin as (l & Hl & El).
    apply (Hother l c); [by apply Hls|].
    by rewrite parse_line_entry, El. }
  change stacks with (stacks, total).1. rewrite <- Hfold, lookup_fold.
  rewrite !omap_app; simpl. rewrite E1, omap_app; simpl. rewrite E2.
  rewrite decide_True.
  2:{ rewrite fmap_app, elem_of_app. right. by left. }
  f_equal. rewrite count_for_app; simpl. rewrite decide_True by done.
  rewrite count_for_app; simpl. rewrite decide_True by done.
  rewrite !count_for_absent.
  - unfold get. rewrite lookup_empty; simpl. lia.
  - apply Habsent. intros l Hl. rewrite !elem_of_app. auto.
  - apply Habsent. intros l Hl. rewrite !elem_of_app. auto.
  - apply Habsent. intros l Hl. rewrite !elem_of_app. auto.
Qed.

Lemma parse_folded_aggregates_witness :
  ∃ stacks total,
    parse_folded ("# profile" :: "a;b 2" :: "c 7" :: "a;b 3" :: []) = Ok (stacks, total) ∧
    stacks !! "a;b" = Some (2 + 3) ∧ total = sum_values stacks.
Proof.
  apply (proj1 parse_folded_aggregates ["# profile"] ["c 7"] [] "a;b 2" "a;b 3"
           "a;b" 2 3); [reflexivity|reflexivity|].
  intros l c Hl.
  apply elem_of_cons in Hl as [->|Hl]; [by vm_compute|].
  apply elem_of_cons in Hl as [->|Hl]; [by vm_compute|].
  by apply elem_of_nil in Hl.
Defined.

(** *** The merged tree *)

(** One turn of the loop of [build_diff_tree]. *)
Definition add_path (stacks_a stacks_b : gmap string Z) (root : DiffFrame)
    (stack_str : string) : DiffFrame :=
  Tree.add_stack zero
    (add_counts (get stacks_a stack_str) (get stacks_b stack_str))
    (add_selfs (get stacks_a stack_str) (get stacks_b stack_str))
    (Py.split ";" stack_str) root.

(** The sum of [stacks.get(k, 0)] over a list of keys. *)
Definition sum_get (m : gmap string Z) (l : list string) : Z :=
  foldr (λ k acc, get m k + acc) 0 l.

Lemma counts_fold_add_path sa sb order (root : DiffFrame) :
  count_a (fold_left (add_path sa sb) order root) = count_a root + sum_get sa order ∧
  count_b (fold_left (add_path sa sb) order root) = count_b root + sum_get sb order.
Proof.
  revert root. induction order as [|k order IH]; intros root; simpl.
  - lia.
  - destruct (IH (add_path sa sb root k)) as [-> ->].
    unfold count_a, count_b, add_path.
    rewrite data_add_stack by apply split_nonempty. simpl. lia.
Qed.

Lemma sum_get_perm m l l' : l ≡ₚ l' → sum_get m l = sum_get m l'.
Proof.
  induction 1 as [|x l l' _ IH|x y l|l1 l2 l3 _ IH1 _ IH2]; simpl; lia.
Qed.

Lemma sum_get_insert_absent (m : gmap string Z) i x l :
  i ∉ l → sum_get (<[i:=x]> m) l = sum_get m l.
Proof.
  induction l as [|k l IH]; simpl; [done|].
  rewrite not_elem_of_cons. intros [Hne Hl]. rewrite IH by done.
  unfold get. by rewrite lookup_insert_ne.
Qed.

Lemma sum_get_order (m : gmap string Z) l :
  NoDup l → (∀ k, k ∈ dom m → k ∈ l) → sum_get m l = sum_values m.
Proof.
  revert l. induction m as [|i x m Hi IH] using map_ind; intros l Hnd Hdom.
  - induction l as [|k l IHl]; simpl; [done|].
    rewrite IHl; [done|by eapply NoDup_cons_1_2|set_solver].
  - assert (Hil : i ∈ l) by (apply Hdom; set_solver).
    apply elem_of_Permutation in Hil as [l' Hl'].
    rewrite (sum_get_perm _ _ _ Hl'), sum_values_insert by done.
    rewrite Hl' in Hnd. apply NoDup_cons in Hnd as [Hil' Hnd'].
    simpl. rewrite sum_get_insert_absent by done.
    unfold get at 1. rewrite lookup_insert_eq; simpl. f_equal.
    apply IH; [done|]. intros k Hk.
    assert (Hkl : k ∈ i :: l') by (rewrite <- Hl'; apply Hdom; set_solver).
    apply elem_of_cons in Hkl as [->|]; [|done].
    apply elem_of_dom in Hk as [z Hz]. congruence.
Qed.

Lemma set_order_dom_a order sa sb k : set_order order sa sb → k ∈ dom sa → k ∈ order.
Proof. intros [_ Ho] Hk. apply Ho, elem_of_union. by left. Qed.

Lemma set_order_dom_b order sa sb k : set_order order sa sb → k ∈ dom sb → k ∈ order.
Proof. intros [_ Ho] Hk. apply Ho, elem_of_union. by right. Qed.

Lemma build_diff_tree_fold order sa ta sb tb :
  build_diff_tree order sa ta sb tb
  = fold_left (add_path sa sb) order (new_DiffFrame "root").
Proof. done. Qed.

Lemma build_diff_tree_counts order sa ta sb tb :
  set_order order sa sb →
  count_a (build_diff_tree order sa ta sb tb) = sum_values sa ∧
  count_b (build_diff_tree order sa ta sb tb) = sum_values sb.
Proof.
  intros Ho. rewrite build_diff_tree_fold.
  destruct (counts_fold_add_path sa sb order (new_DiffFrame "root")) as [-> ->].
  rewrite !sum_get_order; [done|apply Ho|..]; try apply Ho;
    intros k Hk; eauto using set_order_dom_a, set_order_dom_b.
Qed.

(** C2: the inclusive count of the root is the total sample count.  In
    single mode [parse_folded] returns a root whose count is the total it
    returns; in differential mode, for every order in which the set of call
    paths is iterated, [count_a] of the root is the sum of the aggregated
    counts of the before profile and [count_b] that of the after profile,
    which are the totals that [parse_folded] returns for them. *)
Theorem root_count_is_total :
  (∀ lines : list string,
     ∃ root total,
       Flamegraph.parse_folded lines = Ok (root, total) ∧
       Flamegraph.count root = total) ∧
  (∀ all_stacks stacks_a total_a stacks_b total_b,
     set_order all_stacks stacks_a stacks_b →
     let root := build_diff_tree all_stacks stacks_a total_a stacks_b total_b in
     count_a root = sum_values stacks_a ∧ count_b root = sum_values stacks_b) ∧
  (∀ (lines_a lines_b : list string) all_stacks,
     ∃ stacks_a total_a stacks_b total_b,
       parse_folded lines_a = Ok (stacks_a, total_a) ∧
       parse_folded lines_b = Ok (stacks_b, total_b) ∧
       (set_order all_stacks stacks_a stacks_b →
        let root := build_diff_tree all_stacks stacks_a total_a stacks_b total_b in
        count_a root = total_a ∧ count_b root = total_b)).
Proof.
  split; [apply FlamegraphFacts.parse_folded_root_total|]. split.
  - intros. by apply build_diff_tree_counts.
  - intros lines_a lines_b order.
    destruct (parse_folded_total_sum lines_a) as (sa & ta & Ha & ->).
    destruct (parse_folded_total_sum lines_b) as (sb & tb & Hb & ->).
    exists sa, (sum_values sa), sb, (sum_values sb).
    split; [done|]. split; [done|]. intros Ho. by apply build_diff_tree_counts.
Qed.

Lemma root_count_is_total_witness :
  let stacks_a : gmap string Z := {[ "a;b" := 100 ]} in
  let stacks_b : gmap string Z := {[ "a;b" := 50; "a;c" := 7 ]} in
  let root := build_diff_tree ["a;c"; "a;b"] stacks_a 100 stacks_b 57 in
  count_a root = sum_values stacks_a ∧ count_b root = sum_values stacks_b.
Proof.
  intros stacks_a stacks_b.
  apply (proj1 (proj2 root_count_is_total) ["a;c"; "a;b"] stacks_a 100 stacks_b 57).
  split.
  - apply (bool_decide_unpack _). vm_compute. exact I.
  - intros k. subst stacks_a stacks_b.
    rewrite dom_insert_L, !dom_singleton_L, !elem_of_cons, elem_of_nil,
      !elem_of_union, !elem_of_singleton.
    tauto.
Defined.

End FlamediffFacts.

(** ** The order of the input lines *)

Module OrderFacts.

Lemma fold_add_entry_fst es st :
  (fold_left FlamegraphFacts.add_entry es st).1
  = fold_left
      (λ r (e : string * Z),
         Tree.add_stack (Flamegraph.Counters 0 0) (Flamegraph.add_count e.2)
           (Flamegraph.add_self_count e.2) (Py.split ";" e.1) r)
      es st.1.
Proof. revert st. induction es as [|e es IH]; intros st; simpl; [done|apply IH]. Qed.

Lemma fold_add_entry_snd es st :
  (fold_left FlamegraphFacts.add_entry es st).2
  = fold_left (λ t (e : string * Z), t + e.2) es st.2.
Proof. revert st. induction es as [|e es IH]; intros st; simpl; [done|apply IH]. Qed.

(** Single mode: the sorted tree and the total of a permuted input. *)
Lemma single_parse_perm (lines lines' : list string) :
  lines ≡ₚ lines' →
  ∃ root total root' total',
    Flamegraph.parse_folded lines = Ok (root, total) ∧
    Flamegraph.parse_folded lines' = Ok (root', total') ∧
    Flamegraph.sort_children root = Flamegraph.sort_children root' ∧
    total = total'.
Proof.
  intros Hp. rewrite !FlamegraphFacts.parse_folded_fold.
  assert (Hes : omap entry lines ≡ₚ omap entry lines') by (by rewrite Hp).
  destruct (fold_left _ (omap entry lines) _) as [root total] eqn:E.
  destruct (fold_left _ (omap entry lines') _) as [root' total'] eqn:E'.
  exists root, total, root', total'. split; [done|]. split; [done|]. split.
  - change root with (root, total).1. change root' with (root', total').1.
    rewrite <- E, <- E', !fold_add_entry_fst.
    apply (sort_children_build_perm (Flamegraph.Counters 0 0)
             (λ e : string * Z, Py.split ";" e.1)
             (λ e, Flamegraph.add_count e.2)
             (λ e, Flamegraph.add_self_count e.2)); [..|done];
      intros i j [c s]; unfold Flamegraph.add_count, Flamegraph.add_self_count;
      simpl; f_equal; lia.
  - change total with (root, total).2. change total' with (root', total').2.
    rewrite <- E, <- E', !fold_add_entry_snd.
    apply fold_left_comm_perm; [intros; lia|done].
Qed.

(** Differential mode: the sorted tree for two iteration orders of the set
    of call paths. *)
Lemma build_diff_tree_order order order' sa ta sb tb :
  Flamediff.set_order order sa sb → Flamediff.set_order order' sa sb →
  Flamediff.sort_children (Flamediff.build_diff_tree order sa ta sb tb)
  = Flamediff.sort_children (Flamediff.build_diff_tree order' sa ta sb tb).
Proof.
  intros [Hnd Ho] [Hnd' Ho'].
  assert (Hp : order ≡ₚ order').
  { apply NoDup_Permutation; [done..|]. intros k. by rewrite Ho, Ho'. }
  unfold Flamediff.build_diff_tree, Flamediff.sort_children.
  apply (sort_children_build_perm Flamediff.zero
           (λ k : string, Py.split ";" k)
           (λ k, Flamediff.add_counts (Flamediff.get sa k) (Flamediff.get sb k))
           (λ k, Flamediff.add_selfs (Flamediff.get sa k) (Flamediff.get sb k)));
    [..|done];
    intros i j [ca cb fa fb];
    unfold Flamediff.add_counts, Flamediff.add_selfs; simpl; f_equal; lia.
Qed.

(** C7: the output does not depend on the order of the input lines.  For two
    inputs that are permutations of each other, single mode returns trees
    that are identical after [sort_children] and the same total, so
    [render_svg] writes the same document; differential mode returns the same
    dictionaries and totals, and, for whatever orders the two runs iterate
    the set of call paths in, merged trees that are identical after
    [sort_children], so [render_diff_svg] writes the same document. *)
Theorem output_independent_of_line_order :
  (∀ lines lines' : list string,
     lines ≡ₚ lines' →
     ∃ root total root' total',
       Flamegraph.parse_folded lines = Ok (root, total) ∧
       Flamegraph.parse_folded lines' = Ok (root', total') ∧
       Flamegraph.sort_children root = Flamegraph.sort_children root' ∧
       total = total' ∧
       ∀ md5_hex8 fmt1 script out title width,
         Flamegraph.render_svg md5_hex8 fmt1 script out root total title width
         = Flamegraph.render_svg md5_hex8 fmt1 script out root' total' title width) ∧
  (∀ (lines_a lines_a' lines_b lines_b' : list string) order order',
     lines_a ≡ₚ lines_a' → lines_b ≡ₚ lines_b' →
     ∃ stacks_a total_a stacks_b total_b,
       Flamediff.parse_folded lines_a = Ok (stacks_a, total_a) ∧
       Flamediff.parse_folded lines_a' = Ok (stacks_a, total_a) ∧
       Flamediff.parse_folded lines_b = Ok (stacks_b, total_b) ∧
       Flamediff.parse_folded lines_b' = Ok (stacks_b, total_b) ∧
       (Flamediff.set_order order stacks_a stacks_b →
        Flamediff.set_order order' stacks_a stacks_b →
        let root :=
          Flamediff.build_diff_tree order stacks_a total_a stacks_b total_b in
        let root' :=
          Flamediff.build_diff_tree order' stacks_a total_a stacks_b total_b in
        Flamediff.sort_children root = Flamediff.sort_children root' ∧
        ∀ fmt1 script out title width,
          Flamediff.render_diff_svg fmt1 script out root total_a total_b title width
          = Flamediff.render_diff_svg fmt1 script out root' total_a total_b title width)).
Proof.
  split.
  - intros lines lines' Hp.
    destruct (single_parse_perm lines lines' Hp)
      as (root & total & root' & total' & H1 & H2 & Hs & <-).
    exists root, total, root', total. repeat (split; [done|]).
    intros. unfold Flamegraph.render_svg. by rewrite Hs.
  - intros la la' lb lb' order order' Ha Hb.
    destruct (FlamediffFacts.parse_folded_total_sum la) as (sa & ta & Hpa & _).
    destruct (FlamediffFacts.parse_folded_total_sum lb) as (sb & tb & Hpb & _).
    exists sa, ta, sb, tb. split; [done|].
    split; [by rewrite <- (FlamediffFacts.parse_folded_perm la la' Ha)|].
    split; [done|].
    split; [by rewrite <- (FlamediffFacts.parse_folded_perm lb lb' Hb)|].
    intros Ho Ho' root root'.
    assert (Hs : Flamediff.sort_children root = Flamediff.sort_children root')
      by (by apply build_diff_tree_order).
    split; [done|]. intros. unfold Flamediff.render_diff_svg. by rewrite Hs.
Qed.

Lemma output_independent_of_line_order_witness :
  ∃ root total root' total',
    Flamegraph.parse_folded ["a;c 5"; "a;b 5"; "b 1"] = Ok (root, total) ∧
    Flamegraph.parse_folded ["b 1"; "a;b 5"; "a;c 5"] = Ok (root', total') ∧
    Flamegraph.sort_children root = Flamegraph.sort_children root' ∧
    total = total' ∧
    ∀ md5_hex8 fmt1 script out title width,
      Flamegraph.render_svg md5_hex8 fmt1 script out root total title width
      = Flamegraph.render_svg md5_hex8 fmt1 script out root' total' title width.
Proof.
  apply (proj1 output_independent_of_line_order).
  apply (Permutation_rev ["a;c 5"; "a;b 5"; "b 1"]).
Defined.

Example sorted_tree_example :
  (λ r, Flamegraph.sort_children r.1)
    <$> (match Flamegraph.parse_folded ["a;c 5"; "a;b 5"; "b 1"] with
         | Ok r => Some r | Raise _ => None end)
  = Some (Tree.Node "root" (Flamegraph.Counters 11 0)
      [ Tree.Node "a" (Flamegraph.Counters 10 0)
          [ Tree.Node "b" (Flamegraph.Counters 5 5) [];
            Tree.Node "c" (Flamegraph.Counters 5 5) [] ];
        Tree.Node "b" (Flamegraph.Counters 1 1) [] ]).
Proof. reflexivity. Qed.

End OrderFacts.

(** ** Lenient parsing *)

Module ParserFacts.

Lemma rfind_ge (c : ascii) (s : string) : -1 ≤ Py.rfind c s.
Proof.
  induction s as [|a s IH]; simpl; [lia|].
  destruct (0 <=? Py.rfind c s) eqn:E; [lia|]. destruct (Ascii.eqb a c); lia.
Qed.

Lemma rfind_cons_absent (c a : ascii) (s : string) :
  Py.rfind c (String a s) < 0 ↔ Ascii.eqb a c = false ∧ Py.rfind c s < 0.
Proof.
  simpl. destruct (0 <=? Py.rfind c s) eqn:E.
  - apply Z.leb_le in E. split; [lia|intros [_ ?]; lia].
  - apply Z.leb_gt in E. destruct (Ascii.eqb a c).
    + split; [lia|by intros [? _]].
    + split; [by intros _|lia].
Qed.

Lemma rfind_lstrip (c : ascii) sp (s : string) :
  Py.rfind c s < 0 → Py.rfind c (Py.lstrip sp s) < 0.
Proof.
  induction s as [|a s IH]; [done|]. intros H.
  change (Py.lstrip sp (String a s))
    with (if sp a then Py.lstrip sp s else String a s).
  destruct (sp a); [|done]. apply IH. by apply rfind_cons_absent in H as [_ ?].
Qed.

Lemma rfind_rstrip (c : ascii) sp (s : string) :
  Py.rfind c s < 0 → Py.rfind c (Py.rstrip sp s) < 0.
Proof.
  induction s as [|a s IH]; [done|].
  intros [Ha Hs]%rfind_cons_absent. specialize (IH Hs).
  change (Py.rstrip sp (String a s))
    with (match Py.rstrip sp s with
          | EmptyString => if sp a then EmptyString else String a EmptyString
          | r => String a r
          end).
  destruct (Py.rstrip sp s) as [|b r].
  - destruct (sp a); [done|]. by apply rfind_cons_absent.
  - by apply rfind_cons_absent.
Qed.

(** A line without a space has none after [strip()]. *)
Lemma rfind_strip (s : string) :
  Py.rfind " " s < 0 → Py.rfind " " (Py.strip s) < 0.
Proof. intros H. by apply rfind_rstrip, rfind_lstrip. Qed.

Lemma startswith_rstrip (c : ascii) sp (s : string) :
  sp c = false → Py.startswith c s = true →
  Py.startswith c (Py.rstrip sp s) = true.
Proof.
  destruct s as [|a s]; [done|]. simpl. intros Hc Ha.
  apply Ascii.eqb_eq in Ha as ->.
  destruct (Py.rstrip sp s); [|by apply Ascii.eqb_refl].
  rewrite Hc. by apply Ascii.eqb_refl.
Qed.

(** A line that starts with [#] still does after [strip()]. *)
Lemma startswith_strip (s : string) :
  Py.startswith "#" s = true → Py.startswith "#" (Py.strip s) = true.
Proof.
  intros H. unfold Py.strip. apply startswith_rstrip; [done|].
  destruct s as [|a s]; [done|]. simpl in *.
  apply Ascii.eqb_eq in H as ->. done.
Qed.

Lemma skipped_line (line : string) :
  Py.strip line = "" ∨ Py.startswith "#" (Py.strip line) = true
  ∨ Py.rfind " " (Py.strip line) < 0 →
  parse_line line = Ok None.
Proof.
  unfold parse_line. intros [->|[->|H]]; [done| |].
  - by rewrite orb_true_r.
  - destruct (_ || _); [done|]. by rewrite (proj2 (Z.ltb_lt _ _) H).
Qed.

Lemma counted_line (line : string) :
  Py.strip line ≠ "" → Py.startswith "#" (Py.strip line) = false →
  0 ≤ Py.rfind " " (Py.strip line) →
  parse_line line
  = Ok (Some (Py.slice_to (Py.rfind " " (Py.strip line)) (Py.strip line),
              match Py.int (Py.slice_from (Py.rfind " " (Py.strip line) + 1)
                              (Py.strip line)) with
              | Ok n => if n <=? 0 then 1 else n
              | Raise _ => 1
              end)).
Proof.
  intros Hne Hst Hidx. unfold parse_line.
  rewrite (proj2 (String.eqb_neq _ _) Hne), Hst; simpl.
  rewrite (proj2 (Z.ltb_ge _ _) Hidx), except_int; simpl.
  by destruct (Py.int _).
Qed.

Lemma step_skips (line : string) :
  parse_line line = Ok None →
  (∀ st, Flamegraph.parse_folded_step st line = Ok st) ∧
  (∀ st, Flamediff.parse_folded_step st line = Ok st).
Proof.
  intros H. split; intros [??];
    unfold Flamegraph.parse_folded_step, Flamediff.parse_folded_step;
    by rewrite H.
Qed.

(** C3: both parsers skip blank lines, lines that start with [#] and lines
    without a space (on the raw line or after [strip()]), leaving the loop
    state as it is; on any other line the count is 1 when the text after the
    last space is not an integer, 1 when the integer is not positive, and the
    integer otherwise; and no line, and no list of lines, makes a parser
    raise. *)
Theorem parser_is_lenient :
  (∀ line : string,
     let s := Py.strip line in
     ((s = "" ∨ Py.startswith "#" s = true ∨ Py.rfind " " s < 0
       ∨ Py.startswith "#" line = true ∨ Py.rfind " " line < 0) →
      parse_line line = Ok None ∧
      (∀ st, Flamegraph.parse_folded_step st line = Ok st) ∧
      (∀ st, Flamediff.parse_folded_step st line = Ok st)) ∧
     (s ≠ "" → Py.startswith "#" s = false → 0 ≤ Py.rfind " " s →
      let stack_str := Py.slice_to (Py.rfind " " s) s in
      let token := Py.slice_from (Py.rfind " " s + 1) s in
      (∀ e, Py.int token = Raise e →
            parse_line line = Ok (Some (stack_str, 1))) ∧
      (∀ n, Py.int token = Ok n → n ≤ 0 →
            parse_line line = Ok (Some (stack_str, 1))) ∧
      (∀ n, Py.int token = Ok n → 0 < n →
            parse_line line = Ok (Some (stack_str, n)))) ∧
     (∃ r, parse_line line = Ok r)) ∧
  (∀ lines : list string,
     (∃ r, Flamegraph.parse_folded lines = Ok r) ∧
     (∃ r, Flamediff.parse_folded lines = Ok r)).
Proof.
  split.
  - intros line s. split; [|split].
    + intros H.
      assert (Hskip : parse_line line = Ok None).
      { apply skipped_line. subst s.
        destruct H as [?|[?|[?|[?|?]]]];
          [by left|by right; left|by right; right
          |right; left; by apply startswith_strip
          |right; right; by apply rfind_strip]. }
      split; [done|]. by apply step_skips.
    + intros Hne Hst Hidx stack_str token.
      rewrite (counted_line line Hne Hst Hidx). fold s stack_str token.
      repeat split.
      * by intros e ->.
      * intros n -> Hn. by rewrite (proj2 (Z.leb_le _ _) Hn).
      * intros n -> Hn. by rewrite (proj2 (Z.leb_gt _ _) Hn).
    + rewrite parse_line_entry. eauto.
  - intros lines. split.
    + rewrite FlamegraphFacts.parse_folded_fold. eauto.
    + rewrite FlamediffFacts.parse_folded_diff_fold. eauto.
Qed.

Lemma parser_is_lenient_witness :
  parse_line "# comment" = Ok None ∧
  parse_line "bad_line_no_count" = Ok None ∧
  parse_line "x;y 3" = Ok (Some ("x;y", 3)) ∧
  parse_line "x;y -4" = Ok (Some ("x;y", 1)) ∧
  parse_line "x;y z" = Ok (Some ("x;y", 1)).
Proof.
  split; [|split; [|split; [|split]]].
  - apply (proj1 (proj1 parser_is_lenient "# comment")).
    right; left. reflexivity.
  - apply (proj1 (proj1 parser_is_lenient "bad_line_no_count")).
    do 4 right. reflexivity.
  - destruct (proj1 (proj2 (proj1 parser_is_lenient "x;y 3")))
      as (_ & _ & Hpos);
      [discriminate|reflexivity|vm_compute; discriminate|].
    apply (Hpos 3); [reflexivity|lia].
  - destruct (proj1 (proj2 (proj1 parser_is_lenient "x;y -4")))
      as (_ & Hneg & _);
      [discriminate|reflexivity|vm_compute; discriminate|].
    apply (Hneg (-4)); [reflexivity|lia].
  - destruct (proj1 (proj2 (proj1 parser_is_lenient "x;y z")))
      as (Hbad & _ & _);
      [discriminate|reflexivity|vm_compute; discriminate|].
    apply (Hbad ValueError). reflexivity.
Defined.

End ParserFacts.

(** ** Colours *)

(** ** Properties of the binary64 rounding *)

Module Float64Facts.
Import Float64.
Local Open Scope Q_scope.

Lemma pow2_pos (e : Z) : 0 < pow2 e.
Proof. by apply Qpower_0_lt. Qed.

Lemma pow2_add (a b : Z) : pow2 (a + b) == pow2 a * pow2 b.
Proof. by apply Qpower_plus. Qed.

Lemma pow2_sub (a b : Z) : pow2 (a - b) == pow2 a / pow2 b.
Proof. by apply Qpower_minus. Qed.

Lemma pow2_lt (a b : Z) : (a < b)%Z → pow2 a < pow2 b.
Proof. intros H. by apply Qpower_lt_compat_l. Qed.

Lemma pow2_le (a b : Z) : (a <= b)%Z → pow2 a <= pow2 b.
Proof. intros H. by apply Qpower_le_compat_l. Qed.

Lemma pow2_lt_inv (a b : Z) : pow2 a < pow2 b → (a < b)%Z.
Proof. intros H. by apply (Qpower_lt_compat_l_inv 2). Qed.

Lemma pow2_Z (e : Z) : (0 <= e)%Z → pow2 e == inject_Z (2 ^ e).
Proof. intros H. unfold pow2. by rewrite Zpower_Qpower. Qed.

Lemma frac_lt (n d p q : Z) :
  (0 < d)%Z → (0 < q)%Z → (n * q < p * d)%Z →
  inject_Z n / inject_Z d < inject_Z p / inject_Z q.
Proof.
  intros Hd Hq H. destruct d as [|d|d], q as [|q|q]; try lia.
  unfold Qlt, Qdiv, Qmult, Qinv; simpl. lia.
Qed.

Lemma Q_as_frac (x : Q) : x == inject_Z (Qnum x) / inject_Z (Z.pos (Qden x)).
Proof. destruct x as [n d]. unfold Qeq, Qdiv, Qmult, Qinv; simpl. lia. Qed.

(** [ilog2] is the floor of the binary logarithm. *)
Lemma ilog2_spec (x : Q) :
  0 < x → pow2 (ilog2 x) <= x ∧ x < pow2 (ilog2 x + 1).
Proof.
  intros Hx.
  assert (Hn : (0 < Qnum x)%Z).
  { destruct x as [n d]. unfold Qlt in Hx; simpl in *. lia. }
  pose proof (Z.log2_spec (Qnum x) Hn) as [Ha1 Ha2].
  pose proof (Z.log2_spec (Z.pos (Qden x)) ltac:(lia)) as [Hb1 Hb2].
  pose proof (Z.log2_nonneg (Qnum x)) as Ha0.
  pose proof (Z.log2_nonneg (Z.pos (Qden x))) as Hb0.
  set (a := Z.log2 (Qnum x)) in *. set (b := Z.log2 (Z.pos (Qden x))) in *.
  unfold Z.succ in Ha2, Hb2.
  assert (Hpa : (0 < 2 ^ a)%Z) by (apply Z.pow_pos_nonneg; lia).
  assert (Hpb : (0 < 2 ^ b)%Z) by (apply Z.pow_pos_nonneg; lia).
  assert (Hpb1 : (0 < 2 ^ (b + 1))%Z) by (apply Z.pow_pos_nonneg; lia).
  assert (Hlow : pow2 (a - b - 1) < x).
  { replace (a - b - 1)%Z with (a - (b + 1))%Z by lia.
    rewrite pow2_sub, !pow2_Z by lia.
    eapply Qlt_le_trans;
      [|apply Qle_lteq; right; symmetry; apply (Q_as_frac x)].
    apply frac_lt; [done|lia|]. nia. }
  assert (Hhigh : x < pow2 (a - b + 1)).
  { replace (a - b + 1)%Z with (a + 1 - b)%Z by lia.
    rewrite pow2_sub, !pow2_Z by lia.
    eapply Qle_lt_trans; [apply Qle_lteq; right; apply (Q_as_frac x)|].
    apply frac_lt; [lia|done|]. nia. }
  unfold ilog2. fold a b.
  destruct (Qle_bool (pow2 (a - b)) x) eqn:E.
  - apply Qle_bool_iff in E. done.
  - assert (x < pow2 (a - b)).
    { apply Qnot_le_lt. intros H%Qle_bool_iff. congruence. }
    split; [by apply Qlt_le_weak|].
    by replace (a - b - 1 + 1)%Z with (a - b)%Z by lia.
Qed.

Lemma ilog2_unique (x : Q) (l : Z) :
  pow2 l <= x → x < pow2 (l + 1) → ilog2 x = l.
Proof.
  intros H1 H2.
  assert (Hx : 0 < x) by (eapply Qlt_le_trans; [apply pow2_pos|done]).
  destruct (ilog2_spec x Hx) as [H3 H4].
  assert (ilog2 x < l + 1)%Z.
  { apply pow2_lt_inv. eapply Qle_lt_trans; done. }
  assert (l < ilog2 x + 1)%Z.
  { apply pow2_lt_inv. eapply Qle_lt_trans; done. }
  lia.
Qed.

Lemma ilog2_proper (x y : Q) : 0 < x → x == y → ilog2 x = ilog2 y.
Proof.
  intros Hx Hxy. symmetry. destruct (ilog2_spec x Hx) as [H1 H2].
  apply ilog2_unique; by rewrite <- Hxy.
Qed.

Lemma ilog2_mono (x y : Q) : 0 < x → x <= y → (ilog2 x <= ilog2 y)%Z.
Proof.
  intros Hx Hxy.
  assert (Hy : 0 < y) by (eapply Qlt_le_trans; done).
  destruct (ilog2_spec x Hx) as [H1 _]. destruct (ilog2_spec y Hy) as [_ H2].
  assert (ilog2 x < ilog2 y + 1)%Z; [|lia].
  apply pow2_lt_inv. eapply Qle_lt_trans; [exact H1|].
  eapply Qle_lt_trans; done.
Qed.

(** *** Rounding to an integer *)

Lemma rne_cases (z : Q) :
  (rne z = Qfloor z ∧ z - inject_Z (Qfloor z) <= 1 # 2)
  ∨ (rne z = (Qfloor z + 1)%Z ∧ 1 # 2 <= z - inject_Z (Qfloor z)).
Proof.
  unfold rne. destruct (Qcompare_spec (z - inject_Z (Qfloor z)) (1 # 2))
    as [H|H|H].
  - destruct (Z.even (Qfloor z)); [left|right]; rewrite H; done.
  - left. split; [done|by apply Qlt_le_weak].
  - right. split; [done|by apply Qlt_le_weak].
Qed.

Lemma rne_error (z : Q) : Qabs (inject_Z (rne z) - z) <= 1 # 2.
Proof.
  pose proof (Qfloor_le z) as H1. pose proof (Qlt_floor z) as H2.
  rewrite inject_Z_plus in H2. change (inject_Z 1) with 1 in H2.
  apply Qabs_Qle_condition.
  destruct (rne_cases z) as [[-> H]|[-> H]].
  - split; lra.
  - rewrite inject_Z_plus. change (inject_Z 1) with 1. split; lra.
Qed.

Lemma rne_Z (k : Z) : rne (inject_Z k) = k.
Proof.
  unfold rne. rewrite Qfloor_Z.
  destruct (Qcompare_spec (inject_Z k - inject_Z k) (1 # 2)); [lra|done|lra].
Qed.

Lemma rne_proper (x y : Q) : x == y → rne x = rne y.
Proof.
  intros H. unfold rne. rewrite (Qfloor_comp x y H).
  assert (E : (x - inject_Z (Qfloor y) ?= 1 # 2)
              = (y - inject_Z (Qfloor y) ?= 1 # 2)).
  { apply Qcompare_comp; [|reflexivity].
    apply Qplus_comp; [exact H|reflexivity]. }
  by rewrite E.
Qed.

Lemma rne_ge (k : Z) (z : Q) : inject_Z k <= z → (k <= rne z)%Z.
Proof.
  intros H. apply Qfloor_resp_le in H. rewrite Qfloor_Z in H.
  destruct (rne_cases z) as [[-> _]|[-> _]]; lia.
Qed.

Lemma rne_le (k : Z) (z : Q) : z <= inject_Z k → (rne z <= k)%Z.
Proof.
  intros H. pose proof (Qfloor_resp_le _ _ H) as Hf. rewrite Qfloor_Z in Hf.
  destruct (rne_cases z) as [[-> _]|[-> Hr]]; [done|].
  destruct (decide (Qfloor z = k)) as [E|]; [|lia].
  rewrite E in Hr. lra.
Qed.

Lemma rne_mono (x y : Q) : x <= y → (rne x <= rne y)%Z.
Proof.
  intros H. pose proof (Qfloor_resp_le _ _ H) as Hf.
  destruct (decide (Qfloor x = Qfloor y)) as [E|N].
  - unfold rne. rewrite E.
    destruct (Qcompare_spec (x - inject_Z (Qfloor y)) (1 # 2)) as [H1|H1|H1];
      destruct (Qcompare_spec (y - inject_Z (Qfloor y)) (1 # 2)) as [H2|H2|H2];
      try destruct (Z.even (Qfloor y)); try lia; lra.
  - destruct (rne_cases x) as [[-> _]|[-> _]];
      destruct (rne_cases y) as [[-> _]|[-> _]]; lia.
Qed.

(** *** Rounding a positive number *)

Lemma exponent_ge (a : Q) : (-1074 <= exponent a)%Z.
Proof. unfold exponent. lia. Qed.

Lemma exponent_proper (x y : Q) : 0 < x → x == y → exponent x = exponent y.
Proof. intros Hx H. unfold exponent. by rewrite (ilog2_proper x y Hx H). Qed.

Lemma pow2_nonzero (e : Z) : ¬ pow2 e == 0.
Proof. pose proof (pow2_pos e). lra. Qed.

Lemma pow2_half (e : Z) : pow2 e == 2 * pow2 (e - 1).
Proof.
  replace e with (1 + (e - 1))%Z at 1 by lia. rewrite pow2_add.
  by change (pow2 1) with 2.
Qed.

Lemma div_pow2_pos (a : Q) (e : Z) : 0 < a → 0 < a / pow2 e.
Proof.
  intros Ha. apply Qlt_shift_div_l; [apply pow2_pos|]. lra.
Qed.

(** The significand of the result has at most 53 bits (54 when the
    rounding reaches the next power of two). *)
Lemma significand_bounds (a : Q) :
  0 < a → (0 <= rne (a / pow2 (exponent a)) <= 2 ^ 53)%Z.
Proof.
  intros Ha. pose proof (div_pow2_pos a (exponent a) Ha) as Hq. split.
  - apply rne_ge. change (inject_Z 0) with 0. by apply Qlt_le_weak.
  - apply rne_le. apply Qle_shift_div_r; [apply pow2_pos|].
    destruct (ilog2_spec a Ha) as [_ H].
    assert (Hle : pow2 (ilog2 a + 1) <= pow2 (53 + exponent a)).
    { apply pow2_le. unfold exponent. lia. }
    rewrite (pow2_add 53 (exponent a)), (pow2_Z 53) in Hle by lia. lra.
Qed.

Lemma ulp_bound (a : Q) : 0 < a → pow2 (exponent a) <= 2 * (u * a + eta).
Proof.
  intros Ha. destruct (ilog2_spec a Ha) as [H _]. unfold exponent, u, eta.
  destruct (Z.max_spec (ilog2 a - 52) (-1074)) as [[_ ->]|[_ ->]].
  - pose proof (pow2_pos (-53)). pose proof (pow2_pos (-1074)).
    rewrite (pow2_half (-1074)). change (-1074 - 1)%Z with (-1075)%Z.
    assert (0 <= pow2 (-53) * a) by (apply Qmult_le_0_compat; lra). lra.
  - replace (ilog2 a - 52)%Z with (ilog2 a + -52)%Z by lia.
    rewrite pow2_add, (pow2_half (-52)). change (-52 - 1)%Z with (-53)%Z.
    pose proof (pow2_pos (-53)). pose proof (pow2_pos (-1075)).
    assert (pow2 (-53) * pow2 (ilog2 a) <= pow2 (-53) * a).
    { apply Qmult_le_l; lra. }
    lra.
Qed.

Lemma fl_pos_error (a : Q) : 0 < a → Qabs (fl_pos a - a) <= u * a + eta.
Proof.
  intros Ha. unfold fl_pos. set (e := exponent a). set (p := pow2 e).
  pose proof (pow2_pos e) as Hp. fold p in Hp.
  pose proof (rne_error (a / p)) as Hr.
  pose proof (ulp_bound a Ha) as Hu. fold e p in Hu.
  set (m := inject_Z (rne (a / p))) in *.
  assert (E : m * p - a == (m - a / p) * p) by (field; lra).
  rewrite E, Qabs_Qmult, (Qabs_pos p) by lra.
  assert (Qabs (m - a / p) * p <= (1 # 2) * p).
  { apply Qmult_le_compat_r; lra. }
  lra.
Qed.

Lemma fl_pos_nonneg (a : Q) : 0 < a → 0 <= fl_pos a.
Proof.
  intros Ha. unfold fl_pos. apply Qmult_le_0_compat.
  - change 0 with (inject_Z 0). rewrite <- Zle_Qle.
    apply (significand_bounds a Ha).
  - apply Qlt_le_weak, pow2_pos.
Qed.

Lemma fl_pos_proper (x y : Q) : 0 < x → x == y → fl_pos x == fl_pos y.
Proof.
  intros Hx H. unfold fl_pos. rewrite <- (exponent_proper x y Hx H).
  rewrite (rne_proper (x / pow2 (exponent x)) (y / pow2 (exponent x))).
  - reflexivity.
  - apply Qdiv_comp; [exact H|reflexivity].
Qed.

(** A number whose quotient by its last-bit weight is an integer is
    its own rounding. *)
Lemma fl_pos_exact (y : Q) (k : Z) :
  y / pow2 (exponent y) == inject_Z k → fl_pos y == y.
Proof.
  intros H. unfold fl_pos. rewrite (rne_proper _ _ H), rne_Z, <- H.
  field. apply pow2_nonzero.
Qed.

Lemma ilog2_grid (m e : Z) :
  (0 < m)%Z → ilog2 (inject_Z m * pow2 e) = (Z.log2 m + e)%Z.
Proof.
  intros Hm. pose proof (Z.log2_spec m Hm) as [H1 H2].
  pose proof (Z.log2_nonneg m) as H0. pose proof (pow2_pos e) as Hp.
  apply ilog2_unique.
  - rewrite pow2_add, (pow2_Z (Z.log2 m)) by done.
    apply Qmult_le_compat_r; [|lra]. by rewrite <- Zle_Qle.
  - replace (Z.log2 m + e + 1)%Z with (Z.succ (Z.log2 m) + e)%Z by lia.
    rewrite pow2_add, (pow2_Z (Z.succ (Z.log2 m))) by lia.
    apply Qmult_lt_compat_r; [done|]. by rewrite <- Zlt_Qlt.
Qed.

(** Integers of at most 53 bits scaled by a power of two within the
    exponent range are binary64 values. *)
Lemma fl_pos_grid (m e : Z) :
  (0 < m <= 2 ^ 53)%Z → (-1074 <= e)%Z →
  fl_pos (inject_Z m * pow2 e) == inject_Z m * pow2 e.
Proof.
  intros [Hm Hm53] He.
  pose proof (Z.log2_spec m Hm) as [H1 H2].
  pose proof (Z.log2_nonneg m) as H0.
  assert (Hl : (Z.log2 m <= 53)%Z).
  { rewrite <- (Z.log2_pow2 53) by lia. by apply Z.log2_le_mono. }
  pose proof (pow2_pos e) as Hp.
  set (y := inject_Z m * pow2 e).
  assert (He' : exponent y = Z.max (Z.log2 m + e - 52) (-1074)).
  { unfold exponent, y. by rewrite ilog2_grid. }
  destruct (decide (Z.log2 m <= 52)%Z) as [Hs|Hs].
  - set (d := (e - exponent y)%Z).
    assert (Hd : (0 <= d)%Z) by (unfold d; lia).
    apply (fl_pos_exact y (m * 2 ^ d)).
    rewrite inject_Z_mult, <- (pow2_Z d) by done.
    assert (Hpe : pow2 e == pow2 d * pow2 (exponent y)).
    { rewrite <- pow2_add. by replace (d + exponent y)%Z with e by (unfold d; lia). }
    unfold y at 1. rewrite Hpe. field. apply pow2_nonzero.
  - assert (Hl53 : Z.log2 m = 53%Z) by lia. rewrite Hl53 in *.
    assert (m = 2 ^ 53)%Z by lia. subst m.
    apply (fl_pos_exact y (2 ^ 52)). rewrite He'.
    replace (Z.max (53 + e - 52) (-1074)) with (e + 1)%Z by lia.
    unfold y. rewrite (pow2_add e 1). change (pow2 1) with 2.
    assert (E53 : inject_Z (2 ^ 53) == 2 * inject_Z (2 ^ 52)) by done.
    rewrite E53. field. apply pow2_nonzero.
Qed.

Lemma fl_pos_idem (a : Q) :
  0 < a → fl_pos a == 0 ∨ (0 < fl_pos a ∧ fl_pos (fl_pos a) == fl_pos a).
Proof.
  intros Ha. pose proof (significand_bounds a Ha) as [H0 H53].
  destruct (decide (rne (a / pow2 (exponent a)) = 0%Z)) as [E|N].
  - left. unfold fl_pos. rewrite E. change (inject_Z 0) with 0. ring.
  - right. split.
    + unfold fl_pos. apply Qmult_lt_0_compat; [|apply pow2_pos].
      change 0 with (inject_Z 0). rewrite <- Zlt_Qlt. lia.
    + apply fl_pos_grid; [lia|apply exponent_ge].
Qed.

Lemma fl_pos_mono (x y : Q) : 0 < x → x <= y → fl_pos x <= fl_pos y.
Proof.
  intros Hx Hxy. assert (Hy : 0 < y) by lra.
  pose proof (ilog2_mono x y Hx Hxy) as Hl.
  pose proof (significand_bounds x Hx) as [_ Hmx].
  unfold fl_pos.
  destruct (decide (exponent x = exponent y)) as [E|N].
  - rewrite E. apply Qmult_le_compat_r; [|apply Qlt_le_weak, pow2_pos].
    rewrite <- Zle_Qle. apply rne_mono.
    apply Qmult_le_compat_r; [done|].
    apply Qlt_le_weak, Qinv_lt_0_compat, pow2_pos.
  - assert (Hey : exponent y = (ilog2 y - 52)%Z ∧ (exponent x < exponent y)%Z).
    { unfold exponent in *. lia. }
    destruct Hey as [Hey Hlt].
    assert (Hmy : (2 ^ 52 <= rne (y / pow2 (exponent y)))%Z).
    { apply rne_ge. apply Qle_shift_div_l; [apply pow2_pos|].
      destruct (ilog2_spec y Hy) as [H _].
      rewrite <- (pow2_Z 52), <- pow2_add by lia.
      by replace (52 + exponent y)%Z with (ilog2 y) by lia. }
    pose proof (pow2_pos (exponent x)) as Hpx.
    pose proof (pow2_pos (exponent y)) as Hpy.
    assert (H1 : inject_Z (rne (x / pow2 (exponent x))) * pow2 (exponent x)
                 <= pow2 (53 + exponent x)).
    { rewrite pow2_add, (pow2_Z 53) by lia.
      apply Qmult_le_compat_r; [|lra]. by rewrite <- Zle_Qle. }
    assert (H2 : pow2 (52 + exponent y)
                 <= inject_Z (rne (y / pow2 (exponent y))) * pow2 (exponent y)).
    { rewrite pow2_add, (pow2_Z 52) by lia.
      apply Qmult_le_compat_r; [|lra]. by rewrite <- Zle_Qle. }
    assert (H3 : pow2 (53 + exponent x) <= pow2 (52 + exponent y)).
    { apply pow2_le. lia. }
    lra.
Qed.

(** *** Rounding any number *)

Lemma fl_of_pos (x : Q) : 0 < x → fl x = fl_pos x.
Proof.
  destruct x as [[|n|n] d]; unfold Qlt; simpl; intros H; try lia. done.
Qed.

Lemma fl_of_neg (x : Q) : x < 0 → fl x = - fl_pos (- x).
Proof.
  destruct x as [[|n|n] d]; unfold Qlt; simpl; intros H; try lia. done.
Qed.

Lemma fl_of_zero (x : Q) : x == 0 → fl x = 0.
Proof.
  destruct x as [[|n|n] d]; unfold Qeq; simpl; intros H; try lia. done.
Qed.

Lemma sign_cases (x : Q) : x < 0 ∨ x == 0 ∨ 0 < x.
Proof. destruct (Q_dec x 0) as [[?|?]|?]; auto. Qed.

Global Instance fl_proper : Proper (Qeq ==> Qeq) fl.
Proof.
  intros x y H. destruct (sign_cases x) as [Hx|[Hx|Hx]].
  - assert (Hy : y < 0) by lra.
    rewrite (fl_of_neg x Hx), (fl_of_neg y Hy).
    apply Qopp_comp, fl_pos_proper; lra.
  - assert (Hy : y == 0) by lra.
    by rewrite (fl_of_zero x Hx), (fl_of_zero y Hy).
  - assert (Hy : 0 < y) by lra.
    rewrite (fl_of_pos x Hx), (fl_of_pos y Hy). by apply fl_pos_proper.
Qed.

Lemma u_pos : 0 < u.
Proof. apply pow2_pos. Qed.

Lemma eta_pos : 0 < eta.
Proof. apply pow2_pos. Qed.

(** The error of one rounding: relative [u], or absolute [eta] in the
    subnormal range. *)
Lemma fl_error (x : Q) : Qabs (fl x - x) <= u * Qabs x + eta.
Proof.
  pose proof u_pos. pose proof eta_pos.
  destruct (sign_cases x) as [Hx|[Hx|Hx]].
  - rewrite (fl_of_neg x Hx), (Qabs_neg x) by lra.
    pose proof (fl_pos_error (- x) ltac:(lra)) as He.
    apply Qabs_Qle_condition in He. apply Qabs_Qle_condition. lra.
  - rewrite (fl_of_zero x Hx), (Qabs_pos x) by lra.
    apply Qabs_Qle_condition.
    assert (0 <= u * x) by (rewrite Hx; lra). lra.
  - rewrite (fl_of_pos x Hx), (Qabs_pos x) by lra. by apply fl_pos_error.
Qed.

Lemma fl_nonneg (x : Q) : 0 <= x → 0 <= fl x.
Proof.
  intros H. destruct (sign_cases x) as [Hx|[Hx|Hx]]; [lra| |].
  - by rewrite (fl_of_zero x Hx).
  - rewrite (fl_of_pos x Hx). by apply fl_pos_nonneg.
Qed.

Lemma fl_nonpos (x : Q) : x <= 0 → fl x <= 0.
Proof.
  intros H. destruct (sign_cases x) as [Hx|[Hx|Hx]]; [| |lra].
  - rewrite (fl_of_neg x Hx).
    pose proof (fl_pos_nonneg (- x) ltac:(lra)). lra.
  - by rewrite (fl_of_zero x Hx).
Qed.

(** A binary64 value rounds to itself. *)
Lemma fl_idem (x : Q) : fl (fl x) == fl x.
Proof.
  destruct (sign_cases x) as [Hx|[Hx|Hx]].
  - rewrite (fl_of_neg x Hx).
    destruct (fl_pos_idem (- x) ltac:(lra)) as [E|[Hp E]].
    + assert (E' : - fl_pos (- x) == 0) by lra.
      by rewrite (fl_of_zero _ E'), E'.
    + rewrite (fl_of_neg (- fl_pos (- x))) by lra.
      apply Qopp_comp. rewrite <- E at 2. apply fl_pos_proper; lra.
  - by rewrite (fl_of_zero x Hx).
  - rewrite (fl_of_pos x Hx).
    destruct (fl_pos_idem x Hx) as [E|[Hp E]].
    + by rewrite (fl_of_zero _ E), E.
    + by rewrite (fl_of_pos _ Hp).
Qed.

(** Integers up to [2 ** 53] are binary64 values. *)
Lemma fl_Z (z : Z) : (Z.abs z <= 2 ^ 53)%Z → fl (inject_Z z) == inject_Z z.
Proof.
  intros Hz.
  assert (Hgrid : ∀ k : Z, (0 < k <= 2 ^ 53)%Z →
            fl_pos (inject_Z k) == inject_Z k).
  { intros k Hk. pose proof (fl_pos_grid k 0 Hk ltac:(lia)) as E.
    assert (E1 : inject_Z k * pow2 0 == inject_Z k).
    { change (pow2 0) with 1. ring. }
    rewrite <- E1 at 2. rewrite <- E. apply fl_pos_proper; [|lra].
    change 0 with (inject_Z 0). rewrite <- Zlt_Qlt. lia. }
  destruct (Z.lt_trichotomy z 0) as [H|[->|H]].
  - assert (Hq : inject_Z z < 0).
    { change 0 with (inject_Z 0). by rewrite <- Zlt_Qlt. }
    rewrite (fl_of_neg _ Hq).
    assert (E : - inject_Z z == inject_Z (- z)) by (rewrite inject_Z_opp; lra).
    assert (Hq' : 0 < - inject_Z z) by lra.
    rewrite (fl_pos_proper _ _ Hq' E), (Hgrid (- z)%Z) by lia.
    rewrite inject_Z_opp. lra.
  - done.
  - assert (Hq : 0 < inject_Z z).
    { change 0 with (inject_Z 0). by rewrite <- Zlt_Qlt. }
    rewrite (fl_of_pos _ Hq). apply Hgrid. lia.
Qed.

(** Rounding keeps the order. *)
Lemma fl_mono (x y : Q) : x <= y → fl x <= fl y.
Proof.
  intros H. destruct (sign_cases x) as [Hx|[Hx|Hx]].
  - destruct (Qlt_le_dec y 0) as [Hy|Hy].
    + rewrite (fl_of_neg x Hx), (fl_of_neg y Hy).
      pose proof (fl_pos_mono (- y) (- x) ltac:(lra) ltac:(lra)). lra.
    + pose proof (fl_nonpos x ltac:(lra)). pose proof (fl_nonneg y Hy). lra.
  - rewrite (fl_of_zero x Hx). apply fl_nonneg. lra.
  - assert (Hy : 0 < y) by lra.
    rewrite (fl_of_pos x Hx), (fl_of_pos y Hy). by apply fl_pos_mono.
Qed.

(** Rounding does not cross a binary64 value. *)
Lemma fl_le (x f : Q) : fl f == f → x <= f → fl x <= f.
Proof. intros Hf H. rewrite <- Hf. by apply fl_mono. Qed.

Lemma fl_ge (x f : Q) : fl f == f → f <= x → f <= fl x.
Proof. intros Hf H. rewrite <- Hf. by apply fl_mono. Qed.

(** The rounding agrees with the interpreter on sample values
    ([float.as_integer_ratio] of the quotient of two integers, of the
    conversion of an integer, of a product and of a sum), in the normal and
    in the subnormal range and at ties. *)
Example fl_examples :
  fl (1 # 10) == 3602879701896397 # 36028797018963968 ∧
  fl (1 # 13) == 1385722962267845 # 18014398509481984 ∧
  fl (1 # 3) == 6004799503160661 # 18014398509481984 ∧
  fl (- (1 # 3)) == - (6004799503160661 # 18014398509481984) ∧
  fl (inject_Z (2 ^ 53 + 1)) == inject_Z (2 ^ 53) ∧
  fl (inject_Z (2 ^ 53 + 3)) == inject_Z (2 ^ 53 + 4) ∧
  fl (inject_Z (2 ^ 60 + 2 ^ 7)) == inject_Z (2 ^ 60) ∧
  fl (inject_Z (2 ^ 60 + 2 ^ 7 + 1)) == inject_Z (2 ^ 60 + 2 ^ 8) ∧
  fl (inject_Z (2 ^ 60 + 3 * 2 ^ 7)) == inject_Z (2 ^ 60 + 2 ^ 9) ∧
  fl (inject_Z (10 ^ 18) / inject_Z (10 ^ 18 + 1)) == 1 ∧
  fl (1 / inject_Z (10 ^ 320)) == 253 * pow2 (-1071) ∧
  fl (3 * pow2 (-1075)) == pow2 (-1073) ∧
  fl (pow2 (-1075)) == 0 ∧
  fl (5 * pow2 (-1076)) == pow2 (-1074) ∧
  fl (1180 * fl (1 # 13)) == 1596829194800837 # 17592186044416 ∧
  fl (10 + fl (1180 * fl (1 # 13))) == 1772751055244997 # 17592186044416.
Proof. repeat split; by vm_compute. Qed.

(** [MIN_WIDTH_PX] is written [0.1] in the source, which is the binary64
    value next to one tenth; on binary64 values the comparison with it is
    the comparison with one tenth. *)
Lemma threshold_exact (x : Q) :
  fl x == x → x < fl (1 # 10) ↔ x < 1 # 10.
Proof.
  intros Hx.
  assert (H10 : 1 # 10 <= fl (1 # 10)) by (by vm_compute).
  split; [|lra]. intros H.
  destruct (Qlt_le_dec x (1 # 10)) as [|Hge]; [done|].
  pose proof (fl_mono _ _ Hge) as Hm. rewrite Hx in Hm. lra.
Qed.

Lemma u_le_1 : u <= 1.
Proof. change 1 with (pow2 0). by apply pow2_le. Qed.

Lemma mult_le_l (z x y : Q) : 0 <= z → x <= y → z * x <= z * y.
Proof.
  intros Hz H. rewrite (Qmult_comm z x), (Qmult_comm z y).
  by apply Qmult_le_compat_r.
Qed.

(** The error of [w * rho] computed with two roundings, one of [rho] and
    one of the product. *)
Lemma scaled_share_error (w rho : Q) :
  0 <= w → 0 <= rho →
  Qabs (fl (w * fl rho) - w * rho)
  <= 3 * u * (w * rho) + eta * (2 * w + 1).
Proof.
  intros Hw Hrho. pose proof u_pos as Hu. pose proof u_le_1 as Hu1.
  pose proof eta_pos as He.
  pose proof (fl_error rho) as Er. rewrite (Qabs_pos rho) in Er by done.
  apply Qabs_Qle_condition in Er as [Er1 Er2].
  pose proof (fl_nonneg rho Hrho) as Hr.
  set (r := fl rho) in *.
  assert (Hp : 0 <= w * r) by (by apply Qmult_le_0_compat).
  pose proof (fl_error (w * r)) as Ep. rewrite (Qabs_pos (w * r)) in Ep by done.
  apply Qabs_Qle_condition in Ep as [Ep1 Ep2].
  set (f := fl (w * r)) in *.
  assert (HA : 0 <= w * rho) by (by apply Qmult_le_0_compat).
  assert (HuA : 0 <= u * (w * rho)) by (apply Qmult_le_0_compat; lra).
  assert (Hew : 0 <= eta * w) by (apply Qmult_le_0_compat; lra).
  (* w * r against w * rho *)
  assert (P1 : w * r <= w * rho + u * (w * rho) + eta * w).
  { assert (w * r <= w * (rho + (u * rho + eta))).
    { apply mult_le_l; lra. }
    lra. }
  assert (P2 : w * rho - u * (w * rho) - eta * w <= w * r).
  { assert (w * (rho - (u * rho + eta)) <= w * r).
    { apply mult_le_l; lra. }
    lra. }
  (* u * (w * r) *)
  assert (U1 : u * (w * r) <= 2 * (u * (w * rho)) + eta * w).
  { assert (u * (w * r) <= u * (w * rho + u * (w * rho) + eta * w)).
    { apply mult_le_l; lra. }
    assert (u * (u * (w * rho)) <= 1 * (u * (w * rho))).
    { apply Qmult_le_compat_r; lra. }
    assert (u * (eta * w) <= 1 * (eta * w)).
    { apply Qmult_le_compat_r; lra. }
    lra. }
  assert (U0 : 0 <= u * (w * r)) by (apply Qmult_le_0_compat; lra).
  apply Qabs_Qle_condition. split; lra.
Qed.

Lemma fl_1 : fl 1 == 1.
Proof. apply (fl_Z 1). by vm_compute. Qed.

(** With a share of at most 1 the product stays within the binary64 value
    [w], exactly. *)
Lemma scaled_share_le (w rho : Q) :
  0 <= w → fl w == w → 0 <= rho → rho <= 1 → fl (w * fl rho) <= w.
Proof.
  intros Hw Hf H0 H1. apply fl_le; [done|].
  pose proof (fl_le rho 1 fl_1 H1) as Hr.
  pose proof (mult_le_l w (fl rho) 1 Hw Hr). lra.
Qed.

Lemma scaled_share_nonneg (w rho : Q) :
  0 <= w → 0 <= rho → 0 <= fl (w * fl rho).
Proof.
  intros Hw H0. apply fl_nonneg, Qmult_le_0_compat; [done|].
  by apply fl_nonneg.
Qed.

End Float64Facts.

Module ColorFacts.

Lemma trunc_bounds (x : Q) (k : Z) :
  (0 <= x)%Q → (x <= inject_Z k)%Q → 0 ≤ Py.trunc x ≤ k.
Proof.
  destruct x as [n d]. unfold Py.trunc, Qle; simpl. intros H0 Hk.
  rewrite Z.quot_div_nonneg by lia. split.
  - apply Z.div_pos; lia.
  - apply Z.div_le_upper_bound; lia.
Qed.

Lemma trunc_lower (x : Q) (k : Z) :
  (inject_Z k <= x)%Q → 0 ≤ k → k ≤ Py.trunc x.
Proof.
  destruct x as [n d]. unfold Py.trunc, Qle; simpl. intros Hk H0.
  rewrite Z.quot_div_nonneg by lia. apply Z.div_le_lower_bound; lia.
Qed.

Lemma ratio_bounds (z k : Z) :
  0 ≤ z ≤ k → 0 < k → (0 <= inject_Z z / inject_Z k <= 1)%Q.
Proof.
  intros Hz Hk.
  assert (Hk' : (0 < inject_Z k)%Q) by (unfold Qlt; simpl; lia).
  split.
  - apply Qle_shift_div_l; [done|]. unfold Qle; simpl. lia.
  - apply Qle_shift_div_r; [done|]. unfold Qle; simpl. lia.
Qed.

Lemma ltb_true (x y : Q) : Py.ltb x y = true ↔ (x < y)%Q.
Proof.
  unfold Py.ltb. rewrite negb_true_iff, <- not_true_iff_false, Qle_bool_iff.
  split; [apply Qnot_le_lt|apply Qlt_not_le].
Qed.

Lemma ltb_false (x y : Q) : Py.ltb x y = false ↔ (y <= x)%Q.
Proof. unfold Py.ltb. by rewrite negb_false_iff, Qle_bool_iff. Qed.

Section NameToColor.
Variable md5_hex8 : string → Z.

(** The three channels for one name, before [int()]. *)
Lemma name_to_color_channels (name : string) :
  ∃ rf gf bf : Q,
    Flamegraph.name_to_color md5_hex8 name
    = (Py.trunc rf, Py.trunc gf, Py.trunc bf) ∧
    (0 <= rf <= 255)%Q ∧ (0 <= gf <= 255)%Q ∧ (30 <= bf <= 85)%Q.
Proof.
  unfold Flamegraph.name_to_color.
  set (h := md5_hex8 name).
  set (hf := (inject_Z (h `mod` 60) / 60)%Q).
  set (s := (inject_Z (160 + (h ≫ 8) `mod` 55) / 255)%Q).
  set (v := (inject_Z (200 + (h ≫ 16) `mod` 56) / 255)%Q).
  set (ab := Qabs (if Qle_bool hf 1 then hf else (hf - 1)%Q)).
  assert (Hhf : (0 <= hf <= 1)%Q).
  { apply (ratio_bounds _ 60); [|done].
    pose proof (Z.mod_pos_bound h 60). lia. }
  assert (Hs : (0 <= s <= 1)%Q).
  { apply (ratio_bounds _ 255); [|done].
    pose proof (Z.mod_pos_bound (h ≫ 8) 55). lia. }
  assert (Hv : (0 <= v <= 1)%Q).
  { apply (ratio_bounds _ 255); [|done].
    pose proof (Z.mod_pos_bound (h ≫ 16) 56). lia. }
  assert (Hab : (0 <= ab <= 1)%Q).
  { split; [apply Qabs_nonneg|]. apply Qabs_Qle_condition.
    destruct (Qle_bool hf 1); split; lra. }
  assert (Hc : (0 <= v * s <= v)%Q) by nra.
  assert (Hx : (0 <= v * s * (1 - ab) <= v * s)%Q) by nra.
  destruct (Py.ltb hf 1); eexists _, _, _; (split; [reflexivity|]);
    repeat split; nra.
Qed.

Lemma name_to_color_range (name : string) :
  let '(r, g, b) := Flamegraph.name_to_color md5_hex8 name in
  0 ≤ r ≤ 255 ∧ 0 ≤ g ≤ 255 ∧ 30 ≤ b ≤ 85.
Proof.
  destruct (name_to_color_channels name)
    as (rf & gf & bf & -> & Hr & Hg & Hb).
  split; [|split].
  - apply trunc_bounds; [lra|]. change (inject_Z 255) with 255%Q. lra.
  - apply trunc_bounds; [lra|]. change (inject_Z 255) with 255%Q. lra.
  - split.
    + apply trunc_lower; [|lia]. change (inject_Z 30) with 30%Q. lra.
    + apply trunc_bounds; [lra|]. change (inject_Z 85) with 85%Q. lra.
Qed.

End NameToColor.

(** The rates of the differential palette as the specification words them:
    [count / total], and 0 when the total is 0. *)
Definition rate (count total : Z) : Q :=
  if total =? 0 then 0%Q else (inject_Z count / inject_Z total)%Q.

(** The cases of [delta_color]. *)
Lemma delta_color_cases (a b ta tb : Z) :
  0 ≤ ta → 0 ≤ tb →
  let diff := (rate b tb - rate a ta)%Q in
  Flamediff.delta_color a b ta tb = (200, 200, 200) ∨
  (¬ (ta = 0 ∧ tb = 0) ∧ (1 # 1000 <= Qabs diff)%Q ∧
   ∃ x y z, 0 ≤ x ≤ 55 ∧ 0 ≤ y ≤ 140 ∧ 0 ≤ z ≤ 80 ∧
     (((0 < diff)%Q ∧
       Flamediff.delta_color a b ta tb = (200 + x, 200 - y, 200 - y)) ∨
      ((diff <= 0)%Q ∧
       Flamediff.delta_color a b ta tb = (200 - y, 200 - z, 200 + x)))).
Proof.
  intros Hta Htb diff. unfold Flamediff.delta_color.
  destruct ((ta =? 0) && (tb =? 0)) eqn:Ezero; [by left|].
  assert (Hra : (if ta >? 0 then (inject_Z a / inject_Z ta)%Q else 0%Q)
                = rate a ta).
  { unfold rate. destruct (Z.eqb_spec ta 0) as [->|?]; [done|].
    by rewrite (proj2 (Z.gtb_gt _ _)) by lia. }
  assert (Hrb : (if tb >? 0 then (inject_Z b / inject_Z tb)%Q else 0%Q)
                = rate b tb).
  { unfold rate. destruct (Z.eqb_spec tb 0) as [->|?]; [done|].
    by rewrite (proj2 (Z.gtb_gt _ _)) by lia. }
  rewrite Hra, Hrb. fold diff.
  destruct (Py.ltb (Qabs diff) (1 # 1000)) eqn:Egray; [by left|].
  right. apply ltb_false in Egray.
  split; [intros [-> ->]; discriminate|]. split; [done|].
  set (i := Qmin (Qabs diff / (3 # 10)) 1).
  assert (Hi : (0 <= i <= 1)%Q).
  { split; [|apply Q.le_min_r]. apply Q.min_glb; [|done].
    apply Qle_shift_div_l; [done|]. pose proof (Qabs_nonneg diff). lra. }
  exists (Py.trunc (55 * i)), (Py.trunc (140 * i)), (Py.trunc (80 * i)).
  assert (H55 : 0 ≤ Py.trunc (55 * i) ≤ 55).
  { apply trunc_bounds; [lra|]. change (inject_Z 55) with 55%Q. lra. }
  assert (H140 : 0 ≤ Py.trunc (140 * i) ≤ 140).
  { apply trunc_bounds; [lra|]. change (inject_Z 140) with 140%Q. lra. }
  assert (H80 : 0 ≤ Py.trunc (80 * i) ≤ 80).
  { apply trunc_bounds; [lra|]. change (inject_Z 80) with 80%Q. lra. }
  repeat (split; [done|]).
  destruct (Py.ltb 0 diff) eqn:Epos.
  - left. apply ltb_true in Epos. split; [done|]. repeat f_equal; lia.
  - right. apply ltb_false in Epos. split; [done|]. repeat f_equal; lia.
Qed.

(** C5: for non-negative [a], [b], [totalA], [totalB], [delta_color] returns
    the neutral gray when both totals are 0 and when the two rates differ by
    less than 0.001; when the after rate exceeds the before rate by at least
    0.001 the red channel is at least the green and the blue one; when the
    before rate exceeds the after rate by at least 0.001 the blue channel is
    at least the other two; and every channel lies in [0,255]. *)
Theorem delta_color_thresholds (a b totalA totalB : Z) :
  0 ≤ a → 0 ≤ b → 0 ≤ totalA → 0 ≤ totalB →
  let rate_a := rate a totalA in
  let rate_b := rate b totalB in
  let '(r, g, bl) := Flamediff.delta_color a b totalA totalB in
  (totalA = 0 → totalB = 0 → (r, g, bl) = (200, 200, 200)) ∧
  ((Qabs (rate_a - rate_b) < 1 # 1000)%Q → (r, g, bl) = (200, 200, 200)) ∧
  ((rate_a + (1 # 1000) <= rate_b)%Q → g ≤ r ∧ bl ≤ r) ∧
  ((rate_b + (1 # 1000) <= rate_a)%Q → r ≤ bl ∧ g ≤ bl) ∧
  (0 ≤ r ≤ 255 ∧ 0 ≤ g ≤ 255 ∧ 0 ≤ bl ≤ 255).
Proof.
  intros Ha Hb Hta Htb rate_a rate_b.
  destruct (delta_color_cases a b totalA totalB Hta Htb)
    as [->|(Hnz & Hbig & x & y & z & Hx & Hy & Hz & Hcase)].
  { repeat split; lia. }
  fold rate_a rate_b in Hbig, Hcase.
  assert (Habs : Qabs (rate_a - rate_b) = Qabs (rate_b - rate_a))
    by apply Qabs_Qminus.
  destruct Hcase as [[Hpos ->]|[Hneg ->]].
  - split; [intros; tauto|]. split; [intros Hlt; rewrite Habs in Hlt; lra|].
    split; [intros _; lia|]. split; [intros Hle; lra|lia].
  - split; [intros; tauto|]. split; [intros Hlt; rewrite Habs in Hlt; lra|].
    split; [|split; [intros _; lia|lia]].
    intros Hle. exfalso.
    rewrite Qabs_neg in Hbig by done. lra.
Qed.

Lemma delta_color_thresholds_witness :
  Flamediff.delta_color 10 60 100 100 = (255, 60, 60) ∧ 60 ≤ 255 ∧
  Flamediff.delta_color 100 50 100 50 = (200, 200, 200).
Proof.
  pose proof (delta_color_thresholds 10 60 100 100) as H1.
  pose proof (delta_color_thresholds 100 50 100 50) as H2.
  split; [reflexivity|]. split.
  - apply (proj1 (proj1 (proj2 (proj2
      (H1 ltac:(lia) ltac:(lia) ltac:(lia) ltac:(lia)))) ltac:(by vm_compute))).
  - apply (proj1 (proj2 (H2 ltac:(lia) ltac:(lia) ltac:(lia) ltac:(lia)))).
    by vm_compute.
Defined.

End ColorFacts.

(** ** Rendering *)

Module RenderFacts.
Import Flamegraph.

(** The frames rendered below a parent, for a list of its children laid out
    from [child_x]. *)
Fixpoint layout_below (parent : Frame) (x_width : Q) (depth : Z)
    (ks : list Frame) (child_x : Q) : list (Frame * Z * Q * Q) :=
  match ks with
  | [] => []
  | child :: ks' =>
      let w := child_w x_width parent child in
      layout child (depth + 1) child_x w
      ++ layout_below parent x_width depth ks' (Float64.fl (child_x + w))
  end.

Lemma layout_unfold (frame : Frame) depth x_left x_width :
  layout frame depth x_left x_width
  = if Py.ltb x_width MIN_WIDTH_PX then []
    else (frame, depth, x_left, x_width)
         :: layout_below frame x_width depth (Tree.children frame) x_left.
Proof.
  destruct frame as [nm d ks]; cbn [layout Tree.children].
  destruct (Py.ltb _ _); [done|]. f_equal.
  set (parent := Tree.Node nm d ks). clearbody parent.
  revert x_left. induction ks as [|k ks' IH]; intros x; [done|].
  cbn [layout_below]. by rewrite IH.
Qed.

Section Output.
Variable md5_hex8 : string → Z.
Variable fmt1 : Q → string.

Lemma markups_app l1 l2 h total fid :
  markups md5_hex8 fmt1 (l1 ++ l2) h total fid
  = markups md5_hex8 fmt1 l1 h total fid
    ++ markups md5_hex8 fmt1 l2 h total (fid + Z.of_nat (length l1)).
Proof.
  revert fid. induction l1 as [|[[[f d] x] w] l1 IH]; intros fid.
  - cbn [markups app length]. by rewrite Z.add_0_r.
  - cbn [markups app length]. rewrite IH, <- app_assoc, Nat2Z.inj_succ.
    by replace (fid + 1 + Z.of_nat (length l1))
      with (fid + Z.succ (Z.of_nat (length l1))) by lia.
Qed.

(** One turn of the loop over the children, lines 183-187. *)
Definition render_step (parent : Frame) (x_width : Q) (depth h total : Z)
    : list string * Q * Z → Frame → list string * Q * Z :=
  λ '(out, child_x, frame_id_counter) child,
    let w := child_w x_width parent child in
    let '(out, frame_id_counter) :=
      render_frame md5_hex8 fmt1 out child (depth + 1) child_x w h total
        frame_id_counter in
    (out, Float64.fl (child_x + w), frame_id_counter).

Lemma render_frame_unfold (frame : Frame) out depth x_left x_width h total fid :
  render_frame md5_hex8 fmt1 out frame depth x_left x_width h total fid
  = if Py.ltb x_width MIN_WIDTH_PX then (out, fid)
    else
      let '(out', _, fid') :=
        fold_left (render_step frame x_width depth h total)
          (Tree.children frame)
          (out ++ frame_markup md5_hex8 fmt1 frame depth x_left x_width h total fid,
           x_left, fid + 1) in
      (out', fid').
Proof. destruct frame as [nm d ks]. reflexivity. Qed.

(** What a frame writes is the markup of its layout. *)
Definition writes_layout (k : Frame) (h total : Z) : Prop :=
  ∀ out depth x w fid,
    render_frame md5_hex8 fmt1 out k depth x w h total fid
    = (out ++ markups md5_hex8 fmt1 (layout k depth x w) h total fid,
       fid + Z.of_nat (length (layout k depth x w))).

Lemma render_step_layout parent x_width depth h total out child_x fid k :
  writes_layout k h total →
  render_step parent x_width depth h total (out, child_x, fid) k
  = (out ++ markups md5_hex8 fmt1
              (layout k (depth + 1) child_x (child_w x_width parent k)) h total fid,
     Float64.fl (child_x + child_w x_width parent k),
     fid + Z.of_nat (length (layout k (depth + 1) child_x
                           (child_w x_width parent k)))).
Proof. intros Hk. unfold render_step. by rewrite Hk. Qed.

Lemma render_children_layout (parent : Frame) x_width depth h total ks :
  Forall (λ k, writes_layout k h total) ks →
  ∀ out child_x fid, ∃ x_end,
    fold_left (render_step parent x_width depth h total) ks (out, child_x, fid)
    = (out ++ markups md5_hex8 fmt1
                (layout_below parent x_width depth ks child_x) h total fid,
       x_end,
       fid + Z.of_nat (length (layout_below parent x_width depth ks child_x))).
Proof.
  induction 1 as [|k ks Hk _ IH]; intros out child_x fid.
  - exists child_x. cbn [fold_left layout_below markups length].
    by rewrite app_nil_r, Z.add_0_r.
  - cbn [fold_left layout_below]. rewrite render_step_layout by done.
    edestruct IH as [x_end ->]. exists x_end.
    rewrite markups_app, <- app_assoc, length_app, Nat2Z.inj_add.
    by rewrite Z.add_assoc.
Qed.

(** What [render_frame] writes is the markup of the frames of [layout], in
    that order, numbered from the frame id it is given; it returns the next
    free id. *)
Lemma render_frame_layout (frame : Frame) h total : writes_layout frame h total.
Proof.
  induction frame as [nm d ks IH] using Tree.t_ind.
  intros out depth x_left x_width fid.
  rewrite layout_unfold, render_frame_unfold.
  destruct (Py.ltb x_width MIN_WIDTH_PX).
  - cbn [markups length]. by rewrite app_nil_r, Z.add_0_r.
  - edestruct (render_children_layout (Tree.Node nm d ks) x_width depth h total
                 ks IH) as [x_end ->].
    cbn [markups length Tree.children].
    rewrite <- app_assoc, Nat2Z.inj_succ. f_equal. lia.
Qed.

End Output.

(** *** Properties of every node, before and after the sort *)

(** [Q] holds at every node of the tree. *)
Definition everywhere (Q : Frame → Prop) (root : Frame) : Prop :=
  ∀ n, n ∈ Tree.nodes root → Q n.

Lemma everywhere_node Q nm d ks :
  everywhere Q (Tree.Node nm d ks)
  ↔ Q (Tree.Node nm d ks) ∧ Forall (everywhere Q) ks.
Proof.
  unfold everywhere; simpl. rewrite Forall_forall. split.
  - intros H. split; [apply H; left|].
    intros k Hk n Hn. apply H. right. apply list_elem_of_In, in_flat_map.
    exists k. by rewrite <- !list_elem_of_In.
  - intros [H0 Hks] n [->|Hn]%elem_of_cons; [done|].
    apply list_elem_of_In, in_flat_map in Hn as (k & Hk & Hn).
    apply (Hks k); by apply list_elem_of_In.
Qed.

Lemma insert_by_name_perm (x : Frame) l : Tree.insert_by_name x l ≡ₚ x :: l.
Proof.
  induction l as [|y l IH]; simpl; [done|].
  destruct (String.compare _ _); [done..|]. rewrite IH. apply perm_swap.
Qed.

Lemma sort_by_name_perm (l : list Frame) : Tree.sort_by_name l ≡ₚ l.
Proof.
  induction l as [|x l IH]; simpl; [done|].
  by rewrite insert_by_name_perm, IH.
Qed.

Lemma count_sort_children (n : Frame) : count (Tree.sort_children n) = count n.
Proof. by destruct n. Qed.

Lemma self_count_sort_children (n : Frame) :
  self_count (Tree.sort_children n) = self_count n.
Proof. by destruct n. Qed.

Lemma sum_count_perm (l l' : list Frame) :
  l ≡ₚ l' → FlamegraphFacts.sum_count l = FlamegraphFacts.sum_count l'.
Proof.
  induction 1 as [|x l l' _ IH|x y l|l1 l2 l3 _ IH1 _ IH2]; simpl; lia.
Qed.

Lemma sum_count_sorted (ks : list Frame) :
  FlamegraphFacts.sum_count (Tree.sort_by_name (map Tree.sort_children ks))
  = FlamegraphFacts.sum_count ks.
Proof.
  rewrite (sum_count_perm _ _ (sort_by_name_perm _)).
  induction ks as [|k ks IH]; [done|].
  change (FlamegraphFacts.sum_count (map Tree.sort_children (k :: ks)))
    with (count (Tree.sort_children k)
          + FlamegraphFacts.sum_count (map Tree.sort_children ks)).
  by rewrite IH, count_sort_children.
Qed.

(** A property of a node that reads its counters and its children up to
    their order holds everywhere after the sort if it did before. *)
Lemma everywhere_sort_children (Q : Frame → Prop) (root : Frame) :
  (∀ nm d ks, Q (Tree.Node nm d ks) →
     Q (Tree.Node nm d (Tree.sort_by_name (map Tree.sort_children ks)))) →
  everywhere Q root → everywhere Q (sort_children root).
Proof.
  intros HQ. induction root as [nm d ks IH] using Tree.t_ind.
  intros [H0 Hks]%everywhere_node.
  change (sort_children (Tree.Node nm d ks))
    with (Tree.Node nm d (Tree.sort_by_name (map Tree.sort_children ks))).
  apply everywhere_node. split; [by apply HQ|].
  rewrite sort_by_name_perm. apply Forall_fmap.
  rewrite Forall_forall in IH, Hks. apply Forall_forall.
  intros k Hk. apply (IH k Hk), (Hks k Hk).
Qed.

(** Counts are not negative, and positive at a node that has children. *)
Definition positive (n : Frame) : Prop :=
  0 ≤ count n ∧ (Tree.children n ≠ [] → 0 < count n).

Lemma Forall_with_child (P : Frame → Prop) nm g (ks : list Frame) :
  (∀ x, P x → P (g x)) → P (g (new_Frame nm)) →
  Forall P ks → Forall P (Tree.with_child (Counters 0 0) nm g ks).
Proof.
  intros Hg Hnew. induction 1 as [|k ks Hk Hks IH]; simpl.
  - by repeat constructor.
  - destruct (String.eqb (Tree.name k) nm); constructor; auto.
Qed.

Lemma descend_positive c funcs (n : Frame) :
  0 < c → 0 < count n → Forall (everywhere positive) (Tree.children n) →
  everywhere positive
    (Tree.descend (Counters 0 0) (add_count c) (add_self_count c) funcs n).
Proof.
  intros Hc. revert n.
  induction funcs as [|func rest IH]; intros [nm [cnt slf] ks];
    unfold count; simpl; intros Hn Hks.
  - apply everywhere_node. split; [|done]. unfold positive, count; simpl. lia.
  - apply everywhere_node. split; [unfold positive, count; simpl; lia|].
    apply Forall_with_child; [| |done].
    + intros [xn [xc xs] xks] [[Hx _] Hxks]%everywhere_node.
      apply IH; [|done]. revert Hx. unfold count; simpl. lia.
    + apply IH; [|by constructor]. unfold count; simpl. lia.
Qed.

Lemma add_stack_positive c funcs (root : Frame) :
  0 < c → everywhere positive root →
  everywhere positive
    (Tree.add_stack (Counters 0 0) (add_count c) (add_self_count c) funcs root).
Proof.
  intros Hc. destruct root as [nm [cnt slf] ks].
  intros [[H0 _] Hks]%everywhere_node.
  apply descend_positive; [done| |done]. revert H0. unfold count; simpl. lia.
Qed.

Lemma fold_add_entry_positive es st :
  Forall (λ e : string * Z, 0 < e.2) es → everywhere positive st.1 →
  everywhere positive (fold_left FlamegraphFacts.add_entry es st).1.
Proof.
  intros Hes. revert st. induction Hes as [|e es He _ IH]; intros st Hst; [done|].
  apply IH. by apply add_stack_positive.
Qed.

(** Every node of the sorted tree of a parsed input is consistent and
    positive. *)
Lemma parse_folded_sorted (lines : list string) :
  ∃ root total,
    parse_folded lines = Ok (root, total) ∧
    everywhere (λ n, FlamegraphFacts.consistent n ∧ positive n)
      (sort_children root).
Proof.
  destruct (FlamegraphFacts.parse_folded_inclusive_nodes lines)
    as (root & total & Hparse & Hcons).
  exists root, total. split; [done|].
  assert (Hpos : everywhere positive root).
  { rewrite FlamegraphFacts.parse_folded_fold in Hparse.
    injection Hparse as Hfold. change root with (root, total).1.
    rewrite <- Hfold. apply fold_add_entry_positive.
    - apply Forall_forall. intros [s c] (l & _ & Hl)%list_elem_of_omap.
      by apply (entry_count_positive l s c).
    - intros n [->|Hn]%elem_of_cons; [|by apply elem_of_nil in Hn].
      split; [done|]. by intros []. }
  intros n Hn. split.
  - revert n Hn. apply everywhere_sort_children; [|done].
    intros nm d ks. unfold FlamegraphFacts.consistent; simpl.
    unfold count, self_count; simpl. by rewrite sum_count_sorted.
  - revert n Hn. apply everywhere_sort_children; [|done].
    intros nm d ks [H0 H1]. split; [done|]. simpl in *. intros Hne. apply H1.
    intros ->. by apply Hne.
Qed.

(** *** The geometry of the rendered frames *)

Lemma layout_below_in parent x_width depth ks :
  Forall (λ k : Frame, ∀ n d x w d0 x0 w0,
            (n, d, x, w) ∈ layout k d0 x0 w0 →
            n ∈ Tree.nodes k ∧ (MIN_WIDTH_PX <= w)%Q) ks →
  ∀ n d x w child_x,
    (n, d, x, w) ∈ layout_below parent x_width depth ks child_x →
    (∃ k, k ∈ ks ∧ n ∈ Tree.nodes k) ∧ (MIN_WIDTH_PX <= w)%Q.
Proof.
  induction 1 as [|k ks Hk _ IH]; intros n d x w child_x Hin.
  - by apply elem_of_nil in Hin.
  - cbn [layout_below] in Hin. apply elem_of_app in Hin as [Hin|Hin].
    + destruct (Hk _ _ _ _ _ _ _ Hin) as [Hn Hw]. split; [|done].
      exists k. split; [by left|done].
    + destruct (IH _ _ _ _ _ Hin) as [(k' & Hk' & Hn) Hw]. split; [|done].
      exists k'. split; [by right|done].
Qed.

(** A rendered frame is a node of the tree, and is at least as wide as the
    threshold. *)
Lemma layout_in (t : Frame) :
  ∀ n d x w d0 x0 w0,
    (n, d, x, w) ∈ layout t d0 x0 w0 →
    n ∈ Tree.nodes t ∧ (MIN_WIDTH_PX <= w)%Q.
Proof.
  induction t as [nm dt ks IH] using Tree.t_ind.
  intros n d x w d0 x0 w0. rewrite layout_unfold.
  destruct (Py.ltb w0 MIN_WIDTH_PX) eqn:E.
  { intros Hin. by apply elem_of_nil in Hin. }
  apply ColorFacts.ltb_false in E.
  intros [[= -> -> -> ->]|Hin]%elem_of_cons.
  - split; [by left|done].
  - destruct (layout_below_in _ _ _ _ IH _ _ _ _ _ Hin)
      as [(k & Hk & Hn) Hw].
    split; [|done]. cbn [Tree.nodes]. right.
    apply list_elem_of_In, in_flat_map. exists k.
    by rewrite <- !list_elem_of_In.
Qed.

(** *** The widths of the children *)

Lemma everywhere_children (Q : Frame → Prop) (t : Frame) :
  everywhere Q t → everywhere (λ n, Q n ∧ Forall Q (Tree.children n)) t.
Proof.
  induction t as [nm d ks IH] using Tree.t_ind.
  rewrite !everywhere_node. cbn [Tree.children].
  intros [H0 Hks]. split; [split; [done|]|].
  - eapply Forall_impl; [exact Hks|]. intros [kn kd kks].
    by intros [? _]%everywhere_node.
  - rewrite Forall_forall in IH, Hks. apply Forall_forall.
    intros k Hk. by apply IH, Hks.
Qed.

(** The width of a child is a binary64 value. *)
Lemma child_w_float (x_width : Q) (parent child : Frame) :
  (Float64.fl (child_w x_width parent child) == child_w x_width parent child)%Q.
Proof.
  unfold child_w. destruct (count parent >? 0); [|done].
  apply Float64Facts.fl_idem.
Qed.

Lemma layout_below_float parent x_width depth ks :
  Forall (λ k : Frame, ∀ n d x w d0 x0 w0,
            (n, d, x, w) ∈ layout k d0 x0 w0 →
            (Float64.fl w0 == w0)%Q → (Float64.fl w == w)%Q) ks →
  ∀ n d x w child_x,
    (n, d, x, w) ∈ layout_below parent x_width depth ks child_x →
    (Float64.fl w == w)%Q.
Proof.
  induction 1 as [|k ks Hk _ IH]; intros n d x w child_x Hin.
  - by apply elem_of_nil in Hin.
  - cbn [layout_below] in Hin. apply elem_of_app in Hin as [Hin|Hin].
    + apply (Hk _ _ _ _ _ _ _ Hin), child_w_float.
    + apply (IH _ _ _ _ _ Hin).
Qed.

(** Rendered from a binary64 width, every frame has a binary64 width. *)
Lemma layout_float (t : Frame) :
  ∀ n d x w d0 x0 w0,
    (n, d, x, w) ∈ layout t d0 x0 w0 →
    (Float64.fl w0 == w0)%Q → (Float64.fl w == w)%Q.
Proof.
  induction t as [nm dt ks IH] using Tree.t_ind.
  intros n d x w d0 x0 w0. rewrite layout_unfold.
  destruct (Py.ltb w0 MIN_WIDTH_PX).
  { intros Hin. by apply elem_of_nil in Hin. }
  intros [[= -> -> -> ->]|Hin]%elem_of_cons Hw0; [done|].
  apply (layout_below_float _ _ _ _ IH _ _ _ _ _ Hin).
Qed.

(** The share of a frame's width that goes to a child. *)
Definition share (n k : Frame) : Q :=
  (inject_Z (count k) / inject_Z (count n))%Q.

Lemma child_w_share (w : Q) (n k : Frame) :
  0 < count n → (Float64.fl w == w)%Q →
  (child_w w n k == Float64.fl (w * Float64.fl (share n k)))%Q.
Proof.
  intros Hn Hw. unfold child_w, share.
  rewrite (proj2 (Z.gtb_gt _ _)) by lia.
  apply Float64Facts.fl_proper. by rewrite Hw.
Qed.

(** The error of the exact sum [s] of the widths of [n] children of a frame
    of width [w] against the exact value [t]: three roundings, and the
    absolute error of the roundings that underflow. *)
Definition rounding_error (n : nat) (w s t : Q) : Prop :=
  (Qabs (s - t)
   <= 3 * Float64.u * t
      + inject_Z (Z.of_nat n) * (Float64.eta * (2 * w + 1)))%Q.

(** [s] is [t] within floating-point tolerance, for the sum of the widths
    of [n] children of a frame of width [w]: a relative error of [n + 3]
    roundings, which leaves room for adding the [n] widths in binary64, and
    the absolute error of the roundings that underflow. *)
Definition within_tolerance (n : nat) (w s t : Q) : Prop :=
  (Qabs (s - t)
   <= (inject_Z (Z.of_nat n) + 3) * Float64.u * t
      + inject_Z (Z.of_nat n) * (Float64.eta * (2 * w + 1)))%Q.

Lemma rounding_error_within (n : nat) (w s t : Q) :
  (0 <= t)%Q → rounding_error n w s t → within_tolerance n w s t.
Proof.
  unfold rounding_error, within_tolerance. intros Ht H.
  pose proof Float64Facts.u_pos as Hu.
  assert (Hn : (0 <= inject_Z (Z.of_nat n))%Q).
  { change 0%Q with (inject_Z 0). rewrite <- Zle_Qle. lia. }
  assert (Hut : (0 <= Float64.u * t)%Q) by (apply Qmult_le_0_compat; lra).
  assert (Hnut : (0 <= inject_Z (Z.of_nat n) * (Float64.u * t))%Q)
    by (by apply Qmult_le_0_compat).
  assert (E : ((inject_Z (Z.of_nat n) + 3) * Float64.u * t
               == inject_Z (Z.of_nat n) * (Float64.u * t)
                  + 3 * Float64.u * t)%Q) by ring.
  rewrite E. lra.
Qed.

Lemma sum_count_nonneg (ks : list Frame) :
  Forall (λ k, 0 ≤ count k) ks → 0 ≤ FlamegraphFacts.sum_count ks.
Proof. induction 1 as [|k ks Hk _ IH]; simpl; lia. Qed.

Lemma sum_w_error (w : Q) (n : Frame) (ks : list Frame) :
  (0 <= w)%Q → (Float64.fl w == w)%Q → 0 < count n →
  Forall (λ k, 0 ≤ count k) ks →
  rounding_error (length ks) w
    (foldr (λ child acc, (child_w w n child + acc)%Q) 0%Q ks)
    (w * (inject_Z (FlamegraphFacts.sum_count ks) / inject_Z (count n))).
Proof.
  intros Hw Hf Hn. unfold rounding_error.
  assert (Hc : ¬ (inject_Z (count n) == 0)%Q).
  { unfold Qeq; simpl. lia. }
  pose proof Float64Facts.u_pos as Hu. pose proof Float64Facts.eta_pos as He.
  induction ks as [|k ks IH]; intros Hks.
  - cbn [foldr FlamegraphFacts.sum_count length]. apply Qabs_Qle_condition.
    change (inject_Z 0) with 0%Q. split; unfold Qdiv; ring_simplify; lra.
  - apply Forall_cons in Hks as [Hk Hks]. specialize (IH Hks).
    change (FlamegraphFacts.sum_count (k :: ks))
      with (count k + FlamegraphFacts.sum_count ks).
    cbn [foldr length]. rewrite Nat2Z.inj_succ. unfold Z.succ.
    rewrite !inject_Z_plus. change (inject_Z 1) with 1%Q.
    rewrite (child_w_share w n k Hn Hf).
    assert (Hs : (0 <= share n k)%Q).
    { unfold share. apply Qle_shift_div_l; [unfold Qlt; simpl; lia|].
      unfold Qle; simpl. lia. }
    pose proof (Float64Facts.scaled_share_error w (share n k) Hw Hs) as Ek.
    unfold share in *.
    apply Qabs_Qle_condition in Ek as [Ek1 Ek2].
    apply Qabs_Qle_condition in IH as [IH1 IH2].
    set (a := inject_Z (count k)) in *.
    set (b := inject_Z (FlamegraphFacts.sum_count ks)) in *.
    set (c := inject_Z (count n)) in *.
    assert (E : (w * ((a + b) / c) == w * (a / c) + w * (b / c))%Q)
      by (field; done).
    rewrite E. apply Qabs_Qle_condition.
    set (wk := Float64.fl (w * Float64.fl (a / c))) in *.
    set (rest := foldr (λ child acc, (child_w w n child + acc)%Q) 0%Q ks) in *.
    set (m := inject_Z (Z.of_nat (length ks))) in *.
    set (h := (Float64.eta * (2 * w + 1))%Q) in *.
    set (A := (w * (a / c))%Q) in *. set (B := (w * (b / c))%Q) in *.
    set (uA := (Float64.u * A)%Q) in *. set (uB := (Float64.u * B)%Q) in *.
    assert (E1 : (3 * Float64.u * A == 3 * uA)%Q) by (unfold uA; ring).
    assert (E2 : (3 * Float64.u * B == 3 * uB)%Q) by (unfold uB; ring).
    assert (E3 : (3 * Float64.u * (A + B) == 3 * uA + 3 * uB)%Q)
      by (unfold uA, uB; ring).
    assert (E4 : ((m + 1) * h == m * h + h)%Q) by ring.
    rewrite E1 in Ek1, Ek2. rewrite E2 in IH1, IH2. rewrite E3, E4.
    set (mh := (m * h)%Q) in *.
    split; lra.
Qed.

Lemma sum_child_w_error (w : Q) (n : Frame) :
  (0 <= w)%Q → (Float64.fl w == w)%Q → 0 < count n →
  Forall (λ k, 0 ≤ count k) (Tree.children n) →
  rounding_error (length (Tree.children n)) w (sum_child_w w n)
    (w * (inject_Z (FlamegraphFacts.sum_count (Tree.children n))
          / inject_Z (count n))).
Proof. intros Hw Hf Hn Hks. by apply sum_w_error. Qed.

(** What holds of the widths of the children of one rendered frame. *)
Definition widths_of_children (n : Frame) (w : Q) : Prop :=
  (Tree.children n = [] → (sum_child_w w n == 0)%Q) ∧
  (Tree.children n ≠ [] →
   0 < count n ∧
   within_tolerance (length (Tree.children n)) w (sum_child_w w n)
     (w * (inject_Z (count n - self_count n) / inject_Z (count n))) ∧
   (self_count n = 0 →
    within_tolerance (length (Tree.children n)) w (sum_child_w w n) w)).

Lemma widths_of_consistent (n : Frame) (w : Q) :
  FlamegraphFacts.consistent n → positive n →
  Forall (λ k, 0 ≤ count k) (Tree.children n) →
  (MIN_WIDTH_PX <= w)%Q → (Float64.fl w == w)%Q →
  widths_of_children n w.
Proof.
  intros Hc [_ Hp] Hks Hw Hf. split.
  - intros Hnil. unfold sum_child_w. by rewrite Hnil.
  - intros Hne. specialize (Hp Hne).
    assert (Hw0 : (0 <= w)%Q) by (unfold MIN_WIDTH_PX in Hw; lra).
    pose proof (sum_child_w_error w n Hw0 Hf Hp Hks) as Hsum.
    pose proof (sum_count_nonneg _ Hks) as Hnn.
    replace (FlamegraphFacts.sum_count (Tree.children n))
      with (count n - self_count n) in Hsum, Hnn
      by (unfold FlamegraphFacts.consistent in Hc; lia).
    assert (Ht : (0 <= w * (inject_Z (count n - self_count n)
                            / inject_Z (count n)))%Q).
    { apply Qmult_le_0_compat; [done|].
      apply Qle_shift_div_l; [unfold Qlt; simpl; lia|].
      unfold Qle; simpl. lia. }
    split; [done|]. split; [by apply rounding_error_within|]. intros Hself.
    apply rounding_error_within; [done|].
    rewrite Hself, Z.sub_0_r in Hsum. unfold rounding_error in *.
    assert (E : (w * (inject_Z (count n) / inject_Z (count n)) == w)%Q).
    { field. unfold Qeq; simpl. lia. }
    by rewrite E in Hsum.
Qed.

(** C6, as amended: in single-profile mode, for every frame that
    [render_frame] renders from a canvas width that is a binary64 value, the
    widths it gives to the frame's immediate children sum, within
    floating-point tolerance, to the frame's width times
    [(count - self_count) / count]; that is the frame's own width when the
    frame's self count is 0; a frame without children gives no width.  The
    sum is the exact sum of the binary64 widths; the tolerance leaves room
    for adding them in binary64. *)
Theorem children_widths_sum (lines : list string) (width : Z) :
  width - 2 * MARGIN ≤ 2 ^ 53 →
  ∃ root total,
    parse_folded lines = Ok (root, total) ∧
    ∀ n depth x w,
      (n, depth, x, w)
        ∈ layout (sort_children root) 0 (inject_Z MARGIN)
            (inject_Z (width - 2 * MARGIN)) →
      (Tree.children n = [] → (sum_child_w w n == 0)%Q) ∧
      (Tree.children n ≠ [] →
       0 < count n ∧
       within_tolerance (length (Tree.children n)) w (sum_child_w w n)
         (w * (inject_Z (count n - self_count n) / inject_Z (count n))) ∧
       (self_count n = 0 →
        within_tolerance (length (Tree.children n)) w (sum_child_w w n) w)).
Proof.
  intros Hwidth.
  destruct (parse_folded_sorted lines) as (root & total & Hparse & Hall).
  exists root, total. split; [done|]. intros n depth x w Hin.
  apply everywhere_children in Hall.
  pose proof (layout_in _ _ _ _ _ _ _ _ Hin) as [Hn Hw].
  destruct (Hall n Hn) as [[Hc Hp] Hks].
  apply widths_of_consistent; [done|done| |done|].
  - eapply Forall_impl; [exact Hks|]. by intros k [_ [? _]].
  - apply (layout_float _ _ _ _ _ _ _ _ Hin).
    destruct (Z.le_gt_cases 0 (width - 2 * MARGIN)) as [H0|H0].
    + apply Float64Facts.fl_Z. lia.
    + exfalso. revert Hin. rewrite layout_unfold.
      assert (Hlt : Py.ltb (inject_Z (width - 2 * MARGIN)) MIN_WIDTH_PX = true).
      { apply ColorFacts.ltb_true. unfold MIN_WIDTH_PX, Qlt; simpl. lia. }
      rewrite Hlt. intros H. by apply elem_of_nil in H.
Qed.

Lemma children_widths_sum_witness :
  ∃ root total,
    parse_folded ["a;b 5"; "a;c 5"] = Ok (root, total) ∧
    ∀ n depth x w,
      (n, depth, x, w)
        ∈ layout (sort_children root) 0 (inject_Z MARGIN)
            (inject_Z (1200 - 2 * MARGIN)) →
      (Tree.children n = [] → (sum_child_w w n == 0)%Q) ∧
      (Tree.children n ≠ [] →
       0 < count n ∧
       within_tolerance (length (Tree.children n)) w (sum_child_w w n)
         (w * (inject_Z (count n - self_count n) / inject_Z (count n))) ∧
       (self_count n = 0 →
        within_tolerance (length (Tree.children n)) w (sum_child_w w n) w)).
Proof.
  apply (children_widths_sum ["a;b 5"; "a;c 5"] 1200). by vm_compute.
Defined.

(** C6, as stated, fails: after [a 5] and [a;b 5] the frame [a] is rendered
    1180 wide, its only child [b] is rendered 590 wide, well above the
    threshold, and 590 is not 1180, within no floating-point tolerance:
    both numbers are binary64 values. *)
Lemma width_conservation_counterexample :
  ∃ root total a depth x w,
    parse_folded ["a 5"; "a;b 5"] = Ok (root, total) ∧
    (a, depth, x, w)
      ∈ layout (sort_children root) 0 (inject_Z MARGIN)
          (inject_Z (1200 - 2 * MARGIN)) ∧
    Tree.name a = "a" ∧ (w == 1180)%Q ∧
    Forall (λ c, Py.ltb (child_w w a c) MIN_WIDTH_PX = false) (Tree.children a) ∧
    (sum_child_w w a == 590)%Q ∧ ¬ (sum_child_w w a == w)%Q ∧
    ¬ within_tolerance (length (Tree.children a)) w (sum_child_w w a) w.
Proof.
  eexists _, _, _, _, _, _. split; [reflexivity|]. split.
  { apply list_elem_of_In. vm_compute. right; left. reflexivity. }
  split; [reflexivity|]. split; [by vm_compute|].
  split; [by repeat constructor|]. split; [by vm_compute|].
  split; [by vm_compute|].
  unfold within_tolerance. intros H. vm_compute in H. by apply H.
Qed.

(** *** Escaping *)

(** The escape of one character. *)
Definition escape_char (c : ascii) : string :=
  if Ascii.eqb c "&" then "&amp;"
  else if Ascii.eqb c "<" then "&lt;"
  else if Ascii.eqb c ">" then "&gt;"
  else if Ascii.eqb c "034" then "&quot;"
  else String c "".

(** Every character replaced by its escape, in one pass. *)
Fixpoint escape_chars (s : string) : string :=
  match s with
  | EmptyString => EmptyString
  | String c s' => escape_char c +:+ escape_chars s'
  end.

(** [c in s] *)
Fixpoint occurs (c : ascii) (s : string) : bool :=
  match s with
  | EmptyString => false
  | String a s' => Ascii.eqb a c || occurs c s'
  end.

(** Every [&] of [s] starts one of the four entities. *)
Fixpoint entities_only (s : string) : bool :=
  match s with
  | EmptyString => true
  | String a s' =>
      (negb (Ascii.eqb a "&")
       || String.prefix "amp;" s' || String.prefix "lt;" s'
       || String.prefix "gt;" s' || String.prefix "quot;" s')
      && entities_only s'
  end.

Lemma append_assoc (x y z : string) : (x +:+ y) +:+ z = x +:+ (y +:+ z).
Proof.
  induction x as [|a x IH]; [done|].
  change (String a x +:+ y) with (String a (x +:+ y)).
  change (String a (x +:+ y) +:+ z) with (String a ((x +:+ y) +:+ z)).
  by rewrite IH.
Qed.

Lemma replace_app c r (x y : string) :
  Py.replace c r (x +:+ y) = Py.replace c r x +:+ Py.replace c r y.
Proof.
  induction x as [|a x IH]; [done|].
  change (String a x +:+ y) with (String a (x +:+ y)). cbn [Py.replace].
  rewrite IH. destruct (Ascii.eqb a c); [|done]. by rewrite append_assoc.
Qed.

Lemma replace_cons c r a (s : string) :
  Py.replace c r (String a s)
  = (if Ascii.eqb a c then r else String a "") +:+ Py.replace c r s.
Proof. cbn [Py.replace]. by destruct (Ascii.eqb a c). Qed.

(** The four replacements in the order of the source escape each character
    once: a [&] that a later replacement writes is not escaped again. *)
Lemma xml_escape_chars (s : string) : xml_escape s = escape_chars s.
Proof.
  unfold xml_escape. induction s as [|a s IH]; [done|].
  cbn [escape_chars]. rewrite <- IH.
  rewrite (replace_cons "&"), !replace_app. f_equal.
  unfold escape_char.
  destruct (Ascii.eqb_spec a "&") as [->|H1]; [done|].
  destruct (Ascii.eqb_spec a "<") as [->|H2]; [done|].
  destruct (Ascii.eqb_spec a ">") as [->|H3]; [done|].
  destruct (Ascii.eqb_spec a "034") as [->|H4]; [done|].
  cbn [Py.replace]. rewrite (proj2 (Ascii.eqb_neq a "<") H2).
  cbn [Py.replace]. rewrite (proj2 (Ascii.eqb_neq a ">") H3).
  cbn [Py.replace]. by rewrite (proj2 (Ascii.eqb_neq a "034") H4).
Qed.

Lemma diff_xml_escape_chars (s : string) :
  Flamediff.xml_escape s = escape_chars s.
Proof. apply xml_escape_chars. Qed.

Lemma occurs_app c (x y : string) :
  occurs c (x +:+ y) = occurs c x || occurs c y.
Proof.
  induction x as [|a x IH]; [done|].
  change (String a x +:+ y) with (String a (x +:+ y)). cbn [occurs].
  by rewrite IH, orb_assoc.
Qed.

Lemma occurs_escape_char (c a : ascii) :
  c = "<"%char ∨ c = ">"%char ∨ c = "034"%char →
  occurs c (escape_char a) = false.
Proof.
  intros Hc. unfold escape_char.
  destruct (Ascii.eqb_spec a "&") as [->|H1];
    [by destruct Hc as [->|[->| ->]]|].
  destruct (Ascii.eqb_spec a "<") as [->|H2];
    [by destruct Hc as [->|[->| ->]]|].
  destruct (Ascii.eqb_spec a ">") as [->|H3];
    [by destruct Hc as [->|[->| ->]]|].
  destruct (Ascii.eqb_spec a "034") as [->|H4];
    [by destruct Hc as [->|[->| ->]]|].
  cbn [occurs]. rewrite orb_false_r. apply Ascii.eqb_neq.
  by destruct Hc as [->|[->| ->]].
Qed.

Lemma occurs_escape_chars (c : ascii) (s : string) :
  c = "<"%char ∨ c = ">"%char ∨ c = "034"%char →
  occurs c (escape_chars s) = false.
Proof.
  intros Hc. induction s as [|a s IH]; [done|].
  cbn [escape_chars]. by rewrite occurs_app, IH, occurs_escape_char.
Qed.

Lemma append_cons a (x y : string) : String a x +:+ y = String a (x +:+ y).
Proof. done. Qed.

Lemma append_nil (y : string) : "" +:+ y = y.
Proof. done. Qed.

Lemma prefix_nil (x : string) : String.prefix "" x = true.
Proof. by destruct x. Qed.

Lemma entities_only_escape_chars (s : string) :
  entities_only (escape_chars s) = true.
Proof.
  induction s as [|a s IH]; [done|].
  cbn [escape_chars]. unfold escape_char.
  destruct (Ascii.eqb_spec a "&") as [->|H1];
    [rewrite !append_cons, append_nil; simpl; by rewrite prefix_nil, IH|].
  destruct (Ascii.eqb_spec a "<") as [->|H2];
    [rewrite !append_cons, append_nil; simpl; by rewrite prefix_nil, IH|].
  destruct (Ascii.eqb_spec a ">") as [->|H3];
    [rewrite !append_cons, append_nil; simpl; by rewrite prefix_nil, IH|].
  destruct (Ascii.eqb_spec a "034") as [->|H4];
    [rewrite !append_cons, append_nil; simpl; by rewrite prefix_nil, IH|].
  rewrite append_cons, append_nil. cbn [entities_only].
  by rewrite (proj2 (Ascii.eqb_neq _ _) H1), IH.
Qed.

(** *** The markup of one frame *)

Section Markup.
Variable md5_hex8 : string → Z.
Variable fmt1 : Q → string.

(** The markup of a frame as a function of the escaped name, of the label
    text after escaping, and of numbers: the raw name is not an argument. *)
Definition markup_of (escaped_name : string) (label : option string)
    (color : Z * Z * Z) (count self_count depth : Z) (x_left x_width : Q)
    (svg_height total frame_id_counter : Z) : list string :=
  let y := svg_height - 30 - (depth + 1) * FRAME_HEIGHT in
  let pct :=
    if total >? 0 then (100 * inject_Z count / inject_Z total)%Q else 0%Q in
  let self_pct :=
    if total >? 0 then (100 * inject_Z self_count / inject_Z total)%Q
    else 0%Q in
  [ Py.markup "<g id='" +:+ ("f" +:+ pretty frame_id_counter) +:+
      Py.markup "' class='fg'>" +:+ Py.nl;
    "<title>" +:+ escaped_name +:+ " (" +:+ pretty count +:+
      " samples, " +:+ fmt1 pct +:+ "%" +:+
      (if self_count >? 0 then ", self: " +:+ fmt1 self_pct +:+ "%"
       else "") +:+ ")</title>" +:+ Py.nl;
    Py.markup "<rect x='" +:+ fmt1 x_left +:+
      Py.markup "' y='" +:+ fmt1 (inject_Z y) +:+
      Py.markup "' width='" +:+ fmt1 x_width +:+
      Py.markup "' height='" +:+ pretty (FRAME_HEIGHT - 1) +:+
      Py.markup "' fill='" +:+ rgb color +:+
      Py.markup "' rx='1' ry='1' class='frame' data-name='" +:+
      escaped_name +:+ Py.markup "' />" +:+ Py.nl ]
  ++ match label with
     | Some text => [text_label fmt1 x_left y text]
     | None => []
     end
  ++ ["</g>" +:+ Py.nl].

(** The text of the label of a frame, after escaping. *)
Definition label_of (name : string) (x_width : Q) : option string :=
  if Py.ltb (inject_Z (Py.len name) * CHAR_WIDTH + 6) x_width then
    Some (xml_escape name)
  else if Py.ltb 20 x_width then
    if Py.trunc ((x_width - 6) / CHAR_WIDTH) >? 0 then
      Some (xml_escape
              (Py.slice_to (Py.trunc ((x_width - 6) / CHAR_WIDTH)) name)
            +:+ "..")
    else None
  else None.

Lemma frame_markup_escaped (frame : Frame) depth x_left x_width h total fid :
  frame_markup md5_hex8 fmt1 frame depth x_left x_width h total fid
  = markup_of (xml_escape (Tree.name frame))
      (label_of (Tree.name frame) x_width)
      (frame_color md5_hex8 depth frame) (count frame) (self_count frame)
      depth x_left x_width h total fid.
Proof.
  unfold frame_markup, markup_of, label_of.
  destruct (Py.ltb (_ + 6) x_width); [reflexivity|].
  destruct (Py.ltb 20 x_width); [|reflexivity].
  destruct (Py.trunc ((x_width - 6) / CHAR_WIDTH) >? 0); reflexivity.
Qed.

End Markup.

(** C10: [xml_escape] applies the four replacements in the order [&], [<],
    [>], double quote, which escapes every character exactly once; its result
    holds no [<], [>] or double quote and no [&] other than the first
    character of one of the four entities; and everything [render_frame]
    writes for a frame is a function of the escaped name, of the escaped
    label text (the whole name, or the truncated prefix escaped after
    truncation) and of numbers, so the title, the [data-name] attribute and
    the label never hold the raw name. *)
Theorem names_are_escaped :
  (∀ s : string,
     Flamegraph.xml_escape s = escape_chars s ∧
     Flamediff.xml_escape s = escape_chars s) ∧
  (∀ s : string,
     occurs "<" (xml_escape s) = false ∧ occurs ">" (xml_escape s) = false ∧
     occurs "034" (xml_escape s) = false ∧
     entities_only (xml_escape s) = true) ∧
  (∀ md5_hex8 fmt1 (frame : Frame) depth x_left x_width h total fid,
     frame_markup md5_hex8 fmt1 frame depth x_left x_width h total fid
     = markup_of fmt1 (xml_escape (Tree.name frame))
         (label_of (Tree.name frame) x_width)
         (frame_color md5_hex8 depth frame) (count frame) (self_count frame)
         depth x_left x_width h total fid) ∧
  (∀ md5_hex8 fmt1 out (frame : Frame) depth x_left x_width h total fid,
     (render_frame md5_hex8 fmt1 out frame depth x_left x_width h total fid).1
     = out ++ markups md5_hex8 fmt1 (layout frame depth x_left x_width)
                h total fid).
Proof.
  split; [|split; [|split]].
  - intros s. split; [apply xml_escape_chars|apply diff_xml_escape_chars].
  - intros s. rewrite xml_escape_chars.
    rewrite !occurs_escape_chars by auto. by rewrite entities_only_escape_chars.
  - intros. apply frame_markup_escaped.
  - intros. by rewrite render_frame_layout.
Qed.

Example xml_escape_example :
  xml_escape ("a<b>&" +:+ Py.dq +:+ "c") = "a&lt;b&gt;&amp;&quot;c" ∧
  xml_escape "&lt;" = "&amp;lt;".
Proof. split; reflexivity. Qed.

Lemma root_markup md5_hex8 fmt1 out (root : Frame) x_left x_width h total fid :
  Py.ltb x_width MIN_WIDTH_PX = false →
  ∃ rest,
    (render_frame md5_hex8 fmt1 out root 0 x_left x_width h total fid).1
    = out
      ++ markup_of fmt1 (xml_escape (Tree.name root))
           (label_of (Tree.name root) x_width) (200, 200, 200)
           (count root) (self_count root) 0 x_left x_width h total fid
      ++ rest.
Proof.
  intros Hw. rewrite render_frame_layout, layout_unfold, Hw.
  cbn [markups fst]. rewrite frame_markup_escaped. eauto.
Qed.

(** C8: [name_to_color] gives equal names equal colours, every channel of the
    colour lies in [0,255], and the frame rendered at depth 0, the root, is
    written with the fixed gray (200,200,200), which is never a value of
    [name_to_color]. *)
Theorem name_to_color_range_root_gray (md5_hex8 : string → Z)
    (fmt1 : Q → string) :
  (∀ name name' : string,
     name = name' →
     name_to_color md5_hex8 name = name_to_color md5_hex8 name') ∧
  (∀ name : string,
     let '(r, g, b) := name_to_color md5_hex8 name in
     0 ≤ r ≤ 255 ∧ 0 ≤ g ≤ 255 ∧ 0 ≤ b ≤ 255) ∧
  (∀ name : string, name_to_color md5_hex8 name ≠ (200, 200, 200)) ∧
  (∀ frame : Frame, frame_color md5_hex8 0 frame = (200, 200, 200)) ∧
  rgb (200, 200, 200) = "rgb(200,200,200)" ∧
  (∀ out (root : Frame) x_left x_width h total fid,
     Py.ltb x_width MIN_WIDTH_PX = false →
     ∃ rest,
       (render_frame md5_hex8 fmt1 out root 0 x_left x_width h total fid).1
       = out
         ++ markup_of fmt1 (xml_escape (Tree.name root))
              (label_of (Tree.name root) x_width) (200, 200, 200)
              (count root) (self_count root) 0 x_left x_width h total fid
         ++ rest).
Proof.
  split; [by intros ?? ->|]. split; [|split; [|split; [done|split; [done|]]]].
  - intros name. pose proof (ColorFacts.name_to_color_range md5_hex8 name) as H.
    destruct (name_to_color md5_hex8 name) as [[r g] b]. lia.
  - intros name Heq.
    pose proof (ColorFacts.name_to_color_range md5_hex8 name) as H.
    rewrite Heq in H. lia.
  - apply root_markup.
Qed.

Lemma name_to_color_range_root_gray_witness :
  ∃ rest,
    (render_frame (λ _, 0) (λ _, "") [] (new_Frame "root") 0 10 1180 128 0 0).1
    = [] ++ markup_of (λ _, "") (xml_escape "root") (label_of "root" 1180)
              (200, 200, 200) 0 0 0 10 1180 128 0 0 ++ rest.
Proof.
  apply (proj2 (proj2 (proj2 (proj2 (proj2
           (name_to_color_range_root_gray (λ _, 0) (λ _, "")))))) []
           (new_Frame "root") 10%Q 1180%Q 128 0 0).
  reflexivity.
Defined.

End RenderFacts.

(** ** The command-line drivers *)

Module MainFacts.

(** The lines the single-profile tool reads. *)
Definition input_lines (a : Flamegraph.args) (w : Flamegraph.world)
    : option (list string) :=
  if Py.truthy (Flamegraph.input a)
  then Flamegraph.files w (default "" (Flamegraph.input a))
  else Some (Flamegraph.stdin w).

(** Fewer than two input files can be resolved from the arguments. *)
Definition unresolved (a : Flamediff.args) : Prop :=
  Py.truthy (Flamediff.resolve a).1 = false
  ∨ Py.truthy (Flamediff.resolve a).2 = false.

Lemma single_no_input md5_hex8 fmt1 script a w :
  input_lines a w = Some [] →
  Flamegraph.main md5_hex8 fmt1 script a w
  = (IO ["flamegraph.py: no input"] [] [], Raise (SystemExit 1)).
Proof.
  unfold input_lines, Flamegraph.main.
  destruct (Py.truthy _); [intros ->|intros [= ->]]; done.
Qed.

Lemma single_no_samples md5_hex8 fmt1 script a w lines root :
  input_lines a w = Some lines → lines ≠ [] →
  Flamegraph.parse_folded lines = Ok (root, 0) →
  Flamegraph.main md5_hex8 fmt1 script a w
  = (IO ["flamegraph.py: no samples found in input"] [] [],
     Raise (SystemExit 1)).
Proof.
  unfold input_lines, Flamegraph.main. intros Hread Hne Hparse.
  assert (Hl : (if Py.truthy (Flamegraph.input a)
                then match Flamegraph.files w (default "" (Flamegraph.input a)) with
                     | Some lines => Ok lines
                     | None => Raise OSError
                     end
                else Ok (Flamegraph.stdin w)) = Ok lines).
  { destruct (Py.truthy _); [by rewrite Hread|by injection Hread as ->]. }
  rewrite Hl, bool_decide_false by done. by rewrite Hparse.
Qed.

Lemma diff_unresolved fmt1 script usage order a w :
  unresolved a →
  Flamediff.main fmt1 script usage order a w
  = (IO [usage; "flamediff.py: error: Need two input files: before.folded after.folded"]
        [] [],
     Raise (SystemExit 2)).
Proof.
  unfold unresolved, Flamediff.main.
  destruct (Flamediff.resolve a) as [bf af]; simpl.
  by intros [-> | ->]; rewrite ?orb_true_r.
Qed.

Lemma diff_no_samples fmt1 script usage order a w bf af sa ta sb tb :
  Flamediff.resolve a = (Some bf, Some af) →
  Py.truthy (Some bf) = true → Py.truthy (Some af) = true →
  Flamediff.read_profile w bf = Ok (sa, ta) →
  Flamediff.read_profile w af = Ok (sb, tb) →
  ta = 0 ∨ tb = 0 →
  ∃ msg,
    Flamediff.main fmt1 script usage order a w
    = (IO [msg] [] [], Raise (SystemExit 1)).
Proof.
  unfold Flamediff.main. intros -> Hb Ha Hra Hrb Hzero.
  cbv beta iota zeta. rewrite Hb, Ha.
  cbn [negb orb from_option id]. rewrite Hra, Hrb.
  destruct (Z.eqb_spec ta 0) as [Hta|Hta]; [by eexists|].
  destruct Hzero as [Hz|Hz]; [done|]. subst tb. by eexists.
Qed.

(** C9, as amended: the single-profile tool exits with status 1, one
    diagnostic line on the error stream and no output when it reads no line
    or a total of 0; the differential tool exits with status 1, one
    diagnostic line and no output when either profile has a total of 0, and
    with status 2, the usage line and an error line, and no output, when
    fewer than two input files can be resolved from its arguments. *)
Theorem exit_statuses :
  (∀ md5_hex8 fmt1 script a w lines,
     input_lines a w = Some lines →
     (lines = [] ∨ ∃ root, Flamegraph.parse_folded lines = Ok (root, 0)) →
     ∃ msg,
       Flamegraph.main md5_hex8 fmt1 script a w
       = (IO [msg] [] [], Raise (SystemExit 1)) ∧
       exit_status (Flamegraph.main md5_hex8 fmt1 script a w).2 = 1) ∧
  (∀ fmt1 script usage order a w bf af sa ta sb tb,
     Flamediff.resolve a = (Some bf, Some af) →
     Py.truthy (Some bf) = true → Py.truthy (Some af) = true →
     Flamediff.read_profile w bf = Ok (sa, ta) →
     Flamediff.read_profile w af = Ok (sb, tb) →
     ta = 0 ∨ tb = 0 →
     ∃ msg,
       Flamediff.main fmt1 script usage order a w
       = (IO [msg] [] [], Raise (SystemExit 1)) ∧
       exit_status (Flamediff.main fmt1 script usage order a w).2 = 1) ∧
  (∀ fmt1 script usage order a w,
     unresolved a →
     ∃ msg,
       Flamediff.main fmt1 script usage order a w
       = (IO [usage; msg] [] [], Raise (SystemExit 2)) ∧
       exit_status (Flamediff.main fmt1 script usage order a w).2 = 2).
Proof.
  split; [|split].
  - intros md5_hex8 fmt1 script a w lines Hread [->|[root Hparse]].
    + eexists. by rewrite single_no_input.
    + destruct (decide (lines = [])) as [->|Hne].
      * eexists. by rewrite single_no_input.
      * eexists. by rewrite (single_no_samples _ _ _ _ _ lines root).
  - intros fmt1 script usage order a w bf af sa ta sb tb Hr Hb Ha Hra Hrb Hz.
    destruct (diff_no_samples fmt1 script usage order a w bf af sa ta sb tb)
      as [msg ->]; try done. by exists msg.
  - intros fmt1 script usage order a w Hu. eexists.
    by rewrite diff_unresolved.
Qed.

Lemma exit_statuses_witness :
  ∃ msg,
    Flamegraph.main (λ _, 0) (λ _, "") ""
      (Flamegraph.Args None None "Flame Graph" 1200)
      (Flamegraph.World ["# only a comment"; ""] (λ _, None))
    = (IO [msg] [] [], Raise (SystemExit 1)) ∧
    exit_status
      (Flamegraph.main (λ _, 0) (λ _, "") ""
         (Flamegraph.Args None None "Flame Graph" 1200)
         (Flamegraph.World ["# only a comment"; ""] (λ _, None))).2 = 1.
Proof.
  apply (proj1 exit_statuses (λ _, 0) (λ _, "") ""
           (Flamegraph.Args None None "Flame Graph" 1200)
           (Flamegraph.World ["# only a comment"; ""] (λ _, None))
           ["# only a comment"; ""]); [reflexivity|].
  right. eexists. reflexivity.
Defined.

(** C9, as stated, fails: with no input file on the command line the
    differential tool calls [parser.error], and the exit status is 2, not
    1. *)
Lemma exit_status_counterexample :
  let a := Flamediff.Args [] None None None "Differential Flame Graph" 1200 in
  unresolved a ∧
  exit_status (Flamediff.main (λ _, "") "" "usage" [] a (λ _, None)).2 = 2 ∧
  exit_status (Flamediff.main (λ _, "") "" "usage" [] a (λ _, None)).2 ≠ 1.
Proof. split; [by left|]. split; [reflexivity|discriminate]. Qed.

End MainFacts.

(** * Further properties of the call trees *)

Module TreeInvariants.
Section Generic.
Context {D : Type} (zero : D).
Implicit Types (n : Tree.t D) (ks l : list (Tree.t D)).

(** [Q] holds at every node of the tree. *)
Definition all_nodes (Q : Tree.t D → Prop) (root : Tree.t D) : Prop :=
  ∀ n, n ∈ Tree.nodes root → Q n.

Lemma all_nodes_node Q nm (d : D) ks :
  all_nodes Q (Tree.Node nm d ks)
  ↔ Q (Tree.Node nm d ks) ∧ Forall (all_nodes Q) ks.
Proof.
  unfold all_nodes; simpl. rewrite Forall_forall. split.
  - intros H. split; [apply H; left|].
    intros k Hk n Hn. apply H. right. apply list_elem_of_In, in_flat_map.
    exists k. by rewrite <- !list_elem_of_In.
  - intros [H0 Hks] n [->|Hn]%elem_of_cons; [done|].
    apply list_elem_of_In, in_flat_map in Hn as (k & Hk & Hn).
    apply (Hks k); by apply list_elem_of_In.
Qed.

Lemma all_nodes_upd Q (f : D → D) n :
  (∀ nm d ks, Q (Tree.Node nm d ks) → Q (Tree.Node nm (f d) ks)) →
  all_nodes Q n → all_nodes Q (Tree.upd f n).
Proof.
  intros HQ. destruct n as [nm d ks]. unfold Tree.upd; simpl.
  rewrite !all_nodes_node. intros [H0 Hks]. split; [by apply HQ|done].
Qed.

Lemma Forall_with_child_gen (P : Tree.t D → Prop) nm g ks :
  (∀ x, P x → P (g x)) → P (g (Tree.new zero nm)) →
  Forall P ks → Forall P (Tree.with_child zero nm g ks).
Proof.
  intros Hg Hnew. induction 1 as [|k ks Hk Hks IH]; simpl.
  - by repeat constructor.
  - destruct (String.eqb (Tree.name k) nm); constructor; auto.
Qed.

(** *** Sibling names are unique *)

Definition unique_names (n : Tree.t D) : Prop :=
  NoDup (Tree.name <$> Tree.children n).

(** [add_child] returns the child of that name when there is one, and
    appends a child of that name when there is none. *)
Lemma names_with_child nm g ks :
  (∀ x, Tree.name (g x) = Tree.name x) →
  Tree.name <$> Tree.with_child zero nm g ks
  = if decide (nm ∈ Tree.name <$> ks) then Tree.name <$> ks
    else (Tree.name <$> ks) ++ [nm].
Proof.
  intros Hg. induction ks as [|k ks IH].
  - cbn [Tree.with_child fmap list_fmap app]. rewrite Hg.
    rewrite decide_False; [done|]. apply not_elem_of_nil.
  - cbn [Tree.with_child]. rewrite fmap_cons.
    destruct (String.eqb_spec (Tree.name k) nm) as [<-|Hne].
    + rewrite fmap_cons, Hg. rewrite decide_True; [done|]. by left.
    + rewrite fmap_cons, IH.
      destruct (decide (nm ∈ Tree.name <$> ks)) as [Hin|Hout].
      * rewrite decide_True; [done|]. by right.
      * rewrite decide_False; [done|]. rewrite not_elem_of_cons. by split.
Qed.

Lemma unique_with_child nm g ks :
  (∀ x, Tree.name (g x) = Tree.name x) →
  NoDup (Tree.name <$> ks) →
  NoDup (Tree.name <$> Tree.with_child zero nm g ks).
Proof.
  intros Hg Hnd. rewrite names_with_child by done.
  case_decide; [done|]. apply NoDup_app. split; [done|]. split.
  - intros x Hx [->|Hin]%elem_of_cons; [done|]. by apply elem_of_nil in Hin.
  - apply NoDup_singleton.
Qed.

Lemma descend_unique inc fin funcs n :
  all_nodes unique_names n →
  all_nodes unique_names (Tree.descend zero inc fin funcs n).
Proof.
  revert n. induction funcs as [|func rest IH]; intros [nm d ks].
  - by apply all_nodes_upd.
  - cbn [Tree.descend Tree.name Tree.data Tree.children].
    rewrite !all_nodes_node. intros [H0 Hks]. split.
    + unfold unique_names in *. cbn [Tree.children] in *.
      apply unique_with_child; [|done]. intros x.
      by rewrite name_descend.
    + apply Forall_with_child_gen; [| |done].
      * intros x Hx. by apply IH, all_nodes_upd.
      * apply IH, all_nodes_node. split; [|done].
        unfold unique_names; simpl. apply NoDup_nil_2.
Qed.

Lemma add_stack_unique inc fin funcs root :
  all_nodes unique_names root →
  all_nodes unique_names (Tree.add_stack zero inc fin funcs root).
Proof. intros H. by apply descend_unique, all_nodes_upd. Qed.

Lemma new_unique nm : all_nodes unique_names (Tree.new zero nm).
Proof.
  apply all_nodes_node. split; [|done]. unfold unique_names; simpl.
  apply NoDup_nil_2.
Qed.

(** *** The sort *)

(** The order of [list.sort(key=lambda f: f.name)]. *)
Definition name_le (a b : Tree.t D) : Prop :=
  String.compare (Tree.name a) (Tree.name b) ≠ Gt.

Lemma insert_perm (x : Tree.t D) l : Tree.insert_by_name x l ≡ₚ x :: l.
Proof.
  induction l as [|y l IH]; simpl; [done|].
  destruct (String.compare _ _); [done..|]. rewrite IH. apply perm_swap.
Qed.

Lemma sort_perm l : Tree.sort_by_name l ≡ₚ l.
Proof.
  induction l as [|x l IH]; simpl; [done|]. by rewrite insert_perm, IH.
Qed.

Lemma insert_sorted (x : Tree.t D) l :
  Sorted name_le l → Sorted name_le (Tree.insert_by_name x l).
Proof.
  induction 1 as [|y l Hl IH Hhd]; simpl.
  - by repeat constructor.
  - destruct (String.compare (Tree.name x) (Tree.name y)) eqn:E.
    + constructor; [by constructor|]. constructor. unfold name_le. by rewrite E.
    + constructor; [by constructor|]. constructor. unfold name_le. by rewrite E.
    + constructor; [done|].
      destruct Hhd as [|z l Hyz]; simpl.
      * constructor. unfold name_le.
        apply compare_gt_lt in E. by rewrite E.
      * apply compare_gt_lt in E.
        destruct (String.compare (Tree.name x) (Tree.name z));
          constructor; try done; unfold name_le; by rewrite E.
Qed.

Lemma sort_sorted l : Sorted name_le (Tree.sort_by_name l).
Proof.
  induction l as [|x l IH]; simpl; [constructor|]. by apply insert_sorted.
Qed.

(** A sorted list is left as it is. *)
Lemma insert_head (x : Tree.t D) l :
  HdRel name_le x l → Tree.insert_by_name x l = x :: l.
Proof.
  intros [|y l' Hxy]; simpl; [done|]. unfold name_le in Hxy.
  by destruct (String.compare _ _).
Qed.

Lemma sort_of_sorted l : Sorted name_le l → Tree.sort_by_name l = l.
Proof.
  induction 1 as [|x l Hl IH Hhd]; simpl; [done|].
  rewrite IH. by apply insert_head.
Qed.

Lemma sorted_children_everywhere (t : Tree.t D) :
  all_nodes (λ n, Sorted name_le (Tree.children n)) (Tree.sort_children t).
Proof.
  induction t as [nm d ks IH] using Tree.t_ind.
  cbn [Tree.sort_children]. apply all_nodes_node. split.
  - apply sort_sorted.
  - rewrite sort_perm. by apply Forall_fmap.
Qed.

Lemma map_id_on (f : Tree.t D → Tree.t D) l :
  Forall (λ x, f x = x) l → map f l = l.
Proof. induction 1 as [|x l Hx _ IH]; simpl; [done|]. by rewrite Hx, IH. Qed.

(** Sorting a second time changes nothing. *)
Lemma sort_children_idempotent (t : Tree.t D) :
  Tree.sort_children (Tree.sort_children t) = Tree.sort_children t.
Proof.
  induction t as [nm d ks IH] using Tree.t_ind.
  cbn [Tree.sort_children]. f_equal.
  rewrite (map_id_on Tree.sort_children).
  - apply sort_of_sorted, sort_sorted.
  - rewrite sort_perm. by apply Forall_fmap.
Qed.

Definition name_lt (a b : Tree.t D) : Prop :=
  String.compare (Tree.name a) (Tree.name b) = Lt.

Lemma sorted_strict l :
  Sorted name_le l → NoDup (Tree.name <$> l) → Sorted name_lt l.
Proof.
  induction 1 as [|x l Hl IH Hhd]; [constructor|].
  rewrite fmap_cons. intros [Hx Hnd]%NoDup_cons. constructor; [by apply IH|].
  destruct Hhd as [|y l Hxy]; constructor.
  unfold name_le, name_lt in *.
  destruct (String.compare (Tree.name x) (Tree.name y)) eqn:E; [|done..].
  apply String.compare_eq_iff in E. exfalso. apply Hx. rewrite E, fmap_cons.
  by left.
Qed.

(** A property of a node that reads its name, its counters and its children
    up to their order holds everywhere after the sort if it did before. *)
Lemma all_nodes_sort_children (Q : Tree.t D → Prop) (t : Tree.t D) :
  (∀ nm d ks, Q (Tree.Node nm d ks) →
     Q (Tree.Node nm d (Tree.sort_by_name (map Tree.sort_children ks)))) →
  all_nodes Q t → all_nodes Q (Tree.sort_children t).
Proof.
  intros HQ. induction t as [nm d ks IH] using Tree.t_ind.
  intros [H0 Hks]%all_nodes_node. cbn [Tree.sort_children].
  apply all_nodes_node. split; [by apply HQ|].
  rewrite sort_perm. apply Forall_fmap.
  rewrite Forall_forall in IH, Hks. apply Forall_forall.
  intros k Hk. apply (IH k Hk), (Hks k Hk).
Qed.

Lemma names_sorted_perm ks :
  Tree.name <$> Tree.sort_by_name (map Tree.sort_children ks)
  ≡ₚ Tree.name <$> ks.
Proof.
  rewrite sort_perm. induction ks as [|k ks IH]; [done|].
  cbn [map]. rewrite !fmap_cons, name_sort_children. by f_equiv.
Qed.

Lemma unique_sort_children (t : Tree.t D) :
  all_nodes unique_names t → all_nodes unique_names (Tree.sort_children t).
Proof.
  apply all_nodes_sort_children. intros nm d ks. unfold unique_names.
  cbn [Tree.children]. by rewrite names_sorted_perm.
Qed.

Lemma strictly_sorted_everywhere (t : Tree.t D) :
  all_nodes unique_names t →
  all_nodes (λ n, Sorted name_lt (Tree.children n)) (Tree.sort_children t).
Proof.
  intros Hu n Hn. apply sorted_strict.
  - exact (sorted_children_everywhere t n Hn).
  - exact (unique_sort_children t Hu n Hn).
Qed.

(** The sort keeps the nodes: names and counters, as a multiset. *)
Lemma nodes_sort_children (t : Tree.t D) :
  (λ n, (Tree.name n, Tree.data n)) <$> Tree.nodes (Tree.sort_children t)
  ≡ₚ (λ n, (Tree.name n, Tree.data n)) <$> Tree.nodes t.
Proof.
  induction t as [nm d ks IH] using Tree.t_ind.
  cbn [Tree.sort_children Tree.nodes]. rewrite !fmap_cons. simpl.
  apply Permutation_cons; [done|].
  assert (Hflat : ∀ l l' : list (Tree.t D), l ≡ₚ l' →
            flat_map Tree.nodes l ≡ₚ flat_map Tree.nodes l').
  { induction 1 as [|x l l' _ IHp|x y l|l1 l2 l3 _ IH1 _ IH2]; simpl.
    - done.
    - by rewrite IHp.
    - rewrite !app_assoc. f_equiv. apply Permutation_app_comm.
    - by rewrite IH1, IH2. }
  rewrite (Hflat _ _ (sort_perm _)). clear Hflat.
  induction IH as [|k ks Hk _ IHks]; simpl; [done|].
  by rewrite !fmap_app, Hk, IHks.
Qed.

End Generic.

Lemma all_nodes_Forall {D} (Q : Tree.t D → Prop) (t : Tree.t D) :
  all_nodes Q t ↔ Forall Q (Tree.nodes t).
Proof. unfold all_nodes. by rewrite Forall_forall. Qed.

Lemma flamegraph_unique (lines : list string) :
  ∃ root total,
    Flamegraph.parse_folded lines = Ok (root, total) ∧
    all_nodes unique_names root.
Proof.
  rewrite FlamegraphFacts.parse_folded_fold.
  destruct (fold_left _ _ _) as [root total] eqn:E.
  exists root, total. split; [done|].
  change root with (root, total).1. rewrite <- E.
  apply (FlamegraphFacts.fold_add_entry_invariant
           (λ st, all_nodes unique_names st.1)).
  - apply new_unique.
  - intros st e H. by apply add_stack_unique.
Qed.

Lemma flamediff_unique order sa ta sb tb :
  all_nodes unique_names (Flamediff.build_diff_tree order sa ta sb tb).
Proof.
  unfold Flamediff.build_diff_tree.
  generalize (new_unique Flamediff.zero "root").
  fold (Flamediff.new_DiffFrame "root").
  generalize (Flamediff.new_DiffFrame "root").
  induction order as [|k order IH]; intros root Hroot; [done|].
  cbn [fold_left]. by apply IH, add_stack_unique.
Qed.

(** Sibling names are unique: in the tree [parse_folded] returns and in the
    tree [build_diff_tree] returns, for every input and every iteration
    order, no node has two children of the same name. *)
Theorem sibling_names_unique :
  (∀ lines : list string,
     ∃ root total,
       Flamegraph.parse_folded lines = Ok (root, total) ∧
       Forall (λ n, NoDup (Tree.name <$> Tree.children n)) (Tree.nodes root)) ∧
  (∀ order stacks_a total_a stacks_b total_b,
     Forall (λ n, NoDup (Tree.name <$> Tree.children n))
       (Tree.nodes
          (Flamediff.build_diff_tree order stacks_a total_a stacks_b total_b))).
Proof.
  split.
  - intros lines. destruct (flamegraph_unique lines) as (root & total & H & Hu).
    exists root, total. split; [done|]. by apply all_nodes_Forall.
  - intros. apply all_nodes_Forall, flamediff_unique.
Qed.

(** After [sort_children] the children of every node are in strictly
    increasing order of name, in single mode and in differential mode. *)
Theorem sort_children_strictly_sorts :
  (∀ lines : list string,
     ∃ root total,
       Flamegraph.parse_folded lines = Ok (root, total) ∧
       Forall (λ n, Sorted (λ a b, String.compare (Tree.name a) (Tree.name b) = Lt)
                      (Tree.children n))
         (Tree.nodes (Flamegraph.sort_children root))) ∧
  (∀ order stacks_a total_a stacks_b total_b,
     Forall (λ n, Sorted (λ a b, String.compare (Tree.name a) (Tree.name b) = Lt)
                    (Tree.children n))
       (Tree.nodes
          (Flamediff.sort_children
             (Flamediff.build_diff_tree order stacks_a total_a stacks_b total_b)))).
Proof.
  split.
  - intros lines. destruct (flamegraph_unique lines) as (root & total & H & Hu).
    exists root, total. split; [done|].
    apply all_nodes_Forall, (strictly_sorted_everywhere root Hu).
  - intros. apply all_nodes_Forall, strictly_sorted_everywhere, flamediff_unique.
Qed.

(** [sort_children] on any tree, with or without duplicate names: the
    children of every node end up in non-decreasing order of name, and
    sorting again changes nothing. *)
Theorem sort_children_sorts_and_is_idempotent {D : Type} (t : Tree.t D) :
  Forall (λ n, Sorted (λ a b, String.compare (Tree.name a) (Tree.name b) ≠ Gt)
                 (Tree.children n))
    (Tree.nodes (Tree.sort_children t)) ∧
  Tree.sort_children (Tree.sort_children t) = Tree.sort_children t.
Proof.
  split; [|apply sort_children_idempotent].
  apply all_nodes_Forall, sorted_children_everywhere.
Qed.

(** [sort_children] keeps the nodes of the tree: the names with their
    counters are the same multiset before and after. *)
Theorem sort_children_keeps_nodes {D : Type} (t : Tree.t D) :
  (λ n, (Tree.name n, Tree.data n)) <$> Tree.nodes (Tree.sort_children t)
  ≡ₚ (λ n, (Tree.name n, Tree.data n)) <$> Tree.nodes t.
Proof. apply nodes_sort_children. Qed.

End TreeInvariants.

(** ** Depth *)

Module DepthFacts.
Section Generic.
Context {D : Type} (zero : D).
Implicit Types (n : Tree.t D) (ks : list (Tree.t D)).

(** The greatest of [m0] and the values of [f] on a list. *)
Definition max_of {A : Type} (f : A → Z) (l : list A) (m0 : Z) : Z :=
  fold_left (λ m c, Z.max m (f c)) l m0.

Lemma max_of_init {A} (f : A → Z) (l : list A) a b :
  max_of f l (Z.max a b) = Z.max b (max_of f l a).
Proof.
  revert a. induction l as [|x l IH]; intros a; unfold max_of in *; simpl; [lia|].
  replace (Z.max (Z.max a b) (f x)) with (Z.max (Z.max a (f x)) b) by lia.
  apply IH.
Qed.

Lemma max_of_cons {A} (f : A → Z) x (l : list A) m0 :
  max_of f (x :: l) m0 = Z.max (f x) (max_of f l m0).
Proof. unfold max_of at 1; simpl. apply (max_of_init f l m0 (f x)). Qed.

Lemma max_of_ge {A} (f : A → Z) (l : list A) m0 : m0 ≤ max_of f l m0.
Proof.
  induction l as [|x l IH]; [unfold max_of; simpl; lia|].
  rewrite max_of_cons. lia.
Qed.

Lemma max_of_elem {A} (f : A → Z) (l : list A) m0 x : x ∈ l → f x ≤ max_of f l m0.
Proof.
  induction 1 as [x l|x y l _ IH]; rewrite max_of_cons; lia.
Qed.

Lemma max_of_perm {A} (f : A → Z) (l l' : list A) m0 :
  l ≡ₚ l' → max_of f l m0 = max_of f l' m0.
Proof.
  induction 1 as [|x l l' _ IH|x y l|l1 l2 l3 _ IH1 _ IH2];
    rewrite ?max_of_cons; lia.
Qed.

Lemma max_of_ext {A} (f g : A → Z) (l : list A) m0 :
  Forall (λ x, f x = g x) l → max_of f l m0 = max_of g l m0.
Proof.
  induction 1 as [|x l Hx _ IH]; [done|]. rewrite !max_of_cons. lia.
Qed.

Lemma max_of_map {A B} (f : B → Z) (h : A → B) (l : list A) m0 :
  max_of f (map h l) m0 = max_of (λ x, f (h x)) l m0.
Proof.
  induction l as [|x l IH]; [done|]. cbn [map]. rewrite !max_of_cons. lia.
Qed.

Lemma fold_if_max {A} (f : A → Z) (l : list A) (m0 : Z) :
  fold_left (λ m c, let d := f c in if m <? d then d else m) l m0
  = max_of f l m0.
Proof.
  unfold max_of. revert m0. induction l as [|x l IH]; intros m0; simpl; [done|].
  rewrite IH. f_equal. destruct (Z.ltb_spec m0 (f x)); lia.
Qed.

(** [max_depth] is the greatest depth of a node. *)
Lemma max_depth_unfold depth nm (d : D) ks :
  Tree.max_depth depth (Tree.Node nm d ks)
  = max_of (Tree.max_depth (depth + 1)) ks depth.
Proof. apply (fold_if_max (Tree.max_depth (depth + 1))). Qed.

Lemma max_depth_ge depth n : depth ≤ Tree.max_depth depth n.
Proof. destruct n as [nm d ks]. rewrite max_depth_unfold. apply max_of_ge. Qed.

Lemma max_depth_upd (f : D → D) depth n :
  Tree.max_depth depth (Tree.upd f n) = Tree.max_depth depth n.
Proof. destruct n as [nm d ks]. unfold Tree.upd. by rewrite !max_depth_unfold. Qed.

Lemma max_of_with_child (h : Tree.t D → Z) nm g ks m0 L :
  (∀ x, h (g x) = Z.max (h x) L) → h (Tree.new zero nm) ≤ L →
  max_of h (Tree.with_child zero nm g ks) m0 = Z.max (max_of h ks m0) L.
Proof.
  intros Hg Hnew. induction ks as [|k ks IH]; cbn [Tree.with_child].
  - rewrite max_of_cons, Hg. unfold max_of; simpl. lia.
  - destruct (String.eqb (Tree.name k) nm);
      rewrite !max_of_cons, ?Hg, ?IH; lia.
Qed.

(** A walk of [funcs] below a node at [depth] reaches [depth + len(funcs)]. *)
Lemma max_depth_descend inc fin funcs depth n :
  Tree.max_depth depth (Tree.descend zero inc fin funcs n)
  = Z.max (Tree.max_depth depth n) (depth + Z.of_nat (length funcs)).
Proof.
  revert depth n. induction funcs as [|func rest IH]; intros depth [nm d ks].
  - cbn [Tree.descend length]. rewrite max_depth_upd.
    pose proof (max_depth_ge depth (Tree.Node nm d ks)). lia.
  - cbn [Tree.descend Tree.name Tree.data Tree.children].
    rewrite !max_depth_unfold.
    rewrite (max_of_with_child _ _ _ _ _
               (depth + 1 + Z.of_nat (length rest))).
    + cbn [length]. lia.
    + intros x. by rewrite IH, max_depth_upd.
    + unfold Tree.new. rewrite max_depth_unfold. unfold max_of; simpl. lia.
Qed.

Lemma max_depth_add_stack inc fin funcs depth root :
  Tree.max_depth depth (Tree.add_stack zero inc fin funcs root)
  = Z.max (Tree.max_depth depth root) (depth + Z.of_nat (length funcs)).
Proof. unfold Tree.add_stack. by rewrite max_depth_descend, max_depth_upd. Qed.

(** The sort does not change the depth. *)
Lemma max_depth_sort_children (t : Tree.t D) :
  ∀ depth, Tree.max_depth depth (Tree.sort_children t) = Tree.max_depth depth t.
Proof.
  induction t as [nm d ks IH] using Tree.t_ind. intros depth.
  cbn [Tree.sort_children]. rewrite !max_depth_unfold.
  rewrite (max_of_perm _ _ _ _ (TreeInvariants.sort_perm _)), max_of_map.
  apply max_of_ext. eapply Forall_impl; [exact IH|]. by intros k ->.
Qed.

End Generic.

(** The number of frames of the longest call path among the counted lines. *)
Definition longest_path (lines : list string) : Z :=
  foldr (λ line acc,
           match parse_line line with
           | Ok (Some (stack_str, _)) =>
               Z.max (Z.of_nat (length (Py.split ";" stack_str))) acc
           | _ => acc
           end) 0 lines.

Lemma max_depth_fold_add_entry es st :
  Tree.max_depth 0 (fold_left FlamegraphFacts.add_entry es st).1
  = foldr (λ (e : string * Z) acc,
             Z.max (Z.of_nat (length (Py.split ";" e.1))) acc)
      (Tree.max_depth 0 st.1) es.
Proof.
  revert st. induction es as [|e es IH]; intros st; [done|].
  cbn [fold_left foldr]. rewrite IH. unfold FlamegraphFacts.add_entry.
  cbn [fst]. rewrite max_depth_add_stack.
  generalize (Z.of_nat (length (Py.split ";" e.1))) as a.
  generalize (Tree.max_depth 0 st.1) as b. clear. intros b a.
  induction es as [|e' es IH]; simpl; lia.
Qed.

Lemma longest_path_entries (lines : list string) :
  longest_path lines
  = foldr (λ (e : string * Z) acc,
             Z.max (Z.of_nat (length (Py.split ";" e.1))) acc)
      0 (omap entry lines).
Proof.
  induction lines as [|line lines IH]; [done|].
  change (longest_path (line :: lines))
    with (match parse_line line with
          | Ok (Some (stack_str, _)) =>
              Z.max (Z.of_nat (length (Py.split ";" stack_str)))
                (longest_path lines)
          | _ => longest_path lines
          end).
  rewrite parse_line_entry, IH. cbn [omap list_omap].
  by destruct (entry line) as [[s c]|].
Qed.

(** The depth [render_svg] sizes the canvas with is the number of frames of
    the longest call path of the input. *)
Theorem max_depth_is_longest_path (lines : list string) :
  ∃ root total,
    Flamegraph.parse_folded lines = Ok (root, total) ∧
    Flamegraph.max_depth (Flamegraph.sort_children root) = longest_path lines ∧
    Flamegraph.max_depth root = longest_path lines.
Proof.
  rewrite FlamegraphFacts.parse_folded_fold.
  destruct (fold_left _ _ _) as [root total] eqn:E.
  exists root, total. split; [done|].
  assert (H : Flamegraph.max_depth root = longest_path lines).
  { unfold Flamegraph.max_depth. change root with (root, total).1.
    rewrite <- E, max_depth_fold_add_entry, longest_path_entries. done. }
  split; [|done]. unfold Flamegraph.max_depth, Flamegraph.sort_children.
  by rewrite max_depth_sort_children.
Qed.

(** *** The rows of the rendered frames *)

Lemma layout_below_depth parent x_width depth ks :
  Forall (λ k : Flamegraph.Frame, ∀ n d x w d0 x0 w0,
            (n, d, x, w) ∈ Flamegraph.layout k d0 x0 w0 →
            d0 ≤ d ≤ Tree.max_depth d0 k) ks →
  ∀ n d x w child_x,
    (n, d, x, w) ∈ RenderFacts.layout_below parent x_width depth ks child_x →
    ∃ k, k ∈ ks ∧ depth + 1 ≤ d ≤ Tree.max_depth (depth + 1) k.
Proof.
  induction 1 as [|k ks Hk _ IH]; intros n d x w child_x Hin.
  - by apply elem_of_nil in Hin.
  - cbn [RenderFacts.layout_below] in Hin.
    apply elem_of_app in Hin as [Hin|Hin].
    + exists k. split; [by left|]. by apply (Hk _ _ _ _ _ _ _ Hin).
    + destruct (IH _ _ _ _ _ Hin) as (k' & Hk' & Hd).
      exists k'. split; [by right|done].
Qed.

(** A rendered frame is at a depth between that of the frame the rendering
    started from and the depth of the tree. *)
Lemma layout_depth (t : Flamegraph.Frame) :
  ∀ n d x w d0 x0 w0,
    (n, d, x, w) ∈ Flamegraph.layout t d0 x0 w0 →
    d0 ≤ d ≤ Tree.max_depth d0 t.
Proof.
  induction t as [nm dt ks IH] using Tree.t_ind.
  intros n d x w d0 x0 w0. rewrite RenderFacts.layout_unfold.
  destruct (Py.ltb w0 MIN_WIDTH_PX).
  { intros Hin. by apply elem_of_nil in Hin. }
  pose proof (max_depth_ge d0 (Tree.Node nm dt ks)).
  intros [[= -> -> -> ->]|Hin]%elem_of_cons; [lia|].
  destruct (layout_below_depth _ _ _ _ IH _ _ _ _ _ Hin) as (k & Hk & Hd).
  rewrite max_depth_unfold.
  pose proof (max_of_elem (Tree.max_depth (d0 + 1)) ks d0 k Hk). lia.
Qed.

(** Every frame [render_svg] renders has its row between the header and the
    footer of the canvas: with [height] the canvas height, the top edge [y]
    of the rectangle is at least 66 and the bottom edge at most
    [height - 30]. *)
Theorem frames_fit_vertically (root : Flamegraph.Frame) (width : Z)
    (n : Flamegraph.Frame) (depth : Z) (x w : Q) :
  (n, depth, x, w)
    ∈ Flamegraph.layout (Flamegraph.sort_children root) 0 (inject_Z MARGIN)
        (inject_Z (width - 2 * MARGIN)) →
  let height :=
    (Flamegraph.max_depth (Flamegraph.sort_children root) + 2) * FRAME_HEIGHT
    + 80 in
  let y := height - 30 - (depth + 1) * FRAME_HEIGHT in
  66 ≤ y ∧ y + FRAME_HEIGHT ≤ height - 30.
Proof.
  intros Hin height y. apply layout_depth in Hin.
  subst height y. unfold Flamegraph.max_depth, FRAME_HEIGHT in *. lia.
Qed.

Lemma frames_fit_vertically_witness :
  let root := Tree.Node "root" (Flamegraph.Counters 3 0)
                [Tree.Node "x" (Flamegraph.Counters 3 3) []] in
  let height :=
    (Flamegraph.max_depth (Flamegraph.sort_children root) + 2) * FRAME_HEIGHT
    + 80 in
  let y := height - 30 - (1 + 1) * FRAME_HEIGHT in
  66 ≤ y ∧ y + FRAME_HEIGHT ≤ height - 30.
Proof.
  intros root.
  apply (frames_fit_vertically root 1200
           (Tree.Node "x" (Flamegraph.Counters 3 3) []) 1
           10%Q
           (Flamegraph.child_w 1180 root
              (Tree.Node "x" (Flamegraph.Counters 3 3) []))).
  apply list_elem_of_In. vm_compute. right; left. reflexivity.
Defined.

End DepthFacts.

(** ** Totals *)

Module TotalFacts.

(** The sum of the counts of the parsed lines. *)
Definition sum_entries (es : list (string * Z)) : Z :=
  foldr (λ e acc, e.2 + acc) 0 es.

Lemma fold_plus_sum (es : list (string * Z)) t :
  fold_left (λ t (e : string * Z), t + e.2) es t = t + sum_entries es.
Proof.
  revert t. induction es as [|e es IH]; intros t; simpl; [lia|].
  rewrite IH. lia.
Qed.

Lemma entries_positive (lines : list string) :
  Forall (λ e : string * Z, 0 < e.2) (omap entry lines).
Proof.
  apply Forall_forall. intros [s c] (l & _ & Hl)%list_elem_of_omap.
  by apply (entry_count_positive l s c).
Qed.

Lemma sum_entries_zero (es : list (string * Z)) :
  Forall (λ e : string * Z, 0 < e.2) es →
  0 ≤ sum_entries es ∧ (sum_entries es = 0 ↔ es = []).
Proof.
  induction 1 as [|e es He _ [IH0 IH]]; simpl; [done|].
  split; [lia|]. split; [lia|done].
Qed.

Lemma no_entries (lines : list string) :
  omap entry lines = [] ↔ Forall (λ l, parse_line l = Ok None) lines.
Proof.
  induction lines as [|l lines IH]; [by split; [constructor|]|].
  cbn [omap list_omap]. rewrite Forall_cons, <- IH, parse_line_entry.
  destruct (entry l) as [e|]; split; try done.
  - by intros [[=] _].
  - by intros [_ ?].
Qed.

Lemma diff_fold_snd es st :
  (fold_left FlamediffFacts.add_entry es st).2 = st.2 + sum_entries es.
Proof.
  revert st. induction es as [|e es IH]; intros st; simpl; [lia|].
  rewrite IH. simpl. lia.
Qed.

Lemma count_for_positive s (es : list (string * Z)) :
  Forall (λ e : string * Z, 0 < e.2) es → s ∈ es.*1 →
  1 ≤ FlamediffFacts.count_for s es.
Proof.
  induction 1 as [|e es He Hes IH]; [by intros ?%elem_of_nil|].
  rewrite fmap_cons, FlamediffFacts.count_for_cons. intros Hin.
  destruct (decide (s ∈ es.*1)) as [Hs|Hs].
  - specialize (IH Hs). case_decide; lia.
  - rewrite FlamediffFacts.count_for_absent by done.
    apply elem_of_cons in Hin as [->|?]; [|done].
    rewrite decide_True by done. lia.
Qed.

Lemma single_total_facts (lines : list string) :
  ∃ root total,
    Flamegraph.parse_folded lines = Ok (root, total) ∧
    0 ≤ total ∧
    (total = 0 ↔ Forall (λ l, parse_line l = Ok None) lines) ∧
    (total = 0 ↔ root = Flamegraph.new_Frame "root").
Proof.
  rewrite FlamegraphFacts.parse_folded_fold.
  destruct (fold_left _ _ _) as [root total] eqn:E.
  exists root, total. split; [done|].
  assert (Ht : total = sum_entries (omap entry lines)).
  { change total with (root, total).2.
    by rewrite <- E, OrderFacts.fold_add_entry_snd, fold_plus_sum. }
  destruct (sum_entries_zero _ (entries_positive lines)) as [H0 Hz].
  rewrite Ht. split; [done|]. split; [by rewrite Hz, no_entries|].
  rewrite Hz. split.
  - intros Hnil. rewrite Hnil in E. by injection E as <- _.
  - intros ->. destruct (omap entry lines) as [|[s c] es] eqn:Ees; [done|].
    exfalso. pose proof (FlamegraphFacts.count_add_entry
      (Flamegraph.new_Frame "root", 0) (s, c)) as Hc.
    assert (Hroot : Flamegraph.count
              (fold_left FlamegraphFacts.add_entry ((s, c) :: es)
                 (Flamegraph.new_Frame "root", 0)).1 = 0) by (by rewrite E).
    assert (Hsum : ∀ es' st,
              Flamegraph.count (fold_left FlamegraphFacts.add_entry es' st).1
              = Flamegraph.count st.1 + sum_entries es').
    { clear. induction es' as [|e es' IH]; intros st; simpl; [lia|].
      rewrite IH, FlamegraphFacts.count_add_entry. lia. }
    rewrite Hsum in Hroot. simpl in Hroot.
    pose proof (entries_positive lines) as Hpos. rewrite Ees in Hpos.
    apply Forall_cons in Hpos as [Hc0 Hes].
    destruct (sum_entries_zero es Hes) as [? _]. simpl in Hc0.
    unfold Flamegraph.count in Hroot; simpl in Hroot. lia.
Qed.

(** The total [flamegraph.py] checks against 0 is never negative, and is 0
    exactly when every line of the input was skipped; the tree is then the
    bare root. *)
Theorem single_total_zero_iff (lines : list string) :
  ∃ root total,
    Flamegraph.parse_folded lines = Ok (root, total) ∧
    0 ≤ total ∧
    (total = 0 ↔ Forall (λ l, parse_line l = Ok None) lines) ∧
    (total = 0 ↔ root = Flamegraph.new_Frame "root").
Proof. apply single_total_facts. Qed.

Lemma diff_stacks_facts (lines : list string) :
  ∃ stacks total,
    Flamediff.parse_folded lines = Ok (stacks, total) ∧
    (∀ s, s ∈ dom stacks ↔
          ∃ l c, l ∈ lines ∧ parse_line l = Ok (Some (s, c))) ∧
    map_Forall (λ _ v, 1 ≤ v) stacks ∧
    (total = 0 ↔ stacks = ∅) ∧
    (total = 0 ↔ Forall (λ l, parse_line l = Ok None) lines).
Proof.
  rewrite FlamediffFacts.parse_folded_diff_fold.
  destruct (fold_left _ _ _) as [stacks total] eqn:E.
  exists stacks, total. split; [done|].
  pose proof (entries_positive lines) as Hpos.
  assert (Hlook : ∀ s, stacks !! s
            = if decide (s ∈ (omap entry lines).*1)
              then Some (FlamediffFacts.count_for s (omap entry lines))
              else None).
  { intros s. change stacks with (stacks, total).1.
    rewrite <- E, FlamediffFacts.lookup_fold. unfold Flamediff.get.
    rewrite lookup_empty. by case_decide. }
  assert (Ht : total = sum_entries (omap entry lines)).
  { change total with (stacks, total).2. by rewrite <- E, diff_fold_snd. }
  assert (Hkeys : ∀ s, s ∈ (omap entry lines).*1 ↔
            ∃ l c, l ∈ lines ∧ parse_line l = Ok (Some (s, c))).
  { intros s. rewrite list_elem_of_fmap. split.
    - intros ([s' c] & -> & (l & Hl & He)%list_elem_of_omap).
      exists l, c. split; [done|]. by rewrite parse_line_entry, He.
    - intros (l & c & Hl & Hp). exists (s, c). split; [done|].
      apply list_elem_of_omap. exists l. split; [done|].
      rewrite parse_line_entry in Hp. by injection Hp. }
  assert (Hempty : stacks = ∅ ↔ omap entry lines = []).
  { split.
    - intros ->. destruct (omap entry lines) as [|[s c] es]; [done|].
      specialize (Hlook s). rewrite lookup_empty, decide_True in Hlook;
        [done|]. rewrite fmap_cons. by left.
    - intros Hnil. apply map_eq. intros s. rewrite Hlook, Hnil, lookup_empty.
      rewrite decide_False; [done|]. apply not_elem_of_nil. }
  destruct (sum_entries_zero _ Hpos) as [H0 Hz].
  split; [|split; [|split]].
  - intros s. rewrite elem_of_dom, Hlook, <- Hkeys.
    case_decide; split; try done; by intros [??].
  - intros s v. rewrite Hlook. case_decide; [|done]. intros [= <-].
    by apply count_for_positive.
  - by rewrite Ht, Hz, Hempty.
  - by rewrite Ht, Hz, no_entries.
Qed.

(** The dictionary of [flamediff.py]: its keys are the call paths of the
    counted lines, every count is at least 1, and the total is 0 exactly
    when the dictionary is empty, which is when every line was skipped. *)
Theorem diff_stacks_keys_and_counts (lines : list string) :
  ∃ stacks total,
    Flamediff.parse_folded lines = Ok (stacks, total) ∧
    (∀ s, s ∈ dom stacks ↔
          ∃ l c, l ∈ lines ∧ parse_line l = Ok (Some (s, c))) ∧
    map_Forall (λ _ v, 1 ≤ v) stacks ∧
    (total = 0 ↔ stacks = ∅) ∧
    (total = 0 ↔ Forall (λ l, parse_line l = Ok None) lines).
Proof. apply diff_stacks_facts. Qed.

End TotalFacts.

(** ** The two counters of the merged tree *)

Module DiffTreeFacts.
Section Measure.
(** An inclusive and a self counter of the nodes, and a walk that adds [c] to
    the first at every node it visits and to the second at its last node. *)
Context {D : Type} (zero : D) (incl self : D → Z) (inc fin : D → D) (c : Z).
Hypothesis incl_zero : incl zero = 0.
Hypothesis self_zero : self zero = 0.
Hypothesis incl_inc : ∀ d, incl (inc d) = incl d + c.
Hypothesis self_inc : ∀ d, self (inc d) = self d.
Hypothesis incl_fin : ∀ d, incl (fin d) = incl d.
Hypothesis self_fin : ∀ d, self (fin d) = self d + c.

Definition sum_incl (ks : list (Tree.t D)) : Z :=
  foldr (λ k acc, incl (Tree.data k) + acc) 0 ks.

Definition balanced (n : Tree.t D) : Prop :=
  incl (Tree.data n) = self (Tree.data n) + sum_incl (Tree.children n).

Lemma incl_descend funcs (n : Tree.t D) :
  incl (Tree.data (Tree.descend zero inc fin funcs n)) = incl (Tree.data n).
Proof. destruct funcs, n; simpl; by rewrite ?incl_fin. Qed.

Lemma sum_incl_with_child nm g (ks : list (Tree.t D)) :
  (∀ x, incl (Tree.data (g x)) = incl (Tree.data x) + c) →
  sum_incl (Tree.with_child zero nm g ks) = sum_incl ks + c.
Proof.
  intros Hg. induction ks as [|k ks IH]; simpl.
  - rewrite Hg. simpl. lia.
  - destruct (String.eqb (Tree.name k) nm); simpl; rewrite ?Hg, ?IH; lia.
Qed.

Lemma descend_balanced funcs (n : Tree.t D) :
  Forall (TreeInvariants.all_nodes balanced) (Tree.children n) →
  incl (Tree.data n) = self (Tree.data n) + sum_incl (Tree.children n) + c →
  TreeInvariants.all_nodes balanced (Tree.descend zero inc fin funcs n).
Proof.
  revert n. induction funcs as [|func rest IH]; intros [nm d ks]; simpl;
    intros Hks Hn.
  - apply TreeInvariants.all_nodes_node. split; [|done].
    unfold balanced; simpl. rewrite incl_fin, self_fin. lia.
  - apply TreeInvariants.all_nodes_node. split.
    + unfold balanced; simpl. rewrite sum_incl_with_child; [lia|].
      intros [xn xd xks]. rewrite incl_descend. simpl. apply incl_inc.
    + apply TreeInvariants.Forall_with_child_gen; [| |done].
      * intros [xn xd xks] [Hx Hxks]%TreeInvariants.all_nodes_node.
        apply IH; [done|]. simpl. rewrite incl_inc, self_inc.
        unfold balanced in Hx; simpl in Hx. lia.
      * apply IH; [done|]. simpl. rewrite incl_inc, self_inc. lia.
Qed.

Lemma add_stack_balanced funcs (root : Tree.t D) :
  TreeInvariants.all_nodes balanced root →
  TreeInvariants.all_nodes balanced (Tree.add_stack zero inc fin funcs root).
Proof.
  destruct root as [nm d ks]. intros [H0 Hks]%TreeInvariants.all_nodes_node.
  apply descend_balanced; [done|]. simpl. rewrite incl_inc, self_inc.
  unfold balanced in H0; simpl in H0. lia.
Qed.

End Measure.

Lemma build_balanced_a order stacks_a total_a stacks_b total_b :
  TreeInvariants.all_nodes (balanced Flamediff.c_count_a Flamediff.c_self_a)
    (Flamediff.build_diff_tree order stacks_a total_a stacks_b total_b).
Proof.
  unfold Flamediff.build_diff_tree.
  assert (H0 : TreeInvariants.all_nodes
            (balanced Flamediff.c_count_a Flamediff.c_self_a)
            (Flamediff.new_DiffFrame "root")).
  { apply TreeInvariants.all_nodes_node. by split. }
  revert H0. generalize (Flamediff.new_DiffFrame "root").
  induction order as [|k order IH]; intros root Hroot; [done|].
  cbn [fold_left]. apply IH.
  by apply (add_stack_balanced Flamediff.zero Flamediff.c_count_a
              Flamediff.c_self_a _ _ (Flamediff.get stacks_a k)).
Qed.

Lemma build_balanced_b order stacks_a total_a stacks_b total_b :
  TreeInvariants.all_nodes (balanced Flamediff.c_count_b Flamediff.c_self_b)
    (Flamediff.build_diff_tree order stacks_a total_a stacks_b total_b).
Proof.
  unfold Flamediff.build_diff_tree.
  assert (H0 : TreeInvariants.all_nodes
            (balanced Flamediff.c_count_b Flamediff.c_self_b)
            (Flamediff.new_DiffFrame "root")).
  { apply TreeInvariants.all_nodes_node. by split. }
  revert H0. generalize (Flamediff.new_DiffFrame "root").
  induction order as [|k order IH]; intros root Hroot; [done|].
  cbn [fold_left]. apply IH.
  by apply (add_stack_balanced Flamediff.zero Flamediff.c_count_b
              Flamediff.c_self_b _ _ (Flamediff.get stacks_b k)).
Qed.

(** In the merged tree each of the two profiles keeps the inclusive/self
    balance of single mode: at every node [count_a] is [self_a] plus the
    [count_a] of the children, and the same for [count_b], for every pair of
    dictionaries and every iteration order. *)
Theorem diff_tree_balanced order stacks_a total_a stacks_b total_b :
  Forall
    (λ n, Flamediff.count_a n
          = Flamediff.self_a n
            + foldr (λ k acc, Flamediff.count_a k + acc) 0 (Tree.children n)
          ∧ Flamediff.count_b n
            = Flamediff.self_b n
              + foldr (λ k acc, Flamediff.count_b k + acc) 0 (Tree.children n))
    (Tree.nodes
       (Flamediff.build_diff_tree order stacks_a total_a stacks_b total_b)).
Proof.
  apply Forall_forall. intros n Hn. split.
  - apply (build_balanced_a order stacks_a total_a stacks_b total_b n Hn).
  - apply (build_balanced_b order stacks_a total_a stacks_b total_b n Hn).
Qed.

End DiffTreeFacts.

(** ** More on rendering *)

Module RenderMore.
Import Flamegraph.

Lemma layout_below_length parent x_width depth ks :
  Forall (λ k : Frame, ∀ d x w,
            (length (layout k d x w) ≤ length (Tree.nodes k))%nat) ks →
  ∀ child_x,
    (length (RenderFacts.layout_below parent x_width depth ks child_x)
     ≤ length (flat_map Tree.nodes ks))%nat.
Proof.
  induction 1 as [|k ks Hk _ IH]; intros child_x; [done|].
  cbn [RenderFacts.layout_below flat_map]. rewrite !length_app.
  specialize (Hk (depth + 1) child_x (child_w x_width parent k)).
  specialize (IH (Float64.fl (child_x + child_w x_width parent k))). lia.
Qed.

Lemma layout_length (t : Frame) :
  ∀ d x w, (length (layout t d x w) ≤ length (Tree.nodes t))%nat.
Proof.
  induction t as [nm dt ks IH] using Tree.t_ind. intros d x w.
  rewrite RenderFacts.layout_unfold. cbn [Tree.nodes Tree.children length].
  destruct (Py.ltb w MIN_WIDTH_PX); cbn [length]; [lia|].
  pose proof (layout_below_length (Tree.Node nm dt ks) w d ks IH x). lia.
Qed.

(** [render_frame] returns the frame id it was given plus the number of
    frames it wrote; it writes at most one frame per node; and it writes
    nothing at all, also for the subtree, exactly when the width it is given
    is below [MIN_WIDTH_PX]. *)
Theorem render_frame_counts md5_hex8 fmt1 out (frame : Frame) depth x_left
    x_width h total fid :
  (render_frame md5_hex8 fmt1 out frame depth x_left x_width h total fid).2
  = fid + Z.of_nat (length (layout frame depth x_left x_width)) ∧
  (length (layout frame depth x_left x_width) ≤ length (Tree.nodes frame))%nat ∧
  (Py.ltb x_width MIN_WIDTH_PX = true ↔
   render_frame md5_hex8 fmt1 out frame depth x_left x_width h total fid
   = (out, fid)).
Proof.
  split; [by rewrite RenderFacts.render_frame_layout|].
  split; [apply layout_length|]. split.
  - intros Hw. by rewrite RenderFacts.render_frame_unfold, Hw.
  - rewrite RenderFacts.render_frame_layout, RenderFacts.layout_unfold.
    destruct (Py.ltb x_width MIN_WIDTH_PX); [done|].
    cbn [length]. intros [= _ Hfid]. lia.
Qed.

(** *** [xml_escape] loses nothing *)

Lemma escape_char_nonempty (a : ascii) : RenderFacts.escape_char a ≠ "".
Proof.
  unfold RenderFacts.escape_char. by repeat (destruct (Ascii.eqb a _)).
Qed.

Lemma escape_char_inj (a b : ascii) (x y : string) :
  RenderFacts.escape_char a +:+ x = RenderFacts.escape_char b +:+ y →
  a = b ∧ x = y.
Proof.
  unfold RenderFacts.escape_char.
  destruct (Ascii.eqb_spec a "&") as [->|Ha1];
    [|destruct (Ascii.eqb_spec a "<") as [->|Ha2];
      [|destruct (Ascii.eqb_spec a ">") as [->|Ha3];
        [|destruct (Ascii.eqb_spec a "034") as [->|Ha4]]]];
  (destruct (Ascii.eqb_spec b "&") as [->|Hb1];
    [|destruct (Ascii.eqb_spec b "<") as [->|Hb2];
      [|destruct (Ascii.eqb_spec b ">") as [->|Hb3];
        [|destruct (Ascii.eqb_spec b "034") as [->|Hb4]]]]);
  rewrite ?RenderFacts.append_cons, ?RenderFacts.append_nil;
  intros Heq; try discriminate Heq;
  try (injection Heq as Heq; by split);
  try (injection Heq as <- Heq; done);
  try (injection Heq as -> Heq; done).
Qed.

Lemma escape_chars_inj (s s' : string) :
  RenderFacts.escape_chars s = RenderFacts.escape_chars s' → s = s'.
Proof.
  revert s'. induction s as [|a s IH]; intros [|b s']; cbn [RenderFacts.escape_chars].
  - done.
  - intros Heq. exfalso. symmetry in Heq.
    pose proof (escape_char_nonempty b) as Hb.
    destruct (RenderFacts.escape_char b); [done|discriminate Heq].
  - intros Heq. exfalso.
    pose proof (escape_char_nonempty a) as Ha.
    destruct (RenderFacts.escape_char a); [done|discriminate Heq].
  - intros [-> Heq]%escape_char_inj. by rewrite (IH s' Heq).
Qed.

(** [xml_escape] is injective, in both tools: two different names are
    written as two different escaped texts, so the [data-name] attribute
    identifies the frame name. *)
Theorem xml_escape_injective (s s' : string) :
  (Flamegraph.xml_escape s = Flamegraph.xml_escape s' → s = s') ∧
  (Flamediff.xml_escape s = Flamediff.xml_escape s' → s = s').
Proof.
  split; intros Heq; apply escape_chars_inj.
  - by rewrite <- !RenderFacts.xml_escape_chars.
  - by rewrite <- !RenderFacts.diff_xml_escape_chars.
Qed.

Lemma xml_escape_injective_witness : "a<b" = "a<b".
Proof. apply (proj1 (xml_escape_injective "a<b" "a<b")). reflexivity. Defined.

End RenderMore.

(** ** More on the colours *)

Module ColorMore.

Lemma trunc_mono (x y : Q) : (0 <= x)%Q → (x <= y)%Q → Py.trunc x ≤ Py.trunc y.
Proof.
  destruct x as [n d], y as [m e]. unfold Py.trunc, Qle; simpl. intros H0 Hxy.
  rewrite !Z.quot_div_nonneg by nia.
  apply Z.div_le_lower_bound; [lia|].
  pose proof (Z.mul_div_le n (Z.pos d) ltac:(lia)).
  assert (Z.pos d * (n / Z.pos d) * Z.pos e ≤ m * Z.pos d) by nia.
  nia.
Qed.

(** The identity palette is warm: for every name the red channel is at least
    the green one and greater than the blue one, and the blue channel lies
    between 30 and 85. *)
Theorem name_to_color_is_warm (md5_hex8 : string → Z) (name : string) :
  let '(r, g, b) := Flamegraph.name_to_color md5_hex8 name in
  g ≤ r ∧ b < r ∧ 200 ≤ r ≤ 255 ∧ 30 ≤ b ≤ 85.
Proof.
  pose proof (ColorFacts.name_to_color_range md5_hex8 name) as Hrange.
  unfold Flamegraph.name_to_color in *.
  set (h := md5_hex8 name) in *.
  set (hf := (inject_Z (h `mod` 60) / 60)%Q) in *.
  set (s := (inject_Z (160 + (h ≫ 8) `mod` 55) / 255)%Q) in *.
  set (v := (inject_Z (200 + (h ≫ 16) `mod` 56) / 255)%Q) in *.
  set (ab := Qabs (if Qle_bool hf 1 then hf else (hf - 1)%Q)) in *.
  assert (Hhf : (0 <= hf)%Q ∧ (hf < 1)%Q).
  { pose proof (Z.mod_pos_bound h 60 ltac:(lia)) as Hm. subst hf. split.
    - apply Qle_shift_div_l; [done|]. unfold Qle; simpl. lia.
    - apply Qlt_shift_div_r; [done|]. unfold Qlt; simpl. lia. }
  assert (Hs : (0 <= s <= 1)%Q).
  { apply (ColorFacts.ratio_bounds _ 255); [|done].
    pose proof (Z.mod_pos_bound (h ≫ 8) 55). lia. }
  assert (Hv : (200 # 255 <= v)%Q ∧ (v <= 1)%Q).
  { pose proof (Z.mod_pos_bound (h ≫ 16) 56 ltac:(lia)) as Hm. subst v. split.
    - apply Qle_shift_div_l; [done|]. unfold Qle; simpl. lia.
    - apply Qle_shift_div_r; [done|]. unfold Qle; simpl. lia. }
  assert (Hab : (0 <= ab <= 1)%Q).
  { split; [apply Qabs_nonneg|]. apply Qabs_Qle_condition.
    destruct (Qle_bool hf 1); split; lra. }
  assert (Hc : (0 <= v * s <= v)%Q) by nra.
  assert (Hx : (0 <= v * s * (1 - ab) <= v * s)%Q) by nra.
  rewrite (proj2 (ColorFacts.ltb_true hf 1)) in * by lra.
  assert (Hr : 200 ≤ Py.trunc ((v * s + (v - v * s)) * 255)).
  { apply ColorFacts.trunc_lower; [|lia]. change (inject_Z 200) with 200%Q. lra. }
  assert (Hg : Py.trunc ((v * s * (1 - ab) + (v - v * s)) * 255)
               ≤ Py.trunc ((v * s + (v - v * s)) * 255)).
  { apply trunc_mono; nra. }
  lia.
Qed.

End ColorMore.

(** ** The horizontal extent of the rendered frames *)

Module ExtentFacts.
Import Flamegraph.

(** A node whose counters allow the layout to stay inside its parent: the
    inclusive/self balance, counts that are not negative, and positive at a
    node with children. *)
Definition well_counted (n : Frame) : Prop :=
  FlamegraphFacts.consistent n ∧ RenderFacts.positive n ∧ 0 ≤ self_count n.

Lemma descend_self_nonneg c funcs (n : Frame) :
  0 ≤ c →
  TreeInvariants.all_nodes (λ n, 0 ≤ self_count n) n →
  TreeInvariants.all_nodes (λ n, 0 ≤ self_count n)
    (Tree.descend (Counters 0 0) (add_count c) (add_self_count c) funcs n).
Proof.
  intros Hc. revert n. induction funcs as [|func rest IH]; intros [nm [cnt slf] ks].
  - cbn [Tree.descend]. unfold Tree.upd.
    cbn [Tree.name Tree.data Tree.children].
    rewrite !TreeInvariants.all_nodes_node. unfold self_count; simpl.
    intros [H0 Hks]. split; [lia|done].
  - cbn [Tree.descend Tree.name Tree.data Tree.children].
    rewrite !TreeInvariants.all_nodes_node. intros [H0 Hks]. split; [done|].
    apply TreeInvariants.Forall_with_child_gen; [| |done].
    + intros [xn [xc xs] xks] Hx. apply IH. revert Hx. unfold Tree.upd.
      cbn [Tree.name Tree.data Tree.children].
      by rewrite !TreeInvariants.all_nodes_node.
    + apply IH. unfold Tree.upd, Tree.new.
      cbn [Tree.name Tree.data Tree.children].
      apply TreeInvariants.all_nodes_node. by split.
Qed.

Lemma fold_self_nonneg (es : list (string * Z)) st :
  Forall (λ e : string * Z, 0 < e.2) es →
  TreeInvariants.all_nodes (λ n, 0 ≤ self_count n) st.1 →
  TreeInvariants.all_nodes (λ n, 0 ≤ self_count n)
    (fold_left FlamegraphFacts.add_entry es st).1.
Proof.
  intros Hpos. revert st.
  induction Hpos as [|e es He _ IH]; intros st Hst; [done|].
  cbn [fold_left]. apply IH. unfold FlamegraphFacts.add_entry; cbn [fst].
  unfold Tree.add_stack. apply descend_self_nonneg; [lia|].
  destruct st as [[nm [cnt slf] ks] t]. revert Hst. cbn [fst].
  unfold Tree.upd. cbn [Tree.name Tree.data Tree.children].
  by rewrite !TreeInvariants.all_nodes_node.
Qed.

Lemma parse_folded_self_nonneg (lines : list string) root total :
  parse_folded lines = Ok (root, total) →
  TreeInvariants.all_nodes (λ n, 0 ≤ self_count n) root.
Proof.
  rewrite FlamegraphFacts.parse_folded_fold. intros [= Hfold].
  change root with (root, total).1. rewrite <- Hfold.
  apply fold_self_nonneg; [apply TotalFacts.entries_positive|].
  apply TreeInvariants.all_nodes_node. by split.
Qed.

(** Every node of the sorted tree of a parsed input is well counted. *)
Lemma parse_folded_well_counted (lines : list string) :
  ∃ root total,
    parse_folded lines = Ok (root, total) ∧
    TreeInvariants.all_nodes well_counted (sort_children root).
Proof.
  destruct (RenderFacts.parse_folded_sorted lines)
    as (root & total & Hparse & Hall).
  exists root, total. split; [done|].
  pose proof (parse_folded_self_nonneg lines root total Hparse) as Hself.
  assert (Hself' : TreeInvariants.all_nodes (λ n, 0 ≤ self_count n)
                     (sort_children root)).
  { by apply TreeInvariants.all_nodes_sort_children. }
  intros n Hn. destruct (Hall n Hn) as [Hc Hp]. split; [done|]. split; [done|].
  by apply Hself'.
Qed.

Lemma count_le_sum (ks : list Frame) (k : Frame) :
  Forall (λ k, 0 ≤ count k) ks → k ∈ ks →
  count k ≤ FlamegraphFacts.sum_count ks.
Proof.
  induction 1 as [|k' ks Hk' Hks IH]; intros Hin.
  - by apply elem_of_nil in Hin.
  - change (FlamegraphFacts.sum_count (k' :: ks))
      with (count k' + FlamegraphFacts.sum_count ks).
    assert (0 ≤ FlamegraphFacts.sum_count ks).
    { clear -Hks. induction Hks as [|x l Hx _ IHl]; simpl; lia. }
    apply elem_of_cons in Hin as [->|Hin]; [lia|].
    specialize (IH Hin). lia.
Qed.

(** A child is given a width between 0 and the width of its parent. *)
Lemma child_w_bounds (w : Q) (parent child : Frame) :
  (0 <= w)%Q → (Float64.fl w == w)%Q →
  0 ≤ count child ≤ count parent →
  (0 <= child_w w parent child)%Q ∧ (child_w w parent child <= w)%Q.
Proof.
  intros Hw Hf [H0 H1]. destruct (Z.gtb_spec (count parent) 0) as [Hp|Hp].
  - rewrite (RenderFacts.child_w_share w parent child Hp Hf).
    assert (Hs : (0 <= RenderFacts.share parent child)%Q
                 ∧ (RenderFacts.share parent child <= 1)%Q).
    { apply ColorFacts.ratio_bounds; lia. }
    destruct Hs as [Hs0 Hs1]. split.
    + by apply Float64Facts.scaled_share_nonneg.
    + by apply Float64Facts.scaled_share_le.
  - unfold child_w. destruct (Z.gtb_spec (count parent) 0); [lia|].
    split; [done|lra].
Qed.

Lemma layout_below_extent parent w0 depth ks :
  Forall (λ k : Frame, ∀ n d x w d0 x0 w0,
            TreeInvariants.all_nodes well_counted k →
            (0 <= w0)%Q → (Float64.fl x0 == x0)%Q → (Float64.fl w0 == w0)%Q →
            (n, d, x, w) ∈ layout k d0 x0 w0 →
            (x0 <= x)%Q ∧ (w <= w0)%Q) ks →
  Forall (TreeInvariants.all_nodes well_counted) ks →
  Forall (λ k, (0 <= child_w w0 parent k)%Q ∧ (child_w w0 parent k <= w0)%Q)
    ks →
  ∀ n d x w child_x,
    (Float64.fl child_x == child_x)%Q →
    (n, d, x, w) ∈ RenderFacts.layout_below parent w0 depth ks child_x →
    (child_x <= x)%Q ∧ (w <= w0)%Q.
Proof.
  induction 1 as [|k ks Hk _ IH]; intros Hwc Hcw n d x w child_x Hx Hin.
  - by apply elem_of_nil in Hin.
  - apply Forall_cons in Hwc as [Hwk Hwc].
    apply Forall_cons in Hcw as [[Hk0 Hk1] Hcw].
    cbn [RenderFacts.layout_below] in Hin.
    apply elem_of_app in Hin as [Hin|Hin].
    + destruct (Hk _ _ _ _ _ _ _ Hwk Hk0 Hx
                  (RenderFacts.child_w_float w0 parent k) Hin) as [H1 H2].
      split; lra.
    + destruct (IH Hwc Hcw _ _ _ _ _ (Float64Facts.fl_idem _) Hin)
        as [H1 H2].
      split; [|done].
      assert (child_x <= Float64.fl (child_x + child_w w0 parent k))%Q.
      { apply Float64Facts.fl_ge; [done|lra]. }
      lra.
Qed.

(** A rendered frame starts at or after the left edge the rendering started
    with, and is at most as wide as the width it started with. *)
Lemma layout_extent (t : Frame) :
  ∀ n d x w d0 x0 w0,
    TreeInvariants.all_nodes well_counted t →
    (0 <= w0)%Q → (Float64.fl x0 == x0)%Q → (Float64.fl w0 == w0)%Q →
    (n, d, x, w) ∈ layout t d0 x0 w0 →
    (x0 <= x)%Q ∧ (w <= w0)%Q.
Proof.
  induction t as [nm dt ks IH] using Tree.t_ind.
  intros n d x w d0 x0 w0 [Ht Hks]%TreeInvariants.all_nodes_node Hw0 Hx0 Hf0.
  rewrite RenderFacts.layout_unfold.
  destruct (Py.ltb w0 MIN_WIDTH_PX).
  { intros Hin. by apply elem_of_nil in Hin. }
  intros [[= -> -> -> ->]|Hin]%elem_of_cons; [split; lra|].
  assert (Hcounts : Forall (λ k : Frame, 0 ≤ count k) ks).
  { eapply Forall_impl; [exact Hks|]. intros k Hk.
    destruct k as [kn kd kks].
    apply TreeInvariants.all_nodes_node in Hk as [(_ & [H0 _] & _) _]. done. }
  apply (layout_below_extent (Tree.Node nm dt ks) w0 d0 ks IH Hks)
    with (n := n) (d := d) (child_x := x0); [|done|done].
  destruct Ht as (Hc & _ & Hs). unfold FlamegraphFacts.consistent in Hc.
  cbn [Tree.children] in Hc.
  apply Forall_forall. intros k Hk. apply child_w_bounds; [done|done|].
  pose proof (count_le_sum ks k Hcounts Hk).
  rewrite Forall_forall in Hcounts. specialize (Hcounts k Hk). lia.
Qed.

(** No frame starts left of the margin, and no frame is wider than the
    drawing area: every frame [render_svg] renders for a parsed input, from
    a canvas width that is a binary64 value, starts at or after [MARGIN] and
    is between [MIN_WIDTH_PX] and [width - 2 * MARGIN] wide. *)
Theorem frames_start_at_margin_and_fit (lines : list string) (width : Z) :
  width - 2 * MARGIN ≤ 2 ^ 53 →
  ∃ root total,
    parse_folded lines = Ok (root, total) ∧
    Forall (λ '(n, depth, x, w),
              (inject_Z MARGIN <= x)%Q ∧ (MIN_WIDTH_PX <= w)%Q ∧
              (w <= inject_Z (width - 2 * MARGIN))%Q)
      (layout (sort_children root) 0 (inject_Z MARGIN)
         (inject_Z (width - 2 * MARGIN))).
Proof.
  intros Hwidth.
  destruct (parse_folded_well_counted lines) as (root & total & Hp & Hwc).
  exists root, total. split; [done|]. apply Forall_forall.
  intros [[[n d] x] w] Hin.
  pose proof (RenderFacts.layout_in _ _ _ _ _ _ _ _ Hin) as [_ Hmin].
  destruct (Z.le_gt_cases 0 (width - 2 * MARGIN)) as [H0|H0].
  - assert (Hw0 : (0 <= inject_Z (width - 2 * MARGIN))%Q).
    { change 0%Q with (inject_Z 0). by rewrite <- Zle_Qle. }
    assert (Hfx : (Float64.fl (inject_Z MARGIN) == inject_Z MARGIN)%Q).
    { apply Float64Facts.fl_Z. by vm_compute. }
    assert (Hfw : (Float64.fl (inject_Z (width - 2 * MARGIN))
                   == inject_Z (width - 2 * MARGIN))%Q).
    { apply Float64Facts.fl_Z. lia. }
    destruct (layout_extent _ _ _ _ _ _ _ _ Hwc Hw0 Hfx Hfw Hin) as [H1 H2].
    done.
  - exfalso. revert Hin. rewrite RenderFacts.layout_unfold.
    assert (Hlt : Py.ltb (inject_Z (width - 2 * MARGIN)) MIN_WIDTH_PX = true).
    { apply ColorFacts.ltb_true. unfold MIN_WIDTH_PX, Qlt; simpl. lia. }
    rewrite Hlt. intros H. by apply elem_of_nil in H.
Qed.

Lemma frames_start_at_margin_and_fit_witness :
  ∃ root total,
    parse_folded ["a;b 5"; "a;c 5"; "d 3"] = Ok (root, total) ∧
    Forall (λ '(n, depth, x, w),
              (inject_Z MARGIN <= x)%Q ∧ (MIN_WIDTH_PX <= w)%Q ∧
              (w <= inject_Z (1200 - 2 * MARGIN))%Q)
      (layout (sort_children root) 0 (inject_Z MARGIN)
         (inject_Z (1200 - 2 * MARGIN))).
Proof.
  apply (frames_start_at_margin_and_fit ["a;b 5"; "a;c 5"; "d 3"] 1200).
  by vm_compute.
Defined.

End ExtentFacts.

(** ** Well-formed lines

    A line of the folded format, [stack count], is read back as that call
    path with that count. *)

Module RoundTrip.
Import RenderFacts.

(** Every character of [s] satisfies [p]. *)
Fixpoint all_chars (p : ascii → bool) (s : string) : bool :=
  match s with
  | EmptyString => true
  | String c s' => p c && all_chars p s'
  end.

Definition is_digit (c : ascii) : bool := bool_decide (is_Some (Py.digit c)).

(** A string [str.strip] reduces to nothing. *)
Definition blank (s : string) : Prop := Py.lstrip Py.isspace s = "".

Lemma digit_pretty_N_char (m : N) :
  (m < 10)%N → Py.digit (pretty_N_char m) = Some (Z.of_N m).
Proof.
  intros Hm.
  assert (m = 0 ∨ m = 1 ∨ m = 2 ∨ m = 3 ∨ m = 4 ∨ m = 5 ∨ m = 6 ∨ m = 7
          ∨ m = 8 ∨ m = 9)%N as Hc by lia.
  repeat (destruct Hc as [->|Hc]; [reflexivity|]). by subst.
Qed.

Lemma underscore_pretty_N_char (m : N) :
  Ascii.eqb (pretty_N_char m) "_" = false.
Proof. unfold pretty_N_char. by repeat case_match. Qed.

Lemma digits_pretty_N_go (x : N) (s : string) :
  ∃ k : nat,
    ((0 < x)%N → (0 < k)%nat) ∧
    ∀ acc b,
      Py.digits acc b (pretty_N_go x s)
      = Py.digits (acc * 10 ^ Z.of_nat k + Z.of_N x)
          (b || bool_decide (0 < k)%nat) s.
Proof.
  revert s. induction (N.lt_wf_0 x) as [x _ IH]; intros s.
  destruct (decide (x = 0)%N) as [->|Hx].
  - exists 0%nat. split; [lia|]. intros acc b. rewrite pretty_N_go_0.
    rewrite orb_false_r. f_equal. change (10 ^ Z.of_nat 0) with 1. lia.
  - rewrite pretty_N_go_step by lia.
    destruct (IH (x `div` 10)%N (N.div_lt x 10 ltac:(lia) ltac:(lia))
                (String (pretty_N_char (x `mod` 10)) s)) as (k & _ & Hk).
    exists (S k). split; [lia|]. intros acc b. rewrite Hk.
    cbn [Py.digits]. rewrite underscore_pretty_N_char.
    rewrite digit_pretty_N_char by (apply N.mod_lt; lia).
    rewrite orb_true_r. f_equal.
    rewrite Nat2Z.inj_succ, Z.pow_succ_r by lia.
    pose proof (N.div_mod x 10 ltac:(lia)) as Hdm.
    assert (Z.of_N x = 10 * Z.of_N (x `div` 10) + Z.of_N (x `mod` 10)) by lia.
    lia.
Qed.

Lemma digits_pretty_positive (p : BinNums.positive) :
  Py.digits 0 false (pretty p) = Some (Z.pos p).
Proof.
  unfold pretty, pretty_positive, pretty, pretty_N.
  rewrite decide_False by lia.
  destruct (digits_pretty_N_go (N.pos p) "") as (k & Hpos & Hk).
  rewrite Hk. cbn [Py.digits orb].
  rewrite bool_decide_true by (apply Hpos; lia). f_equal; lia.
Qed.

Lemma all_digits_pretty_N_go (x : N) (s : string) :
  all_chars is_digit s = true → all_chars is_digit (pretty_N_go x s) = true.
Proof.
  revert s. induction (N.lt_wf_0 x) as [x _ IH]; intros s Hs.
  destruct (decide (x = 0)%N) as [->|Hx]; [by rewrite pretty_N_go_0|].
  rewrite pretty_N_go_step by lia.
  apply IH; [apply N.div_lt; lia|].
  cbn [all_chars]. rewrite Hs, andb_true_r.
  unfold is_digit. apply bool_decide_eq_true.
  rewrite digit_pretty_N_char by (apply N.mod_lt; lia). by eexists.
Qed.

Lemma pretty_N_go_nonempty (x : N) (s : string) :
  (0 < x)%N → pretty_N_go x s ≠ "".
Proof.
  revert s. induction (N.lt_wf_0 x) as [x _ IH]; intros s Hx.
  rewrite pretty_N_go_step by lia.
  destruct (decide (x `div` 10 = 0)%N) as [->|Hd]; [by rewrite pretty_N_go_0|].
  apply IH; [apply N.div_lt; lia|by apply N.neq_0_lt_0].
Qed.

Lemma pretty_positive_digits (p : BinNums.positive) :
  all_chars is_digit (pretty p) = true ∧ pretty p ≠ "".
Proof.
  unfold pretty, pretty_positive, pretty, pretty_N.
  rewrite decide_False by lia. split.
  - by apply all_digits_pretty_N_go.
  - apply pretty_N_go_nonempty. lia.
Qed.

(** What a digit is not. *)
Lemma is_digit_not (c : ascii) :
  is_digit c = true →
  Py.isspace c = false ∧ Py.int_space c = false ∧ c ≠ " "%char
  ∧ c ≠ "+"%char ∧ c ≠ "-"%char.
Proof.
  unfold is_digit, Py.digit. intros H%bool_decide_eq_true.
  destruct ((48 <=? Py.ord c) && (Py.ord c <=? 57))%N eqn:E;
    [|by destruct H].
  apply andb_true_iff in E as [E1%N.leb_le E2%N.leb_le].
  unfold Py.isspace, Py.int_space.
  repeat split.
  - repeat (apply orb_false_iff; split); try apply andb_false_iff;
      rewrite ?N.leb_gt, ?N.eqb_neq; lia.
  - repeat (apply orb_false_iff; split); try apply andb_false_iff;
      rewrite ?N.leb_gt, ?N.eqb_neq; lia.
  - intros ->. vm_compute in E1. done.
  - intros ->. vm_compute in E1. done.
  - intros ->. vm_compute in E1. done.
Qed.

Lemma lstrip_keep sp (c : ascii) (s : string) :
  sp c = false → Py.lstrip sp (String c s) = String c s.
Proof. intros H. cbn [Py.lstrip]. by rewrite H. Qed.

Lemma rstrip_nonspace sp (c : ascii) (s : string) :
  sp c = false → Py.rstrip sp (String c s) = String c (Py.rstrip sp s).
Proof. intros H. cbn [Py.rstrip]. rewrite H. by destruct (Py.rstrip sp s). Qed.

Lemma rstrip_all sp p (s : string) :
  (∀ c, p c = true → sp c = false) →
  all_chars p s = true → Py.rstrip sp s = s.
Proof.
  intros Hp. induction s as [|c s IH]; [done|]. cbn [all_chars].
  intros [Hc Hs]%andb_true_iff.
  rewrite rstrip_nonspace by auto. by rewrite IH.
Qed.

Lemma rstrip_app_keep sp (x y : string) :
  Py.rstrip sp y = y → y ≠ "" → Py.rstrip sp (x +:+ y) = x +:+ y.
Proof.
  intros Hy Hne. induction x as [|a x IH]; [by rewrite append_nil|].
  rewrite append_cons. cbn [Py.rstrip]. rewrite IH.
  destruct (x +:+ y) eqn:E; [|done].
  destruct x; [rewrite append_nil in E; done|by rewrite append_cons in E].
Qed.

Lemma blank_rstrip (s : string) : blank s → Py.rstrip Py.isspace s = "".
Proof.
  unfold blank. induction s as [|c s IH]; [done|]. cbn [Py.lstrip Py.rstrip].
  destruct (Py.isspace c); [|done]. intros H. by rewrite IH.
Qed.

Lemma rstrip_app_blank sp (x y : string) :
  Py.rstrip sp y = "" → Py.rstrip sp (x +:+ y) = Py.rstrip sp x.
Proof.
  intros Hy. induction x as [|a x IH]; [by rewrite append_nil|].
  rewrite append_cons. cbn [Py.rstrip]. by rewrite IH.
Qed.

Lemma lstrip_app_blank (x y : string) :
  blank x → Py.lstrip Py.isspace (x +:+ y) = Py.lstrip Py.isspace y.
Proof.
  unfold blank. induction x as [|a x IH]; [by rewrite append_nil|].
  rewrite append_cons. cbn [Py.lstrip].
  destruct (Py.isspace a); [done|discriminate].
Qed.

Lemma lstrip_length sp (s : string) :
  (String.length (Py.lstrip sp s) ≤ String.length s)%nat.
Proof.
  induction s as [|c s IH]; [done|]. cbn [Py.lstrip].
  destruct (sp c); cbn [String.length]; lia.
Qed.

Lemma lstrip_fixed (c : ascii) (s : string) :
  Py.lstrip Py.isspace (String c s) = String c s → Py.isspace c = false.
Proof.
  cbn [Py.lstrip]. destruct (Py.isspace c); [|done]. intros H.
  pose proof (lstrip_length Py.isspace s) as Hl. rewrite H in Hl.
  cbn [String.length] in Hl. lia.
Qed.

Lemma rfind_all_absent p (c : ascii) (s : string) :
  (∀ a, p a = true → a ≠ c) → all_chars p s = true → Py.rfind c s = -1.
Proof.
  intros Hp. induction s as [|a s IH]; [done|]. cbn [all_chars Py.rfind].
  intros [Ha Hs]%andb_true_iff. rewrite IH by done.
  rewrite (proj2 (Ascii.eqb_neq a c)) by auto. done.
Qed.

Lemma rfind_app_last (c : ascii) (x y : string) :
  Py.rfind c y = -1 → Py.rfind c (x +:+ String c y) = Py.len x.
Proof.
  intros Hy. unfold Py.len. induction x as [|a x IH].
  - rewrite append_nil. cbn [Py.rfind]. rewrite Hy, Ascii.eqb_refl. done.
  - rewrite append_cons. cbn [Py.rfind String.length]. rewrite IH.
    rewrite (proj2 (Z.leb_le 0 _)) by lia. lia.
Qed.

Lemma take_app (x y : string) : Py.take (String.length x) (x +:+ y) = x.
Proof.
  induction x as [|a x IH].
  - rewrite append_nil. by destruct y.
  - rewrite append_cons. cbn [String.length Py.take]. by rewrite IH.
Qed.

Lemma drop_app_cons (a : ascii) (x y : string) :
  Py.drop (S (String.length x)) (x +:+ String a y) = y.
Proof.
  induction x as [|b x IH]; [by rewrite append_nil|].
  rewrite append_cons. cbn [String.length Py.drop]. done.
Qed.

Lemma lstrip_app_fixed (x y : string) :
  x ≠ "" → Py.lstrip Py.isspace x = x →
  Py.lstrip Py.isspace (x +:+ y) = x +:+ y.
Proof.
  destruct x as [|c x]; [done|]. intros _ H%lstrip_fixed.
  rewrite append_cons. by apply lstrip_keep.
Qed.

Lemma count_digits_all (d : string) :
  all_chars is_digit d = true → Py.count_digits d = Py.len d.
Proof.
  unfold Py.len. induction d as [|c d IH]; [done|].
  cbn [all_chars Py.count_digits String.length].
  intros [Hc Hd]%andb_true_iff. rewrite (IH Hd), Nat2Z.inj_succ.
  unfold is_digit in Hc. apply bool_decide_eq_true in Hc as [x ->]. lia.
Qed.

(** [int] on a string of digits, with and without a minus sign: the value
    up to [int_max_str_digits] digits, [ValueError] beyond. *)
Lemma int_digits (d : string) (v : Z) :
  all_chars is_digit d = true → d ≠ "" → Py.digits 0 false d = Some v →
  (Py.len d ≤ Py.int_max_str_digits →
   Py.int d = Ok v ∧ Py.int (String "-" d) = Ok (- v)) ∧
  (Py.int_max_str_digits < Py.len d →
   Py.int d = Raise ValueError ∧ Py.int (String "-" d) = Raise ValueError).
Proof.
  intros Hall Hne Hd.
  assert (Py.rstrip Py.int_space d = d) as Hr.
  { apply (rstrip_all _ is_digit); [|done]. intros c Hc.
    by apply is_digit_not in Hc as (_ & ? & _). }
  pose proof (count_digits_all d Hall) as Hcount.
  assert (Hplain : Py.int d
            = match Py.limited_digits d with
              | Some n => Ok n
              | None => Raise ValueError
              end).
  { destruct d as [|c r]; [done|].
    pose proof Hall as [Hc _]%andb_true_iff.
    apply is_digit_not in Hc as (_ & Hsp & _ & Hp & Hm).
    unfold Py.int. rewrite (lstrip_keep _ _ _ Hsp), Hr.
    set (parsed := Py.limited_digits (String c r)) in *.
    clearbody parsed. clear Hall Hne Hr Hsp Hd Hcount.
    destruct c as [[] [] [] [] [] [] [] []];
      try (by destruct Hp); try (by destruct Hm); reflexivity. }
  assert (Hminus : Py.int (String "-" d)
            = match Z.opp <$> Py.limited_digits d with
              | Some n => Ok n
              | None => Raise ValueError
              end).
  { unfold Py.int. rewrite lstrip_keep by done.
    rewrite rstrip_nonspace by done. by rewrite Hr. }
  rewrite Hplain, Hminus. unfold Py.limited_digits. rewrite Hcount, Hd.
  split; intros Hlen;
    destruct (Z.gtb_spec (Py.len d) Py.int_max_str_digits); done || lia.
Qed.

(** The decimal text of an integer, as one token of a line. *)
Lemma pretty_token (n : Z) :
  pretty n ≠ "" ∧ Py.rstrip Py.isspace (pretty n) = pretty n
  ∧ Py.rfind " " (pretty n) = -1
  ∧ (Py.len (pretty (Z.abs n)) ≤ Py.int_max_str_digits →
     Py.int (pretty n) = Ok n)
  ∧ (Py.int_max_str_digits < Py.len (pretty (Z.abs n)) →
     Py.int (pretty n) = Raise ValueError).
Proof.
  assert (∀ p : BinNums.positive,
            pretty p ≠ "" ∧ Py.rstrip Py.isspace (pretty p) = pretty p
            ∧ Py.rfind " " (pretty p) = -1
            ∧ (Py.len (pretty p) ≤ Py.int_max_str_digits →
               Py.int (pretty p) = Ok (Z.pos p)
               ∧ Py.int (String "-" (pretty p)) = Ok (Z.neg p))
            ∧ (Py.int_max_str_digits < Py.len (pretty p) →
               Py.int (pretty p) = Raise ValueError
               ∧ Py.int (String "-" (pretty p)) = Raise ValueError))
    as Hpos.
  { intros p. destruct (pretty_positive_digits p) as [Hall Hne].
    split; [done|]. split.
    { apply (rstrip_all _ is_digit); [|done]. intros c Hc.
      by apply is_digit_not in Hc as (? & _). }
    split.
    { apply (rfind_all_absent is_digit); [|done]. intros c Hc.
      by apply is_digit_not in Hc as (_ & _ & ? & _). }
    apply (int_digits _ _ Hall Hne (digits_pretty_positive p)). }
  destruct n as [|p|p].
  - split; [done|]. split; [done|]. split; [done|]. split.
    + intros _. by vm_compute.
    + intros H. by vm_compute in H.
  - destruct (Hpos p) as (? & ? & ? & H1 & H2).
    change (pretty (Z.abs (Z.pos p))) with (pretty p).
    change (pretty (Z.pos p)) with (pretty p).
    split; [done|]. split; [done|]. split; [done|].
    split; intros Hlen; [by apply H1|by apply H2].
  - destruct (Hpos p) as (Hne & Hr & Hf & H1 & H2).
    change (pretty (Z.abs (Z.neg p))) with (pretty p).
    change (pretty (Z.neg p)) with ("-" +:+ pretty p).
    change ("-" +:+ pretty p) with (String "-" ("" +:+ pretty p)).
    rewrite append_nil. split; [done|]. split.
    { rewrite rstrip_nonspace by done. by rewrite Hr. }
    split; [cbn [Py.rfind]; by rewrite Hf|].
    split; intros Hlen; [by apply H1|by apply H2].
Qed.

(** A well-formed line is read back as written: the call path [stack],
    one space and the decimal text of [n], with any white space around,
    gives the entry [(stack, n)], for a path that is not empty and starts
    with neither white space nor [#].  A count below 1 is read as 1, and so
    is a count of more than [int_max_str_digits] digits, which [int]
    refuses. *)
Theorem well_formed_line_round_trip (lead stack trail : string) (n : Z) :
  blank lead → blank trail →
  stack ≠ "" → Py.lstrip Py.isspace stack = stack →
  Py.startswith "#" stack = false →
  let line := lead +:+ stack +:+ " " +:+ pretty n +:+ trail in
  (Py.len (pretty (Z.abs n)) ≤ Py.int_max_str_digits →
   parse_line line = Ok (Some (stack, if n <=? 0 then 1 else n))) ∧
  (Py.int_max_str_digits < Py.len (pretty (Z.abs n)) →
   parse_line line = Ok (Some (stack, 1))).
Proof.
  intros Hlead Htrail Hne Hfix Hhash line.
  destruct (pretty_token n) as (Htne & Htr & Htf & Hti & Hte).
  assert (Py.strip line = stack +:+ String " " (pretty n)) as Hstrip.
  { unfold line, Py.strip. rewrite lstrip_app_blank by done.
    rewrite lstrip_app_fixed by done.
    rewrite <-!append_assoc.
    rewrite rstrip_app_blank by by apply blank_rstrip.
    rewrite rstrip_app_keep by done.
    rewrite append_assoc.
    change (" " +:+ pretty n) with (String " " ("" +:+ pretty n)).
    by rewrite append_nil. }
  assert (Hparse : parse_line line
            = (count ← except_ValueError (Py.int (pretty n)) (Ok 1);
               Ok (Some (stack, if count <=? 0 then 1 else count)))).
  { unfold parse_line. rewrite Hstrip.
    rewrite (rfind_app_last _ _ _ Htf).
    assert (String.eqb (stack +:+ String " " (pretty n)) "" = false) as ->.
    { destruct stack; [done|]. by rewrite append_cons. }
    assert (Py.startswith "#" (stack +:+ String " " (pretty n)) = false)
      as ->.
    { destruct stack; [done|]. by rewrite append_cons. }
    cbv beta iota zeta. cbn [orb].
    unfold Py.len.
    rewrite (proj2 (Z.ltb_ge _ 0)) by lia.
    unfold Py.slice_to, Py.slice_from.
    rewrite Nat2Z.id.
    replace (Z.to_nat (Z.of_nat (String.length stack) + 1))
      with (S (String.length stack)) by lia.
    by rewrite take_app, drop_app_cons. }
  rewrite Hparse. split; intros Hlen.
  - by rewrite (Hti Hlen).
  - by rewrite (Hte Hlen).
Qed.

Lemma well_formed_line_round_trip_witness :
  parse_line ("  main;work 42" +:+ Py.nl) = Ok (Some ("main;work", 42)).
Proof.
  apply (well_formed_line_round_trip "  " "main;work" Py.nl 42);
    reflexivity || discriminate.
Defined.

End RoundTrip.

(** ** Widths in differential mode

    [render_diff_frame] sizes a child by [max(count_a, count_b)].  A child is
    never wider than its parent, but the children of one frame may together
    be wider than the frame: up to twice its width and, within
    floating-point tolerance, not more. *)

Module DiffWidthFacts.
Import Flamediff.

Section DataInvariant.
Context {D : Type} (zero : D) (inc fin : D → D) (P : D → Prop).
Hypothesis P_zero : P zero.
Hypothesis P_inc : ∀ d, P d → P (inc d).
Hypothesis P_fin : ∀ d, P d → P (fin d).

Lemma descend_data funcs (n : Tree.t D) :
  TreeInvariants.all_nodes (λ n, P (Tree.data n)) n →
  TreeInvariants.all_nodes (λ n, P (Tree.data n))
    (Tree.descend zero inc fin funcs n).
Proof.
  revert n. induction funcs as [|func rest IH]; intros [nm d ks].
  - cbn [Tree.descend]. unfold Tree.upd.
    cbn [Tree.name Tree.data Tree.children].
    rewrite !TreeInvariants.all_nodes_node. cbn [Tree.data].
    intros [H0 Hks]. split; [by apply P_fin|done].
  - cbn [Tree.descend Tree.name Tree.data Tree.children].
    rewrite !TreeInvariants.all_nodes_node. intros [H0 Hks]. split; [done|].
    apply TreeInvariants.Forall_with_child_gen; [| |done].
    + intros [xn xd xks] Hx. apply IH. revert Hx. unfold Tree.upd.
      cbn [Tree.name Tree.data Tree.children].
      rewrite !TreeInvariants.all_nodes_node. cbn [Tree.data].
      intros [H1 H2]. split; [by apply P_inc|done].
    + apply IH. unfold Tree.upd, Tree.new.
      cbn [Tree.name Tree.data Tree.children].
      apply TreeInvariants.all_nodes_node. cbn [Tree.data].
      split; [by apply P_inc|done].
Qed.

Lemma add_stack_data funcs (root : Tree.t D) :
  TreeInvariants.all_nodes (λ n, P (Tree.data n)) root →
  TreeInvariants.all_nodes (λ n, P (Tree.data n))
    (Tree.add_stack zero inc fin funcs root).
Proof.
  intros Hroot. unfold Tree.add_stack. apply descend_data.
  destruct root as [nm d ks]. revert Hroot. unfold Tree.upd.
  cbn [Tree.name Tree.data Tree.children].
  rewrite !TreeInvariants.all_nodes_node. cbn [Tree.data].
  intros [H0 Hks]. split; [by apply P_inc|done].
Qed.

End DataInvariant.

(** A property of every node holds at the children of every node. *)
Lemma all_nodes_children {D} (Q : Tree.t D → Prop) (t : Tree.t D) :
  TreeInvariants.all_nodes Q t →
  TreeInvariants.all_nodes (λ n, Q n ∧ Forall Q (Tree.children n)) t.
Proof.
  induction t as [nm d ks IH] using Tree.t_ind.
  rewrite !TreeInvariants.all_nodes_node. cbn [Tree.children].
  intros [H0 Hks]. split; [split; [done|]|].
  - eapply Forall_impl; [exact Hks|]. intros [kn kd kks].
    by intros [? _]%TreeInvariants.all_nodes_node.
  - rewrite Forall_forall in IH, Hks. apply Forall_forall.
    intros k Hk. by apply IH, Hks.
Qed.

(** Counters that are not negative. *)
Definition nonneg (d : counters) : Prop :=
  0 ≤ c_count_a d ∧ 0 ≤ c_count_b d ∧ 0 ≤ c_self_a d ∧ 0 ≤ c_self_b d.

Lemma get_nonneg (stacks : gmap string Z) (k : string) :
  map_Forall (λ _ v, 0 ≤ v) stacks → 0 ≤ get stacks k.
Proof.
  intros H. unfold get. destruct (stacks !! k) as [v|] eqn:E; [|done].
  apply (H k v E).
Qed.

Lemma build_nonneg order stacks_a total_a stacks_b total_b :
  map_Forall (λ _ v, 0 ≤ v) stacks_a →
  map_Forall (λ _ v, 0 ≤ v) stacks_b →
  TreeInvariants.all_nodes (λ n, nonneg (Tree.data n))
    (build_diff_tree order stacks_a total_a stacks_b total_b).
Proof.
  intros Ha Hb. unfold build_diff_tree.
  assert (H0 : TreeInvariants.all_nodes (λ n, nonneg (Tree.data n))
                 (new_DiffFrame "root")).
  { apply TreeInvariants.all_nodes_node. split; [|done].
    unfold nonneg; simpl. lia. }
  revert H0. generalize (new_DiffFrame "root").
  induction order as [|k order IH]; intros root Hroot; [done|].
  cbn [fold_left]. apply IH.
  pose proof (get_nonneg stacks_a k Ha). pose proof (get_nonneg stacks_b k Hb).
  apply add_stack_data; [| | |done].
  - unfold nonneg; simpl. lia.
  - intros [ca cb sa sb]. unfold nonneg, add_counts; simpl. lia.
  - intros [ca cb sa sb]. unfold nonneg, add_selfs; simpl. lia.
Qed.

(** The counters that bound the layout at a node. *)
Definition bounded (n : DiffFrame) : Prop :=
  DiffTreeFacts.balanced c_count_a c_self_a n ∧
  DiffTreeFacts.balanced c_count_b c_self_b n ∧
  nonneg (Tree.data n).

Lemma sum_incl_perm {D} (incl : D → Z) (l l' : list (Tree.t D)) :
  l ≡ₚ l' → DiffTreeFacts.sum_incl incl l = DiffTreeFacts.sum_incl incl l'.
Proof.
  induction 1 as [|x l l' _ IH|x y l|l l' l'' _ IH1 _ IH2]; simpl; lia.
Qed.

Lemma data_sort_children {D} (k : Tree.t D) :
  Tree.data (Tree.sort_children k) = Tree.data k.
Proof. by destruct k. Qed.

Lemma sum_incl_sorted {D} (incl : D → Z) (ks : list (Tree.t D)) :
  DiffTreeFacts.sum_incl incl (Tree.sort_by_name (map Tree.sort_children ks))
  = DiffTreeFacts.sum_incl incl ks.
Proof.
  rewrite (sum_incl_perm incl _ _ (TreeInvariants.sort_perm _)).
  induction ks as [|k ks IH]; [done|]. simpl.
  by rewrite data_sort_children, IH.
Qed.

Lemma build_bounded order stacks_a total_a stacks_b total_b :
  map_Forall (λ _ v, 0 ≤ v) stacks_a →
  map_Forall (λ _ v, 0 ≤ v) stacks_b →
  TreeInvariants.all_nodes bounded
    (sort_children (build_diff_tree order stacks_a total_a stacks_b total_b)).
Proof.
  intros Ha Hb. apply TreeInvariants.all_nodes_sort_children.
  - intros nm d ks (H1 & H2 & H3). unfold bounded, DiffTreeFacts.balanced in *.
    cbn [Tree.data Tree.children] in *. by rewrite !sum_incl_sorted.
  - intros n Hn. split; [|split].
    + by apply (DiffTreeFacts.build_balanced_a order stacks_a total_a
                  stacks_b total_b).
    + by apply (DiffTreeFacts.build_balanced_b order stacks_a total_a
                  stacks_b total_b).
    + by apply (build_nonneg order stacks_a total_a stacks_b total_b).
Qed.

(** The sum of the widths of some children of a frame. *)
Definition children_w (x_width : Q) (parent : DiffFrame)
    (ks : list DiffFrame) : Q :=
  foldr (λ child acc, (child_w x_width parent child + acc)%Q) 0%Q ks.

Definition sum_max (ks : list DiffFrame) : Z :=
  foldr (λ k acc, count k + acc) 0 ks.

(** The count the width of the children is divided by. *)
Definition parent_count (n : DiffFrame) : Z :=
  if count n >? 0 then count n else 1.

Lemma diff_child_w_share (w : Q) (n k : DiffFrame) :
  (Float64.fl w == w)%Q →
  (child_w w n k
   == Float64.fl
        (w * Float64.fl (inject_Z (count k) / inject_Z (parent_count n))))%Q.
Proof.
  intros Hw. unfold child_w, parent_count.
  apply Float64Facts.fl_proper. by rewrite Hw.
Qed.

(** The widths of some children against their exact shares: at most three
    roundings above them. *)
Lemma children_w_upper (w : Q) (n : DiffFrame) (ks : list DiffFrame) :
  (0 <= w)%Q → (Float64.fl w == w)%Q →
  Forall (λ k, 0 ≤ count k) ks →
  (children_w w n ks
   <= (1 + 3 * Float64.u)
      * (w * (inject_Z (sum_max ks) / inject_Z (parent_count n)))
      + inject_Z (Z.of_nat (length ks)) * (Float64.eta * (2 * w + 1)))%Q.
Proof.
  intros Hw Hf.
  assert (Hpc : 0 < parent_count n).
  { unfold parent_count. destruct (Z.gtb_spec (count n) 0); lia. }
  assert (Hc : ¬ (inject_Z (parent_count n) == 0)%Q).
  { unfold Qeq; simpl. lia. }
  induction ks as [|k ks IH]; intros Hks.
  - cbn [children_w foldr sum_max length]. change (inject_Z 0) with 0%Q.
    unfold Qdiv. ring_simplify. lra.
  - apply Forall_cons in Hks as [Hk Hks]. specialize (IH Hks).
    cbn [children_w sum_max foldr length].
    fold (children_w w n ks). fold (sum_max ks).
    rewrite Nat2Z.inj_succ. unfold Z.succ.
    rewrite !inject_Z_plus. change (inject_Z 1) with 1%Q.
    rewrite (diff_child_w_share w n k Hf).
    assert (Hs : (0 <= inject_Z (count k) / inject_Z (parent_count n))%Q).
    { apply Qle_shift_div_l; [unfold Qlt; simpl; lia|].
      unfold Qle; simpl. lia. }
    pose proof (Float64Facts.scaled_share_error w _ Hw Hs) as Ek.
    apply Qabs_Qle_condition in Ek as [_ Ek].
    set (a := inject_Z (count k)) in *.
    set (b := inject_Z (sum_max ks)) in *.
    set (c := inject_Z (parent_count n)) in *.
    assert (E : (w * ((a + b) / c) == w * (a / c) + w * (b / c))%Q)
      by (field; done).
    rewrite E.
    set (wk := Float64.fl (w * Float64.fl (a / c))) in *.
    set (rest := children_w w n ks) in *.
    set (m := inject_Z (Z.of_nat (length ks))) in *.
    set (h := (Float64.eta * (2 * w + 1))%Q) in *.
    set (A := (w * (a / c))%Q) in *. set (B := (w * (b / c))%Q) in *.
    set (uA := (Float64.u * A)%Q) in *. set (uB := (Float64.u * B)%Q) in *.
    assert (E1 : (3 * Float64.u * A == 3 * uA)%Q) by (unfold uA; ring).
    assert (E2 : ((1 + 3 * Float64.u) * B == B + 3 * uB)%Q)
      by (unfold uB; ring).
    assert (E3 : ((1 + 3 * Float64.u) * (A + B)
                  == A + B + 3 * uA + 3 * uB)%Q) by (unfold uA, uB; ring).
    assert (E4 : ((m + 1) * h == m * h + h)%Q) by ring.
    rewrite E1 in Ek. rewrite E2 in IH. rewrite E3, E4.
    set (mh := (m * h)%Q) in *. lra.
Qed.

Lemma sum_max_bounds (ks : list DiffFrame) :
  Forall (λ k, nonneg (Tree.data k)) ks →
  Forall (λ k, 0 ≤ count k
               ∧ count k ≤ Z.max (DiffTreeFacts.sum_incl c_count_a ks)
                             (DiffTreeFacts.sum_incl c_count_b ks)) ks
  ∧ 0 ≤ DiffTreeFacts.sum_incl c_count_a ks
  ∧ 0 ≤ DiffTreeFacts.sum_incl c_count_b ks
  ∧ sum_max ks ≤ DiffTreeFacts.sum_incl c_count_a ks
                 + DiffTreeFacts.sum_incl c_count_b ks.
Proof.
  induction 1 as [|k ks (Ha & Hb & _) _ (IH1 & IH2 & IH3 & IH4)].
  - simpl. repeat split; [constructor|lia..].
  - cbn [DiffTreeFacts.sum_incl sum_max foldr].
    fold (DiffTreeFacts.sum_incl c_count_a ks).
    fold (DiffTreeFacts.sum_incl c_count_b ks). fold (sum_max ks).
    assert (Hk : count k = Z.max (c_count_a (Tree.data k))
                             (c_count_b (Tree.data k))) by done.
    split; [|lia]. constructor; [lia|].
    eapply Forall_impl; [exact IH1|]. simpl. intros x [? ?]. lia.
Qed.

Lemma twice_bound (m u w r h s : Q) :
  (0 <= m)%Q → (0 <= u)%Q → (0 <= w)%Q → (r <= 2)%Q →
  (s <= (1 + 3 * u) * (w * r) + m * h)%Q →
  (s <= (1 + (m + 3) * u) * (2 * w) + m * h)%Q.
Proof.
  intros Hm Hu Hw Hr Hs.
  assert (Hwr : (w * r <= w * 2)%Q) by (by apply Float64Facts.mult_le_l).
  assert (H1 : ((1 + 3 * u) * (w * r) <= (1 + 3 * u) * (w * 2))%Q).
  { apply Float64Facts.mult_le_l; [lra|done]. }
  assert (H2 : (0 <= m * (u * (2 * w)))%Q).
  { apply Qmult_le_0_compat; [done|]. apply Qmult_le_0_compat; lra. }
  assert (E : ((1 + (m + 3) * u) * (2 * w)
               == (1 + 3 * u) * (w * 2) + m * (u * (2 * w)))%Q) by ring.
  rewrite E.
  set (P := ((1 + 3 * u) * (w * r))%Q) in *.
  set (P2 := ((1 + 3 * u) * (w * 2))%Q) in *.
  set (M := (m * (u * (2 * w)))%Q) in *.
  set (T := (m * h)%Q) in *.
  lra.
Qed.

(** In differential mode, with counts that are not negative and a width
    that is a binary64 value, a child is never wider than its parent and
    never of negative width, and the children of one frame take at most
    twice its width together, within floating-point tolerance: a relative
    error of the number of children plus 3 roundings, and the roundings
    that underflow. *)
Theorem diff_children_widths order stacks_a total_a stacks_b total_b
    (x_width : Q) :
  map_Forall (λ _ v, 0 ≤ v) stacks_a →
  map_Forall (λ _ v, 0 ≤ v) stacks_b →
  (0 <= x_width)%Q → (Float64.fl x_width == x_width)%Q →
  Forall
    (λ n,
       Forall (λ k, (0 <= child_w x_width n k)%Q
                    ∧ (child_w x_width n k <= x_width)%Q) (Tree.children n)
       ∧ (foldr (λ k acc, child_w x_width n k + acc) 0 (Tree.children n)
          <= (1 + (inject_Z (Z.of_nat (length (Tree.children n))) + 3)
                  * Float64.u) * (2 * x_width)
             + inject_Z (Z.of_nat (length (Tree.children n)))
               * (Float64.eta * (2 * x_width + 1)))%Q)
    (Tree.nodes
       (sort_children
          (build_diff_tree order stacks_a total_a stacks_b total_b))).
Proof.
  intros Ha Hb Hw Hf. apply TreeInvariants.all_nodes_Forall.
  pose proof (all_nodes_children _ _
                (build_bounded order stacks_a total_a stacks_b total_b Ha Hb))
    as Hall.
  intros n Hn. destruct (Hall n Hn) as [(Hba & Hbb & Hnn) Hks].
  assert (Hkn : Forall (λ k, nonneg (Tree.data k)) (Tree.children n)).
  { eapply Forall_impl; [exact Hks|]. by intros k (_ & _ & ?). }
  destruct (sum_max_bounds _ Hkn) as (Hk & Hsa & Hsb & Hsum).
  destruct Hnn as (Hca & Hcb & Hsfa & Hsfb).
  unfold DiffTreeFacts.balanced in Hba, Hbb.
  assert (Hcn : count n = Z.max (c_count_a (Tree.data n))
                            (c_count_b (Tree.data n))) by done.
  assert (Hpc : 0 < parent_count n ∧ count n ≤ parent_count n).
  { unfold parent_count. destruct (Z.gtb_spec (count n) 0); lia. }
  pose proof Float64Facts.u_pos as Hu.
  split.
  - eapply Forall_impl; [exact Hk|]. intros k [H0 H1].
    rewrite (diff_child_w_share x_width n k Hf).
    destruct (ColorFacts.ratio_bounds (count k) (parent_count n))
      as [R0 R1]; [lia|lia|].
    split.
    + by apply Float64Facts.scaled_share_nonneg.
    + by apply Float64Facts.scaled_share_le.
  - fold (children_w x_width n (Tree.children n)).
    assert (Hk0 : Forall (λ k, 0 ≤ count k) (Tree.children n)).
    { eapply Forall_impl; [exact Hk|]. by intros k [? _]. }
    pose proof (children_w_upper x_width n (Tree.children n) Hw Hf Hk0) as Hup.
    assert (H2 : sum_max (Tree.children n) ≤ 2 * parent_count n) by lia.
    assert (R : (inject_Z (sum_max (Tree.children n))
                 / inject_Z (parent_count n) <= 2)%Q).
    { apply Qle_shift_div_r; [unfold Qlt; simpl; lia|].
      unfold Qle; simpl. lia. }
    set (r := (inject_Z (sum_max (Tree.children n))
               / inject_Z (parent_count n))%Q) in *.
    apply (twice_bound _ _ _ r _ _); [|lra|done|done|exact Hup].
    change 0%Q with (inject_Z 0). rewrite <- Zle_Qle. lia.
Qed.

Lemma diff_children_widths_witness :
  Forall
    (λ n,
       Forall (λ k, (0 <= child_w 100 n k)%Q ∧ (child_w 100 n k <= 100)%Q)
         (Tree.children n)
       ∧ (foldr (λ k acc, child_w 100 n k + acc) 0 (Tree.children n)
          <= (1 + (inject_Z (Z.of_nat (length (Tree.children n))) + 3)
                  * Float64.u) * (2 * 100)
             + inject_Z (Z.of_nat (length (Tree.children n)))
               * (Float64.eta * (2 * 100 + 1)))%Q)
    (Tree.nodes
       (sort_children
          (build_diff_tree ["a"; "b"] {["a" := 5]} 5 {["b" := 5]} 5))).
Proof.
  apply (diff_children_widths ["a"; "b"] {["a" := 5]} 5 {["b" := 5]} 5 100).
  - apply map_Forall_singleton. lia.
  - apply map_Forall_singleton. lia.
  - done.
  - by vm_compute.
Defined.

End DiffWidthFacts.

(** ** Text labels

    The label of a frame: the whole name when it fits, a shortened name in
    a frame wider than 20, nothing otherwise.  The test [max_chars > 0] of
    the source never fails. *)

Module LabelFacts.

(** The number of characters kept in a frame too narrow for the name. *)
Lemma max_chars_bounds (name : string) (x_width : Q) :
  (x_width <= inject_Z (Py.len name) * CHAR_WIDTH + 6)%Q → (20 < x_width)%Q →
  2 ≤ Py.trunc ((x_width - 6) / CHAR_WIDTH) ≤ Py.len name.
Proof.
  intros Hfit Hwide. unfold CHAR_WIDTH in *.
  assert (H2 : (inject_Z 2 <= (x_width - 6) / (13 # 2))%Q).
  { apply Qle_shift_div_l; [done|]. change (inject_Z 2) with 2%Q. lra. }
  assert (Hn : ((x_width - 6) / (13 # 2) <= inject_Z (Py.len name))%Q).
  { apply Qle_shift_div_r; [done|]. lra. }
  split.
  - apply ColorFacts.trunc_lower; [done|lia].
  - apply ColorFacts.trunc_bounds; [|done].
    change (inject_Z 2) with 2%Q in H2. lra.
Qed.

(** Which label a frame gets, in both tools: the fourth string a frame
    writes is the full label when the name fits, the shortened label when
    it does not and the frame is wider than 20, and the closing tag, with
    no label, otherwise.  The shortened label keeps between 2 characters
    and the whole name. *)
Theorem label_rule md5_hex8 fmt1 (name : string) (depth : Z)
    (x_left x_width : Q) (h total total_b fid : Z) dsingle ksingle ddiff kdiff :
  let y := h - 30 - (depth + 1) * FRAME_HEIGHT in
  let text_width := (inject_Z (Py.len name) * CHAR_WIDTH)%Q in
  let m := Py.trunc ((x_width - 6) / CHAR_WIDTH) in
  let single :=
    Flamegraph.frame_markup md5_hex8 fmt1 (Tree.Node name dsingle ksingle)
      depth x_left x_width h total fid !! 3%nat in
  let diff :=
    Flamediff.frame_markup fmt1 (Tree.Node name ddiff kdiff)
      depth x_left x_width h total total_b fid !! 3%nat in
  ((text_width + 6 < x_width)%Q →
   single = Some (Flamegraph.text_label fmt1 x_left y
                    (Flamegraph.xml_escape name)) ∧
   diff = Some (Flamediff.text_label fmt1 x_left y
                  (Flamediff.xml_escape name))) ∧
  ((x_width <= text_width + 6)%Q → (20 < x_width)%Q →
   2 ≤ m ≤ Py.len name ∧
   single = Some (Flamegraph.text_label fmt1 x_left y
                    (Flamegraph.xml_escape (Py.slice_to m name) +:+ "..")) ∧
   diff = Some (Flamediff.text_label fmt1 x_left y
                  (Flamediff.xml_escape (Py.slice_to m name) +:+ ".."))) ∧
  ((x_width <= text_width + 6)%Q → (x_width <= 20)%Q →
   single = Some ("</g>" +:+ Py.nl) ∧ diff = Some ("</g>" +:+ Py.nl)).
Proof.
  intros y text_width m single diff.
  unfold single, diff, Flamegraph.frame_markup, Flamediff.frame_markup.
  cbn [Tree.name]. fold text_width. fold m. fold y.
  split; [|split].
  - intros H%ColorFacts.ltb_true. rewrite H. done.
  - intros H1 H2. pose proof (max_chars_bounds name x_width H1 H2) as Hm.
    fold m in Hm. apply ColorFacts.ltb_false in H1.
    apply ColorFacts.ltb_true in H2. rewrite H1, H2.
    rewrite (proj2 (Z.gtb_lt m 0)) by lia. done.
  - intros H1%ColorFacts.ltb_false H2%ColorFacts.ltb_false.
    rewrite H1, H2. done.
Qed.

Lemma label_rule_witness :
  let name := "main"%string in
  let single :=
    Flamegraph.frame_markup (λ _, 0) (λ _, "") (Flamegraph.new_Frame name)
      1 10 25 200 10 0 !! 3%nat in
  2 ≤ Py.trunc ((25 - 6) / CHAR_WIDTH) ≤ Py.len name ∧
  single = Some (Flamegraph.text_label (λ _, "") 10 (200 - 30 - 2 * 16)
                   (Flamegraph.xml_escape "ma" +:+ "..")).
Proof.
  destruct (label_rule (λ _, 0) (λ _, "") "main" 1 10 25 200 10 10 0
              (Flamegraph.Counters 0 0) [] Flamediff.zero [])
    as (_ & H & _).
  destruct H as (Hm & Hs & _); [done|done|].
  split; [exact Hm|exact Hs].
Defined.

End LabelFacts.

(** ** A profile compared with itself *)

Module SelfDiffFacts.
Import Flamediff.

(** Counters with equal sides. *)
Definition same_sides (d : counters) : Prop :=
  c_count_a d = c_count_b d ∧ c_self_a d = c_self_b d.

Lemma build_same_sides order stacks total_a total_b :
  TreeInvariants.all_nodes (λ n, same_sides (Tree.data n))
    (sort_children (build_diff_tree order stacks total_a stacks total_b)).
Proof.
  apply TreeInvariants.all_nodes_sort_children; [done|].
  unfold build_diff_tree.
  assert (H0 : TreeInvariants.all_nodes (λ n, same_sides (Tree.data n))
                 (new_DiffFrame "root")).
  { apply TreeInvariants.all_nodes_node. by split. }
  revert H0. generalize (new_DiffFrame "root").
  induction order as [|k order IH]; intros root Hroot; [done|].
  cbn [fold_left]. apply IH.
  apply DiffWidthFacts.add_stack_data; [done| | |done].
  - intros [ca cb sa sb]. unfold same_sides, add_counts; simpl. lia.
  - intros [ca cb sa sb]. unfold same_sides, add_selfs; simpl. lia.
Qed.

Lemma delta_color_same (c total : Z) :
  delta_color c c total total = (200, 200, 200).
Proof.
  unfold delta_color. destruct ((total =? 0) && (total =? 0)); [done|].
  cbv zeta.
  set (r := if total >? 0 then (inject_Z c / inject_Z total)%Q else 0%Q).
  assert (H : Py.ltb (Qabs (r - r)) (1 # 1000) = true).
  { apply ColorFacts.ltb_true.
    assert (E : (r - r == 0)%Q) by ring. by rewrite E. }
  by rewrite H.
Qed.

(** A profile compared with itself is drawn gray: in the merged tree of a
    dictionary with itself, for every iteration order, every node has the
    same count on both sides, a delta of 0 and, with equal totals, the
    neutral colour at every depth. *)
Theorem self_diff_is_gray order (stacks : gmap string Z) (total depth : Z) :
  Forall
    (λ n, count_a n = count_b n ∧ self_a n = self_b n ∧ delta n = 0
          ∧ frame_color depth n total total = (200, 200, 200))
    (Tree.nodes
       (sort_children (build_diff_tree order stacks total stacks total))).
Proof.
  apply TreeInvariants.all_nodes_Forall. intros n Hn.
  destruct (build_same_sides order stacks total total n Hn) as [Hc Hs].
  unfold count_a, count_b, self_a, self_b, delta, frame_color.
  split; [done|]. split; [done|]. split; [unfold count_a, count_b; lia|].
  destruct (depth =? 0); [done|].
  unfold count_a, count_b. rewrite Hc. apply delta_color_same.
Qed.

End SelfDiffFacts.
